(** * Magnitude pruning, sparsity schedules and the PGD attack

    A shallow embedding of [src/utils/prune.py], [src/attacks/pgd.py] and of
    the evaluation pass of [src/trainers/dense_trainer.py].

    Conventions of the embedding.
    - A float is the rational number it denotes.  Absolute value,
      comparison, sorting and multiplication by a 0/1 mask are exact on
      floats, so they are the operations of [Q].
    - Where the value of a float operation decides what is stated, the
      operation rounds: [float_round p] rounds a rational to the nearest
      float of [p] bits of precision, ties to even ([float64], [float32]).
      This is the case of the rank index [int(prune_compute * n)] of
      [global_prune] and of the tensor arithmetic of the PGD attack.  The
      exponent range is not modelled: no overflow to infinity, no subnormal
      numbers, no NaN.
    - Elsewhere ([prune], the schedule, the sparsity guard, the window of
      [__init__]) the operations are those of [Q].  What is stated about
      them is about products that floats compute exactly ([0 * n], [1 * n],
      [0.5 * 3]), or holds for whichever rank is read, or is about the range
      and the order of the values, which rounding keeps
      ([float_rank_in_range], [float_round_mono]).
    - A tensor is its shape together with its entries in row-major order.
    - Python exceptions are values of [exn]; code that can raise returns a
      [result].  Code that mutates the model and can raise half-way returns
      the model as it was left together with the exception, if any.
    - [torch.norm], [math.sin] and [math.pi] are not rational functions; the
      pruner takes them from a [FloatLib] instance. *)

From Stdlib Require Import String.
From Stdlib Require Import List ZArith QArith Qabs Qround Qminmax Qpower.
From Stdlib Require Import Bool Lia Lqa.
From Stdlib Require Import Permutation Sorted SetoidList Reals Lra.
Import ListNotations.

Local Open Scope Q_scope.

(** ** Python results *)

Inductive exn : Set :=
| IndexError
| NotImplementedError
| RuntimeError
| ZeroDivisionError
| UnboundLocalError.

Inductive result (A : Type) : Type :=
| Ok (a : A)
| Raise (e : exn).

Arguments Ok {A} a.
Arguments Raise {A} e.

Definition bind {A B : Type} (r : result A) (k : A -> result B) : result B :=
  match r with
  | Ok a => k a
  | Raise e => Raise e
  end.

Notation "x <- r ;; k" := (bind r (fun x => k))
  (at level 61, r at next level, right associativity).

(** ** Numbers *)

(** [int(x)] on a float: truncation towards zero. *)
Definition py_int (x : Q) : Z := Z.quot (Qnum x) (Zpos (Qden x)).

Definition of_nat (n : nat) : Q := inject_Z (Z.of_nat n).

(** [a < b] on floats, as a boolean. *)
Definition Qltb (a b : Q) : bool := negb (Qle_bool b a).

(** [bool_tensor.float()]. *)
Definition float_of_bool (b : bool) : Q := if b then 1 else 0.

(** [t[idx]] along a dimension of size [n]: the position that is read.
    Negative indices count from the end; anything else out of range raises
    [IndexError]. *)
Definition position (n : nat) (idx : Z) : result nat :=
  if ((0 <=? idx) && (idx <? Z.of_nat n))%Z then Ok (Z.to_nat idx)
  else if ((- Z.of_nat n <=? idx) && (idx <? 0))%Z
       then Ok (Z.to_nat (Z.of_nat n + idx))
       else Raise IndexError.

(** ** Sorting: [torch.sort(...)[0]], ascending *)

Fixpoint place (x : Q) (l : list Q) : list Q :=
  match l with
  | [] => [x]
  | y :: r => if Qle_bool x y then x :: y :: r else y :: place x r
  end.

Definition torch_sort (l : list Q) : list Q := fold_right place [] l.

(** ** Tensors *)

Record tensor : Type := Tensor { shape : list nat; data : list Q }.

Definition numel (t : tensor) : nat := length (data t).

Definition wf_tensor (t : tensor) : Prop :=
  length (data t) = fold_right Nat.mul 1%nat (shape t).

(** A two-dimensional tensor as the list of its rows. *)
Definition matrix (A : Type) : Type := list (list A).

(** The first [k] rows of length [n] of a row-major buffer. *)
Fixpoint chunks (k n : nat) (l : list Q) : matrix Q :=
  match k with
  | O => []
  | S k' => firstn n l :: chunks k' n (skipn n l)
  end.

(** [m.transpose(0, 1)] for a matrix with [nc] columns. *)
Definition transpose {A : Type} (d : A) (nc : nat) (m : matrix A) : matrix A :=
  map (fun j => map (fun row => nth j row d) m) (seq 0 nc).

(** [torch.sort(m, dim=0)[0]] for a matrix with [nr] rows and [nc] columns:
    every column is sorted on its own. *)
Definition sort_dim0 (nr nc : nat) (m : matrix Q) : matrix Q :=
  transpose 0 nr (map torch_sort (transpose 0 nc m)).

(** Elementwise [a < b] of two vectors of the same length. *)
Definition lt_vec (a b : list Q) : list bool :=
  map (fun p => Qltb (fst p) (snd p)) (combine a b).

(** [1. - mask.float()] on a boolean matrix. *)
Definition one_minus (m : matrix bool) : matrix Q :=
  map (map (fun b => 1 - float_of_bool b)) m.

(** ** The floating-point library *)

Class FloatLib : Type := {
  torch_norm : list Q -> Q;   (* L2 norm of a vector *)
  math_pi : Q;
  math_sin : Q -> Q
}.

(** ** [prune] *)

Section Prune.

Context {FL : FloatLib}.

(** [w.view(w_shape[0], -1)]: the rows of the [(out, R)] view. *)
Definition view_rows (w : tensor) : result (nat * nat * matrix Q) :=
  match shape w with
  | [] => Raise IndexError
  | out :: _ =>
      if (out =? 0)%nat then Raise RuntimeError
      else if negb (numel w mod out =? 0)%nat then Raise RuntimeError
      else let R := (numel w / out)%nat in
           Ok (out, R, chunks out R (data w))
  end.

Definition prune_weight (w : tensor) (perc : Q) : result tensor :=
  v <- view_rows w ;;
  let '(out, R, rows) := v in
  let wt := transpose 0 R rows in                 (* shape (R, out) *)
  let norm := map (map Qabs) wt in
  let idx := py_int (perc * of_nat R) in
  p <- position R idx ;;
  let threshold := nth p (sort_dim0 R out norm) [] in
  let mask := map (fun row => lt_vec row threshold) norm in
  Ok (Tensor (shape w) (concat (transpose 0 out (one_minus mask)))).

Definition prune_unit (w : tensor) (perc : Q) : result tensor :=
  v <- view_rows w ;;
  let '(out, R, rows) := v in
  let wt := transpose 0 R rows in                 (* shape (R, out) *)
  let norm := map torch_norm (transpose 0 out wt) in
  let idx := py_int (perc * of_nat out) in
  let sorted_norms := torch_sort norm in
  p <- position out idx ;;
  let threshold := nth p sorted_norms 0 in
  let mask := map (fun n => Qltb n threshold) norm in
  let mask := repeat mask R in
  Ok (Tensor (shape w) (concat (transpose 0 out (one_minus mask)))).

Definition prune (w : tensor) (perc : Q) (prune_type : string)
  : result tensor :=
  if String.eqb prune_type "weight" then prune_weight w perc
  else if String.eqb prune_type "unit" then prune_unit w perc
  else Raise NotImplementedError.

End Prune.

(** ** The model: [model.modules()] *)

(** A module either has a [mask] attribute (and then a [weight]) or not. *)
Inductive module_t : Type :=
| Other
| Prunable (weight : tensor) (mask : tensor).

Definition model : Type := list module_t.

(** The masks of the mask-bearing layers, in iteration order. *)
Fixpoint masks_of (m : model) : list tensor :=
  match m with
  | [] => []
  | Other :: r => masks_of r
  | Prunable _ mk :: r => mk :: masks_of r
  end.

Fixpoint weights_of (m : model) : list tensor :=
  match m with
  | [] => []
  | Other :: r => weights_of r
  | Prunable w _ :: r => w :: weights_of r
  end.

(** Number of ones in a mask. *)
Definition count_ones (t : tensor) : nat :=
  length (filter (Qeq_bool 1) (data t)).

Definition total_ones (ts : list tensor) : nat :=
  fold_right (fun t n => (count_ones t + n)%nat) 0%nat ts.

(** ** Scalars of the sparsity schedule

    [compute_sparsity] is arithmetic on Python floats with [math.sin] and
    [math.pi]; it is written once over a scalar type, read on the rationals
    (with the library's [math_sin], [math_pi]) inside the pruner and on the
    reals for the numeric bounds. *)

Class Scalar (F : Type) : Type := {
  s_of_int : Z -> F;
  s_add : F -> F -> F;
  s_sub : F -> F -> F;
  s_mul : F -> F -> F;
  s_div : F -> F -> F;
  s_abs : F -> F;
  s_sin : F -> F;
  s_pi : F
}.

Section Schedule.

Context {F : Type} {SF : Scalar F}.

Variables (ramp_type : string) (initial_sparsity final_sparsity : F)
          (ramp_cycle_step start_step end_step : Z).

Definition compute_sparsity (step : Z) : result F :=
  if String.eqb ramp_type "linear" then
    if (end_step - start_step =? 0)%Z then Raise ZeroDivisionError
    else
      let rate_of_increase :=
        s_div (s_sub final_sparsity initial_sparsity)
              (s_of_int (end_step - start_step)) in
      Ok (s_add initial_sparsity
                (s_mul rate_of_increase (s_of_int (step - start_step))))
  else if String.eqb ramp_type "half_cycle" then
    if (ramp_cycle_step =? 0)%Z then Raise ZeroDivisionError
    else
      let sin_inner :=
        s_div (s_mul (s_div s_pi (s_of_int 2))
                     (s_of_int (step mod ramp_cycle_step)))
              (s_of_int ramp_cycle_step) in
      Ok (s_mul final_sparsity (s_sin sin_inner))
  else if String.eqb ramp_type "full_cycle" then
    if (ramp_cycle_step =? 0)%Z then Raise ZeroDivisionError
    else
      let sin_inner :=
        s_mul (s_div s_pi (s_of_int 2))
              (s_div (s_of_int step) (s_of_int ramp_cycle_step)) in
      Ok (s_mul final_sparsity (s_abs (s_sin sin_inner)))
  else Raise UnboundLocalError.

End Schedule.

#[export] Instance Scalar_Q {FL : FloatLib} : Scalar Q := {|
  s_of_int := inject_Z;
  s_add := Qplus;
  s_sub := Qminus;
  s_mul := Qmult;
  s_div := Qdiv;
  s_abs := Qabs;
  s_sin := math_sin;
  s_pi := math_pi
|}.

(** ** Configuration *)

Module Args.

Record t : Type := Build {
  ramp_type : string;
  initial_sparsity : Q;
  final_sparsity : Q;
  start_step : Q;
  end_step : Q;
  steps : Z;
  ramp_cycle_step : Z;
  prune_freq : Z;
  global_prune : bool;
  prune_type : string;
  carry_mask : bool;
  ramping : bool
}.

End Args.

(** ** Elementwise arithmetic and rounding *)

Definition zip_with {A B C : Type} (f : A -> B -> C) (a : list A) (b : list B)
  : list C :=
  map (fun p => f (fst p) (snd p)) (combine a b).

(** [weight * mask] for tensors of one shape. *)
Definition tmul (a b : tensor) : tensor :=
  Tensor (shape a) (zip_with Qmult (data a) (data b)).

Definition sum_list (l : list Q) : Q := fold_right Qplus 0 l.

(** Round to the nearest integer, ties to the even one. *)
Definition rint (x : Q) : Z :=
  let f := Qfloor x in
  let r := x - inject_Z f in
  if Qltb r (1 # 2) then f
  else if Qltb (1 # 2) r then (f + 1)%Z
  else if Z.even f then f else (f + 1)%Z.

(** [round(x, 2)]. *)
Definition round2 (x : Q) : Q := inject_Z (rint (x * 100)) / 100.

(** [round(1. - np.sum(mask) / mask.size, 2) <= final_sparsity]; on an empty
    mask the quotient is NaN and the comparison is false. *)
Definition below_final (mask : tensor) (final_sparsity : Q) : bool :=
  if (numel mask =? 0)%nat then false
  else
    let mask_sparsity :=
      round2 (1 - sum_list (data mask) / of_nat (numel mask)) in
    Qle_bool mask_sparsity final_sparsity.

(** ** Floats

    [ilog2 x] is the exponent of the binade of [x]:
    [2 ^ ilog2 x <= |x| < 2 ^ (ilog2 x + 1)]. *)
Definition ilog2 (x : Q) : Z :=
  let e := (Z.log2 (Z.abs (Qnum x)) - Z.log2 (Zpos (Qden x)))%Z in
  if Qle_bool (2 ^ e) (Qabs x) then e else (e - 1)%Z.

(** The float of [prec] bits of precision nearest to [x], ties to even: [x]
    is rounded to a multiple of the unit in the last place of its binade.
    The result is in lowest terms. *)
Definition float_round (prec : Z) (x : Q) : Q :=
  if Qeq_bool x 0 then 0
  else
    let ulp := 2 ^ (ilog2 x - prec + 1) in
    Qred (inject_Z (rint (x / ulp)) * ulp).

(** Python floats and [torch.float64] have 53 bits of precision,
    [torch.float32] has 24. *)
Definition float64 : Q -> Q := float_round 53.

Definition float32 : Q -> Q := float_round 24.

(** [a * b] on Python floats: both operands are converted to floats (a
    decimal literal, an [int]) and the product is rounded. *)
Definition float_mul (a b : Q) : Q := float64 (float64 a * float64 b).

(** ** The pruner *)

(** What a method that mutates the model leaves behind: the model, and the
    exception if one was raised. *)
Definition outcome : Type := (model * option exn)%type.

Module Pruner.

Record t : Type := Build {
  args : Args.t;
  initial_masks : list tensor;
  start_step : Z;
  end_step : Z
}.

Definition init (a : Args.t) (m : model) : t :=
  {| args := a;
     initial_masks := masks_of m;
     start_step := py_int (Args.start_step a * inject_Z (Args.steps a));
     end_step := py_int (Args.end_step a * inject_Z (Args.steps a)) |}.

Section Methods.

Context {FL : FloatLib}.

Variable self : t.

Definition compute_sparsity (step : Z) : result Q :=
  compute_sparsity (Args.ramp_type (args self))
                   (Args.initial_sparsity (args self))
                   (Args.final_sparsity (args self))
                   (Args.ramp_cycle_step (args self))
                   (start_step self) (end_step self) step.

(** [(torch.abs(w) > threshold).float()]. *)
Definition keep_above (threshold : Q) (w : tensor) : tensor :=
  Tensor (shape w)
         (map (fun x => float_of_bool (Qltb threshold (Qabs x))) (data w)).

(** The second loop of [global_prune]: [layer.mask.data = masks[count]]. *)
Fixpoint assign_masks (m : model) (masks : list tensor) (count : nat)
  : model :=
  match m with
  | [] => []
  | Other :: r => Other :: assign_masks r masks count
  | Prunable w mk :: r =>
      Prunable w (nth count masks mk) :: assign_masks r masks (S count)
  end.

Definition global_prune (m : model) (prune_compute : Q) : outcome :=
  let weights := weights_of m in
  match weights with
  | [] => (m, Some RuntimeError)        (* torch.cat of an empty list *)
  | _ =>
      let scores := concat (map data weights) in
      let idx := py_int (float_mul prune_compute (of_nat (length scores))) in
      let norm := map Qabs scores in
      match position (length scores) idx with
      | Raise e => (m, Some e)
      | Ok p =>
          let threshold := nth p (torch_sort norm) 0 in
          let masks := map (keep_above threshold) weights in
          (assign_masks m masks 0, None)
      end
  end.

Fixpoint local_prune (m : model) (prune_compute : Q) : outcome :=
  match m with
  | [] => ([], None)
  | Other :: r =>
      let (r', e) := local_prune r prune_compute in (Other :: r', e)
  | Prunable w mk :: r =>
      if below_final mk (Args.final_sparsity (args self)) then
        match prune (if Args.carry_mask (args self) then tmul w mk else w)
                    prune_compute (Args.prune_type (args self)) with
        | Raise e => (m, Some e)
        | Ok module_mask =>
            let (r', e) := local_prune r prune_compute in
            (Prunable w module_mask :: r', e)
        end
      else
        let (r', e) := local_prune r prune_compute in
        (Prunable w mk :: r', e)
  end.

Definition ramping_prune (m : model) (step : Z) : outcome :=
  match compute_sparsity step with
  | Raise e => (m, Some e)
  | Ok prune_percent =>
      let prune_percent :=
        if (step =? end_step self)%Z
        then Args.final_sparsity (args self) else prune_percent in
      if ((start_step self <=? step) && (step <? end_step self))%Z then
        if (Args.prune_freq (args self) =? 0)%Z
        then (m, Some ZeroDivisionError)
        else if (step mod Args.prune_freq (args self) =? 0)%Z then
          if Args.global_prune (args self)
          then global_prune m prune_percent
          else local_prune m prune_percent
        else (m, None)
      else (m, None)
  end.

Definition single_shot_prune (m : model) (step : Z) : outcome :=
  if (step =? start_step self)%Z then
    if Args.global_prune (args self)
    then global_prune m (Args.final_sparsity (args self))
    else local_prune m (Args.final_sparsity (args self))
  else (m, None).

Definition step (m : model) (step : Z) : outcome :=
  if Args.ramping (args self)
  then ramping_prune m step
  else single_shot_prune m step.

End Methods.

End Pruner.

(** ** The PGD attack *)

(** [torch.clamp(x, min=lo, max=hi)] on one entry. *)
Definition clamp (lo hi x : Q) : Q := Qmin (Qmax x lo) hi.

(** [x.sign()] on one entry. *)
Definition sign (x : Q) : Q :=
  if Qltb 0 x then 1 else if Qltb x 0 then - (1) else 0.

Module PGD.

Record t : Type := Build {
  eps : Q;
  alpha : Q;
  random_start : bool;
  steps : Z
}.

(** [__init__]: [eps] is the Python float [0.3], the rest comes from the
    arguments. *)
Definition init (args_alpha : Q) (args_random_start : bool) (args_steps : Z)
  : t :=
  {| eps := float64 (3 # 10);
     alpha := args_alpha;
     random_start := args_random_start;
     steps := args_steps |}.

Section Forward.

Variables (Model Labels : Type).

(** [model(adv_images)], [criterion(outputs, labels)] and
    [torch.autograd.grad(cost, adv_images)]: the gradient of the cost with
    respect to [adv_images], a tensor shaped like [adv_images], or the
    exception raised on the way; and the model as these calls leave it. *)
Variable backward : Model -> Labels -> list Q -> result (list Q) * Model.

(** The precision of the dtype of [images]: 24 bits for [torch.float32], 53
    for [torch.float64].  Every tensor operation rounds to it, and a Python
    float that meets a tensor is cast to it first. *)
Variable prec : Z.

Variable self : t.

(** One iteration of the loop, on the entries.  The bound [-eps] is cast
    like [eps]: rounding is symmetric. *)
Definition iteration (net : Model) (labels : Labels) (eps : Q)
           (images adv_images : list Q) : result (list Q) * Model :=
  let (grad, net) := backward net labels adv_images in
  (grad <- grad ;;
   let adv_images :=
     zip_with (fun a s => float_round prec (a + s)) adv_images
       (map (fun g => float_round prec (float_round prec (alpha self) * sign g))
            grad) in
   let delta :=
     map (clamp (- float_round prec eps) (float_round prec eps))
         (zip_with (fun a x => float_round prec (a - x)) adv_images images) in
   Ok (map (clamp 0 1)
           (zip_with (fun x d => float_round prec (x + d)) images delta)),
   net).

(** [for i in range(n)]: the loop stops at the first exception. *)
Fixpoint iterate (n : nat) (net : Model) (labels : Labels) (eps : Q)
         (images adv_images : list Q) : result (list Q) * Model :=
  match n with
  | O => (Ok adv_images, net)
  | S n' =>
      match iteration net labels eps images adv_images with
      | (Ok adv_images, net) => iterate n' net labels eps images adv_images
      | (Raise e, net) => (Raise e, net)
      end
  end.

(** [forward(model, images, labels, eps)].  [noise] is the sample drawn by
    [torch.empty_like(adv_images).uniform_(-eps, eps)].  The result is the
    adversarial batch, or the exception raised, together with the model as
    the call leaves it. *)
Definition forward (net : Model) (images : tensor) (labels : Labels)
           (eps : option Q) (noise : list Q) : result tensor * Model :=
  let adv_images := data images in
  let eps := match eps with None => PGD.eps self | Some e => e end in
  let adv_images :=
    if random_start self
    then map (clamp 0 1)
             (zip_with (fun a z => float_round prec (a + z)) adv_images noise)
    else adv_images in
  let (adv_images, net) :=
    iterate (Z.to_nat (steps self)) net labels eps (data images) adv_images in
  (adv_images <- adv_images ;; Ok (Tensor (shape images) adv_images), net).

End Forward.

End PGD.

(** ** Instances used to read and to run the definitions *)

(** The schedule on the reals: [math.sin] is the sine, [math.pi] is π. *)
#[export] Instance Scalar_R : Scalar R := {|
  s_of_int := IZR;
  s_add := Rplus;
  s_sub := Rminus;
  s_mul := Rmult;
  s_div := Rdiv;
  s_abs := Rabs;
  s_sin := sin;
  s_pi := PI
|}.

(** A library to evaluate examples with: the norm of a vector is
    represented by its square (the square root is increasing, so sorting and
    comparing norms are sorting and comparing their squares), π and the sine
    by rational approximations. *)
Definition sum_squares (v : list Q) : Q :=
  fold_right (fun x acc => x * x + acc) 0 v.

Definition rational_lib : FloatLib := {|
  torch_norm := sum_squares;
  math_pi := 355 # 113;
  math_sin := fun x => x - x * x * x / 6
|}.

(** ** Vocabulary of the statements *)

(** Number of entries that satisfy a test. *)
Definition count {A : Type} (p : A -> bool) (l : list A) : nat :=
  length (filter p l).

(** Number of zeros in a list of mask entries. *)
Definition count_zeros (l : list Q) : nat := count (Qeq_bool 0) l.

(** The mask of one row under ['weight'] granularity, for the rank [p]. *)
Definition row_mask (p : nat) (row : list Q) : list Q :=
  let threshold := nth p (torch_sort (map Qabs row)) 0 in
  map (fun x => 1 - float_of_bool (Qltb (Qabs x) threshold)) row.

(** The mask of one row under ['unit'] granularity, for the threshold [t]. *)
Definition unit_mask {FL : FloatLib} (t : Q) (R : nat) (row : list Q)
  : list Q :=
  repeat (1 - float_of_bool (Qltb (torch_norm row) t)) R.

(** A layer that [local_prune] would prune: its mask sparsity is still at
    most [final_sparsity]. *)
Definition open_layer (final_sparsity : Q) (l : module_t) : bool :=
  match l with
  | Other => false
  | Prunable _ mk => below_final mk final_sparsity
  end.

(** What pruning on [weight * mask] uses of [torch.norm]: it is not
    negative, it vanishes on zero vectors and only there. *)
Definition norm_laws (FL : FloatLib) : Prop :=
  (forall v, 0 <= torch_norm v) /\
  (forall v, Forall (fun x => x == 0) v -> torch_norm v == 0) /\
  (forall v, torch_norm v == 0 -> Forall (fun x => x == 0) v).

(** Over the pairs (weight row, old mask row) of a layer: the norm of a unit
    in the first call, its mask row, its norm in the second call and its
    second mask row. *)
Definition unit_norm1 {FL : FloatLib} (pr : list Q * list Q) : Q :=
  torch_norm (zip_with Qmult (fst pr) (snd pr)).

Definition unit_first {FL : FloatLib} (LL : list (list Q * list Q))
           (p R : nat) (pr : list Q * list Q) : list Q :=
  unit_mask (nth p (torch_sort (map unit_norm1 LL)) 0) R
            (zip_with Qmult (fst pr) (snd pr)).

Definition unit_norm2 {FL : FloatLib} (LL : list (list Q * list Q))
           (p R : nat) (pr : list Q * list Q) : Q :=
  torch_norm (zip_with Qmult (fst pr) (unit_first LL p R pr)).

Definition unit_second {FL : FloatLib} (LL : list (list Q * list Q))
           (p R : nat) (pr : list Q * list Q) : list Q :=
  unit_mask (nth p (torch_sort (map (unit_norm2 LL p R) LL)) 0) R
            (zip_with Qmult (fst pr) (unit_first LL p R pr)).

(** Every mask is all ones, as on a model that has not been pruned. *)
Definition fresh_masks (m : model) : Prop :=
  Forall (fun mask => Forall (fun x => x = 1) (data mask)) (masks_of m).

(** The second mask has at most as many ones as the first. *)
Definition no_more_ones (first second : tensor) : Prop :=
  (count_ones second <= count_ones first)%nat.

(** An entry [a] of the adversarial batch against the entry [x] of the
    images: in the box, and within the budget up to one rounding of a sum
    of magnitude at most [1 + budget]. *)
Definition in_box_near_ball (prec : Z) (budget x a : Q) : Prop :=
  0 <= a <= 1 /\ Qabs (a - x) <= budget + 2 ^ (- prec) * (1 + budget).

(** ** Sample inputs *)

(** The 4 x 3 weight [[1,2,3],[4,5,6],[7,8,9],[10,11,12]]. *)
Definition example_weight : tensor :=
  Tensor [4%nat; 3%nat] [1; 2; 3; 4; 5; 6; 7; 8; 9; 10; 11; 12].

Definition two_by_two : tensor := Tensor [2%nat; 2%nat] [3; 1; 2; 4].

(** One layer with four weights of distinct magnitudes. *)
Definition four_weights : model :=
  [Prunable (Tensor [2%nat; 2%nat] [1; -(2); 3; -(4)])
            (Tensor [2%nat; 2%nat] [1; 1; 1; 1])].

(** Two mask-bearing layers with fresh masks around a plain module. *)
Definition two_layers : model :=
  [Prunable two_by_two (Tensor [2%nat; 2%nat] [1; 1; 1; 1]);
   Other;
   Prunable example_weight
            (Tensor [4%nat; 3%nat] [1; 1; 1; 1; 1; 1; 1; 1; 1; 1; 1; 1])].

(** A configuration: local pruning by weight, no mask carrying, a linear
    ramp from step 10 to step 90, recomputed every 5 steps. *)
Definition plain_args : Args.t :=
  {| Args.ramp_type := "linear";
     Args.initial_sparsity := 0;
     Args.final_sparsity := 1 # 2;
     Args.start_step := 1 # 10;
     Args.end_step := 9 # 10;
     Args.steps := 100;
     Args.ramp_cycle_step := 10;
     Args.prune_freq := 5;
     Args.global_prune := false;
     Args.prune_type := "weight";
     Args.carry_mask := false;
     Args.ramping := true |}.

Definition with_prune_type (ty : string) (a : Args.t) : Args.t :=
  {| Args.ramp_type := Args.ramp_type a;
     Args.initial_sparsity := Args.initial_sparsity a;
     Args.final_sparsity := Args.final_sparsity a;
     Args.start_step := Args.start_step a;
     Args.end_step := Args.end_step a;
     Args.steps := Args.steps a;
     Args.ramp_cycle_step := Args.ramp_cycle_step a;
     Args.prune_freq := Args.prune_freq a;
     Args.global_prune := Args.global_prune a;
     Args.prune_type := ty;
     Args.carry_mask := Args.carry_mask a;
     Args.ramping := Args.ramping a |}.

Definition with_carry_mask (b : bool) (a : Args.t) : Args.t :=
  {| Args.ramp_type := Args.ramp_type a;
     Args.initial_sparsity := Args.initial_sparsity a;
     Args.final_sparsity := Args.final_sparsity a;
     Args.start_step := Args.start_step a;
     Args.end_step := Args.end_step a;
     Args.steps := Args.steps a;
     Args.ramp_cycle_step := Args.ramp_cycle_step a;
     Args.prune_freq := Args.prune_freq a;
     Args.global_prune := Args.global_prune a;
     Args.prune_type := Args.prune_type a;
     Args.carry_mask := b;
     Args.ramping := Args.ramping a |}.

Definition carry_unit_args : Args.t :=
  with_prune_type "unit" (with_carry_mask true plain_args).

Definition carry_weight_args : Args.t := with_carry_mask true plain_args.

(** A layer whose mask already has a zero where the weight is largest. *)
Definition revived : model :=
  [Prunable (Tensor [1%nat; 2%nat] [10; 0]) (Tensor [1%nat; 2%nat] [0; 1])].

Definition toy_attack : PGD.t := PGD.init (float64 (1 # 10)) true 3.

(** What the pruner must leave alone: the modules in order, and the weight
    of each mask-bearing one. *)
Definition skeleton (m : model) : list (option tensor) :=
  map (fun l => match l with
                | Other => None
                | Prunable w _ => Some w
                end) m.

(** A mask for the weight [w]: its shape, one entry per weight entry, every
    entry 0 or 1. *)
Definition mask_for (w mask : tensor) : Prop :=
  shape mask = shape w /\
  length (data mask) = numel w /\
  Forall (fun x => x = 0 \/ x = 1) (data mask).

(** A layer as [local_prune] expects it: a weight with at least one
    dimension and one entry, and a mask with as many entries. *)
Definition layer_ok (l : module_t) : Prop :=
  match l with
  | Other => True
  | Prunable w mk =>
      wf_tensor w /\ shape w <> [] /\ (0 < numel w)%nat /\
      length (data mk) = length (data w)
  end.

(** What a pass may do to a module: nothing, or replace the mask of a
    mask-bearing layer by a 0/1 mask of the shape of the weight. *)
Definition same_or_remasked (l l' : module_t) : Prop :=
  l' = l \/
  exists w mk mk',
    l = Prunable w mk /\ l' = Prunable w mk' /\
    shape mk' = shape w /\ Forall (fun x => x = 0 \/ x = 1) (data mk').

(** A run of the pruner: [step] is called at each step index in turn on the
    model the previous call left, until a call raises. *)
Fixpoint run_steps {FL : FloatLib} (self : Pruner.t) (m : model)
         (steps : list Z) : outcome :=
  match steps with
  | [] => (m, None)
  | s :: rest =>
      match Pruner.step self m s with
      | (m', None) => run_steps self m' rest
      | (m', Some e) => (m', Some e)
      end
  end.

(** ** The evaluation pass of the trainer: [test] *)

Module Trainer.

(** The model as [test] sees it: the network and its train/eval mode. *)
Record model_state (Net : Type) : Type := Build {
  net : Net;
  training : bool
}.

Arguments Build {Net} net training.
Arguments net {Net} m.
Arguments training {Net} m.

(** [predicted.eq(targets).sum().item()]. *)
Definition eq_count (predicted targets : list nat) : nat :=
  length (filter (fun p => (fst p =? snd p)%nat) (combine predicted targets)).

Section Test.

(** The network and a batch of inputs; [loss_of] is
    [criterion(model(inputs), targets)] and [predicted_of] is the arg-max of
    [model(inputs)] along dimension 1, both in eval mode. *)
Variables (Net X : Type).
Variable loss_of : Net -> X -> list nat -> Q.
Variable predicted_of : Net -> X -> list nat.

(** The counters of the loop: the loss of the batch just seen (unbound
    before the first batch), [test_loss], [correct] and [total]. *)
Record counters : Type := Counters {
  loss : option Q;
  test_loss : Q;
  correct : nat;
  total : nat
}.

Definition batch_step (n : Net) (c : counters) (batch : X * list nat)
  : counters :=
  let (inputs, targets) := batch in
  let l := loss_of n inputs targets in
  {| loss := Some l;
     test_loss := test_loss c + l;
     total := (total c + length targets)%nat;
     correct := (correct c + eq_count (predicted_of n inputs) targets)%nat |}.

Definition test (testloader : list (X * list nat)) (m : model_state Net)
  : model_state Net * result (Q * Q) :=
  let m := Build (net m) false in                          (* model.eval() *)
  let c := fold_left (batch_step (net m)) testloader
                     (Counters None 0 0 0) in
  if (total c =? 0)%nat then (m, Raise ZeroDivisionError)
  else
    let acc := 100 * of_nat (correct c) / of_nat (total c) in
    let m := Build (net m) true in                         (* model.train() *)
    match loss c with
    | None => (m, Raise UnboundLocalError)
    | Some l => (m, Ok (l, acc))
    end.

End Test.

End Trainer.

Definition with_ramp_type (ty : string) (a : Args.t) : Args.t :=
  {| Args.ramp_type := ty;
     Args.initial_sparsity := Args.initial_sparsity a;
     Args.final_sparsity := Args.final_sparsity a;
     Args.start_step := Args.start_step a;
     Args.end_step := Args.end_step a;
     Args.steps := Args.steps a;
     Args.ramp_cycle_step := Args.ramp_cycle_step a;
     Args.prune_freq := Args.prune_freq a;
     Args.global_prune := Args.global_prune a;
     Args.prune_type := Args.prune_type a;
     Args.carry_mask := Args.carry_mask a;
     Args.ramping := Args.ramping a |}.

Definition with_ramping (b : bool) (a : Args.t) : Args.t :=
  {| Args.ramp_type := Args.ramp_type a;
     Args.initial_sparsity := Args.initial_sparsity a;
     Args.final_sparsity := Args.final_sparsity a;
     Args.start_step := Args.start_step a;
     Args.end_step := Args.end_step a;
     Args.steps := Args.steps a;
     Args.ramp_cycle_step := Args.ramp_cycle_step a;
     Args.prune_freq := Args.prune_freq a;
     Args.global_prune := Args.global_prune a;
     Args.prune_type := Args.prune_type a;
     Args.carry_mask := Args.carry_mask a;
     Args.ramping := b |}.

(** * Properties *)

(** ** Comparisons *)

Lemma Qltb_lt (a b : Q) : Qltb a b = true <-> a < b.
Proof.
  unfold Qltb. rewrite negb_true_iff.
  split; intro H.
  - apply Qnot_le_lt. intro Hle. apply Qle_bool_iff in Hle. congruence.
  - destruct (Qle_bool b a) eqn:E; [|reflexivity].
    apply Qle_bool_iff in E. exfalso. apply (Qlt_not_le _ _ H E).
Qed.

Lemma Qltb_ge (a b : Q) : Qltb a b = false <-> b <= a.
Proof.
  unfold Qltb. rewrite negb_false_iff. apply Qle_bool_iff.
Qed.

Lemma Qeq_bool_one_float (b : bool) : Qeq_bool 1 (float_of_bool b) = b.
Proof. destruct b; reflexivity. Qed.

Lemma Qeq_bool_one_keep (b : bool) :
  Qeq_bool 1 (1 - float_of_bool b) = negb b.
Proof. destruct b; reflexivity. Qed.

(** ** Counting *)

Section Count.

Context {A : Type}.
Implicit Types (p q : A -> bool) (l : list A).

Lemma count_cons p x l :
  count p (x :: l) = ((if p x then 1 else 0) + count p l)%nat.
Proof. unfold count. simpl. destruct (p x); reflexivity. Qed.

Lemma count_app p l1 l2 : count p (l1 ++ l2) = (count p l1 + count p l2)%nat.
Proof. unfold count. rewrite filter_app, length_app. reflexivity. Qed.

Lemma count_perm p l l' : Permutation l l' -> count p l = count p l'.
Proof.
  induction 1; rewrite ?count_cons; lia.
Qed.

Lemma count_le_length p l : (count p l <= length l)%nat.
Proof. apply filter_length_le. Qed.

Lemma count_ext p q l :
  (forall x, In x l -> p x = q x) -> count p l = count q l.
Proof.
  induction l as [|a l IH]; intros H; [reflexivity|].
  rewrite !count_cons, (H a (or_introl eq_refl)), IH; [reflexivity|].
  intros x Hx. apply H. right. exact Hx.
Qed.

Lemma count_all p l :
  (forall x, In x l -> p x = true) -> count p l = length l.
Proof.
  induction l as [|a l IH]; intros H; [reflexivity|].
  rewrite count_cons, (H a (or_introl eq_refl)), IH; [reflexivity|].
  intros x Hx. apply H. right. exact Hx.
Qed.

Lemma count_none p l :
  (forall x, In x l -> p x = false) -> count p l = 0%nat.
Proof.
  induction l as [|a l IH]; intros H; [reflexivity|].
  rewrite count_cons, (H a (or_introl eq_refl)), IH; [reflexivity|].
  intros x Hx. apply H. right. exact Hx.
Qed.

Lemma count_negb p l : (count (fun x => negb (p x)) l + count p l = length l)%nat.
Proof.
  induction l as [|a l IH]; [reflexivity|].
  rewrite !count_cons. simpl length. destruct (p a); simpl; lia.
Qed.

(** Monotonicity: a predicate that holds more often counts more. *)
Lemma count_le_impl p q l :
  (forall x, In x l -> p x = true -> q x = true) ->
  (count p l <= count q l)%nat.
Proof.
  induction l as [|a l IH]; intros H; [reflexivity|].
  rewrite !count_cons.
  assert (count p l <= count q l)%nat
    by (apply IH; intros x Hx; apply H; right; exact Hx).
  destruct (p a) eqn:Ep; [rewrite (H a (or_introl eq_refl) Ep)|]; lia.
Qed.

(** Pigeonhole: if [p] holds more often than [q], it holds somewhere [q]
    does not. *)
Lemma count_gt_exists p q l :
  (count q l < count p l)%nat ->
  exists x, In x l /\ p x = true /\ q x = false.
Proof.
  induction l as [|a l IH]; [unfold count; simpl; lia|].
  rewrite !count_cons. intro H.
  destruct (p a) eqn:Ep, (q a) eqn:Eq;
    try (exists a; repeat split; [left; reflexivity|assumption|assumption]);
    (destruct IH as (x & Hx & Hpx & Hqx); [lia|];
     exists x; repeat split; [right; exact Hx|assumption|assumption]).
Qed.

End Count.

Lemma count_map (A B : Type) (p : B -> bool) (f : A -> B) l :
  count p (map f l) = count (fun x => p (f x)) l.
Proof.
  induction l as [|a l IH]; [reflexivity|].
  simpl map. rewrite !count_cons, IH. reflexivity.
Qed.

(** Every entry is below, at or above a given value. *)
Lemma count_trichotomy t l :
  length l =
  (count (fun x => Qltb x t) l + count (Qeq_bool t) l
   + count (fun x => Qltb t x) l)%nat.
Proof.
  induction l as [|a l IH]; [reflexivity|].
  rewrite !count_cons. simpl length.
  destruct (Q_dec a t) as [[Hlt|Hgt]|Heq].
  - assert (E1 : Qltb a t = true) by (apply Qltb_lt; exact Hlt).
    assert (E2 : Qeq_bool t a = false).
    { destruct (Qeq_bool t a) eqn:E; [|reflexivity].
      apply Qeq_bool_iff in E. rewrite E in Hlt.
      exfalso. apply (Qlt_irrefl _ Hlt). }
    assert (E3 : Qltb t a = false) by (apply Qltb_ge, Qlt_le_weak; exact Hlt).
    rewrite E1, E2, E3. lia.
  - assert (E1 : Qltb a t = false) by (apply Qltb_ge, Qlt_le_weak; exact Hgt).
    assert (E2 : Qeq_bool t a = false).
    { destruct (Qeq_bool t a) eqn:E; [|reflexivity].
      apply Qeq_bool_iff in E. rewrite E in Hgt.
      exfalso. apply (Qlt_irrefl _ Hgt). }
    assert (E3 : Qltb t a = true) by (apply Qltb_lt; exact Hgt).
    rewrite E1, E2, E3. lia.
  - assert (E1 : Qltb a t = false) by (apply Qltb_ge; rewrite Heq; apply Qle_refl).
    assert (E2 : Qeq_bool t a = true) by (apply Qeq_bool_iff; symmetry; exact Heq).
    assert (E3 : Qltb t a = false) by (apply Qltb_ge; rewrite Heq; apply Qle_refl).
    rewrite E1, E2, E3. lia.
Qed.

Lemma count_le_split t l :
  count (fun x => Qle_bool x t) l =
  (count (fun x => Qltb x t) l + count (Qeq_bool t) l)%nat.
Proof.
  induction l as [|a l IH]; [reflexivity|].
  rewrite !count_cons, IH.
  destruct (Q_dec a t) as [[Hlt|Hgt]|Heq].
  - assert (E1 : Qltb a t = true) by (apply Qltb_lt; exact Hlt).
    assert (E2 : Qeq_bool t a = false).
    { destruct (Qeq_bool t a) eqn:E; [|reflexivity].
      apply Qeq_bool_iff in E. rewrite E in Hlt.
      exfalso. apply (Qlt_irrefl _ Hlt). }
    assert (E3 : Qle_bool a t = true) by (apply Qle_bool_iff, Qlt_le_weak; exact Hlt).
    rewrite E1, E2, E3. lia.
  - assert (E1 : Qltb a t = false) by (apply Qltb_ge, Qlt_le_weak; exact Hgt).
    assert (E2 : Qeq_bool t a = false).
    { destruct (Qeq_bool t a) eqn:E; [|reflexivity].
      apply Qeq_bool_iff in E. rewrite E in Hgt.
      exfalso. apply (Qlt_irrefl _ Hgt). }
    assert (E3 : Qle_bool a t = false).
    { destruct (Qle_bool a t) eqn:E; [|reflexivity].
      apply Qle_bool_iff in E. exfalso. apply (Qlt_not_le _ _ Hgt E). }
    rewrite E1, E2, E3. lia.
  - assert (E1 : Qltb a t = false) by (apply Qltb_ge; rewrite Heq; apply Qle_refl).
    assert (E2 : Qeq_bool t a = true) by (apply Qeq_bool_iff; symmetry; exact Heq).
    assert (E3 : Qle_bool a t = true) by (apply Qle_bool_iff; rewrite Heq; apply Qle_refl).
    rewrite E1, E2, E3. lia.
Qed.

(** ** [torch_sort] sorts *)

Lemma place_perm x l : Permutation (place x l) (x :: l).
Proof.
  induction l as [|y r IH]; simpl; [reflexivity|].
  destruct (Qle_bool x y); [reflexivity|].
  rewrite IH. apply perm_swap.
Qed.

Lemma torch_sort_perm l : Permutation (torch_sort l) l.
Proof.
  induction l as [|x l IH]; simpl; [reflexivity|].
  rewrite place_perm. constructor. exact IH.
Qed.

Lemma torch_sort_length l : length (torch_sort l) = length l.
Proof. apply Permutation_length, torch_sort_perm. Qed.

Lemma place_sorted x l :
  StronglySorted Qle l -> StronglySorted Qle (place x l).
Proof.
  induction 1 as [|y r Hs IH Hall]; simpl.
  - constructor; constructor.
  - destruct (Qle_bool x y) eqn:E.
    + apply Qle_bool_iff in E. constructor.
      * constructor; assumption.
      * constructor; [exact E|].
        eapply Forall_impl; [|exact Hall].
        intros z Hz. eapply Qle_trans; eassumption.
    + constructor; [exact IH|].
      assert (Hyx : y <= x).
      { apply Qlt_le_weak, Qltb_lt. unfold Qltb. rewrite E. reflexivity. }
      eapply Permutation_Forall.
      * symmetry. apply place_perm.
      * constructor; assumption.
Qed.

Lemma torch_sort_sorted l : StronglySorted Qle (torch_sort l).
Proof.
  induction l as [|x l IH]; simpl; [constructor|].
  apply place_sorted, IH.
Qed.

(** ** Ranks in a sorted list *)

(** Fewer than [p + 1] entries are strictly below the entry of rank [p]. *)
Lemma rank_below s : StronglySorted Qle s -> forall p, (p < length s)%nat ->
  (count (fun x => Qltb x (nth p s 0%Q)) s <= p)%nat.
Proof.
  induction 1 as [|a s Hs IH Hall]; intros p Hp; simpl in Hp; [lia|].
  destruct p as [|p]; simpl nth.
  - rewrite count_none; [lia|].
    intros x [<-|Hx].
    + apply Qltb_ge, Qle_refl.
    + apply Qltb_ge. rewrite Forall_forall in Hall. apply Hall, Hx.
  - rewrite count_cons.
    assert (count (fun x => Qltb x (nth p s 0%Q)) s <= p)%nat
      by (apply IH; lia).
    destruct (Qltb a (nth p s 0%Q)); lia.
Qed.

(** At least [p + 1] entries are at most the entry of rank [p]. *)
Lemma rank_upto s : StronglySorted Qle s -> forall p, (p < length s)%nat ->
  (p < count (fun x => Qle_bool x (nth p s 0%Q)) s)%nat.
Proof.
  induction 1 as [|a s Hs IH Hall]; intros p Hp; simpl in Hp; [lia|].
  destruct p as [|p]; simpl nth; rewrite count_cons.
  - replace (Qle_bool a a) with true; [lia|].
    symmetry. apply Qle_bool_iff, Qle_refl.
  - assert (E : Qle_bool a (nth p s 0%Q) = true).
    { apply Qle_bool_iff. rewrite Forall_forall in Hall.
      apply Hall, nth_In. lia. }
    rewrite E.
    assert (p < count (fun x => Qle_bool x (nth p s 0%Q)) s)%nat
      by (apply IH; lia).
    lia.
Qed.

(** When the entry of rank [p] occurs once, exactly the [length s - p - 1]
    entries after it are strictly above it. *)
Lemma count_above_rank s p :
  StronglySorted Qle s -> (p < length s)%nat ->
  count (Qeq_bool (nth p s 0%Q)) s = 1%nat ->
  count (fun x => Qltb (nth p s 0%Q) x) s = (length s - p - 1)%nat.
Proof.
  intros Hs Hp Hone.
  pose proof (rank_below s Hs p Hp) as Hb.
  pose proof (rank_upto s Hs p Hp) as Hu.
  rewrite count_le_split, Hone in Hu.
  pose proof (count_trichotomy (nth p s 0%Q) s) as Ht.
  rewrite Hone in Ht. lia.
Qed.

(** Among pairwise distinct values, each one occurs once. *)
Lemma nodup_count_one l :
  NoDupA Qeq l -> forall t, In t l -> count (Qeq_bool t) l = 1%nat.
Proof.
  induction 1 as [|a l Hnotin Hnd IH]; intros t Hin; [destruct Hin|].
  rewrite count_cons. destruct Hin as [->|Hin].
  - replace (Qeq_bool t t) with true
      by (symmetry; apply Qeq_bool_iff; reflexivity).
    rewrite count_none; [reflexivity|].
    intros x Hx. destruct (Qeq_bool t x) eqn:E; [|reflexivity].
    exfalso. apply Hnotin. apply Qeq_bool_iff in E.
    apply InA_alt. exists x. split; assumption.
  - rewrite (IH t Hin).
    destruct (Qeq_bool t a) eqn:E; [|reflexivity].
    exfalso. apply Hnotin. apply Qeq_bool_iff in E.
    apply InA_alt. exists t. split; [symmetry; exact E|exact Hin].
Qed.

(** ** Truncation and indexing *)

Lemma py_int_nonneg x : 0 <= x -> py_int x = Qfloor x.
Proof.
  destruct x as [a b]. unfold Qle, py_int, Qfloor. simpl. intro H.
  apply Z.quot_div_nonneg; lia.
Qed.

Lemma position_in_range n idx :
  (0 <= idx < Z.of_nat n)%Z -> position n idx = Ok (Z.to_nat idx).
Proof.
  intros [H0 H1]. unfold position.
  apply Z.leb_le in H0. apply Z.ltb_lt in H1. rewrite H0, H1. reflexivity.
Qed.

Lemma position_ok_lt n idx p : position n idx = Ok p -> (p < n)%nat.
Proof.
  unfold position.
  destruct ((0 <=? idx) && (idx <? Z.of_nat n))%Z eqn:E1.
  - apply andb_prop in E1. destruct E1 as [A B].
    apply Z.leb_le in A. apply Z.ltb_lt in B. intros [= <-]. lia.
  - destruct ((- Z.of_nat n <=? idx) && (idx <? 0))%Z eqn:E2; [|discriminate].
    apply andb_prop in E2. destruct E2 as [A B].
    apply Z.leb_le in A. apply Z.ltb_lt in B. intros [= <-]. lia.
Qed.

(** For a fraction in [[0, 1)] the rank index [int(f * n)] is
    [floor(f * n)] and lies inside a population of [n > 0]. *)
Lemma rank_index_in_range f n :
  (0 < n)%nat -> 0 <= f -> f < 1 ->
  py_int (f * of_nat n) = Qfloor (f * of_nat n) /\
  (0 <= Qfloor (f * of_nat n) < Z.of_nat n)%Z.
Proof.
  intros Hn H0 H1.
  assert (Hn' : 0 < of_nat n).
  { unfold of_nat. rewrite <- (Zlt_Qlt 0). lia. }
  assert (Hx0 : 0 <= f * of_nat n).
  { apply Qmult_le_0_compat; [exact H0|apply Qlt_le_weak, Hn']. }
  assert (Hx1 : f * of_nat n < of_nat n).
  { setoid_replace (of_nat n) with (1 * of_nat n) at 2 by ring.
    apply Qmult_lt_compat_r; assumption. }
  split; [apply py_int_nonneg, Hx0|]. split.
  - rewrite <- (Qfloor_Z 0). apply Qfloor_resp_le, Hx0.
  - rewrite Zlt_Qlt. eapply Qle_lt_trans; [apply Qfloor_le|exact Hx1].
Qed.

(** ** Rounding to a float *)

(** Rounding to an integer moves a number by at most one half. *)
Lemma rint_error y : - (1 # 2) <= inject_Z (rint y) - y <= 1 # 2.
Proof.
  unfold rint.
  pose proof (Qfloor_le y) as Hl. pose proof (Qlt_floor y) as Hu.
  rewrite inject_Z_plus in Hu. change (inject_Z 1) with 1 in Hu.
  destruct (Qltb (y - inject_Z (Qfloor y)) (1 # 2)) eqn:E1.
  - apply Qltb_lt in E1. split; Lqa.lra.
  - apply Qltb_ge in E1.
    destruct (Qltb (1 # 2) (y - inject_Z (Qfloor y))) eqn:E2.
    + rewrite inject_Z_plus. change (inject_Z 1) with 1. split; Lqa.lra.
    + apply Qltb_ge in E2.
      destruct (Z.even (Qfloor y)); rewrite ?inject_Z_plus;
        change (inject_Z 1) with 1; split; Lqa.lra.
Qed.

Lemma pow2_pos z : 0 < 2 ^ z.
Proof. apply Qpower_0_lt. reflexivity. Qed.

Lemma pow2_add a b : 2 ^ (a + b) == 2 ^ a * 2 ^ b.
Proof. apply Qpower_plus. discriminate. Qed.

Lemma pow2_Z z : (0 <= z)%Z -> 2 ^ z == inject_Z (2 ^ z).
Proof. intro H. rewrite Zpower_Qpower by exact H. reflexivity. Qed.

(** [ilog2] is the exponent of the binade. *)
Lemma ilog2_bounds x : ~ x == 0 ->
  2 ^ ilog2 x <= Qabs x /\ Qabs x < 2 ^ (ilog2 x + 1).
Proof.
  intro Hx. unfold ilog2.
  set (a := Z.abs (Qnum x)). set (b := Zpos (Qden x)).
  assert (Ha : (0 < a)%Z).
  { unfold a. destruct x as [[|p|p] d]; simpl; try lia.
    exfalso. apply Hx. reflexivity. }
  assert (Hb : (0 < b)%Z) by (unfold b; lia).
  assert (Eabs : Qabs x == inject_Z a / inject_Z b).
  { destruct x as [n d]. unfold Qabs, a, b. simpl. apply Qmake_Qdiv. }
  destruct (Z.log2_spec a Ha) as [La Ua].
  destruct (Z.log2_spec b Hb) as [Lb Ub].
  pose proof (Z.log2_nonneg a) as Na. pose proof (Z.log2_nonneg b) as Nb.
  set (la := Z.log2 a) in *. set (lb := Z.log2 b) in *.
  assert (QLa : 2 ^ la <= inject_Z a)
    by (rewrite pow2_Z, <- Zle_Qle; assumption).
  assert (QUa : inject_Z a < 2 ^ (la + 1)).
  { rewrite pow2_Z, <- Zlt_Qlt by lia. exact Ua. }
  assert (QLb : 2 ^ lb <= inject_Z b)
    by (rewrite pow2_Z, <- Zle_Qle; assumption).
  assert (QUb : inject_Z b < 2 ^ (lb + 1)).
  { rewrite pow2_Z, <- Zlt_Qlt by lia. exact Ub. }
  assert (Qb : 0 < inject_Z b) by (rewrite <- (Zlt_Qlt 0); exact Hb).
  assert (Qa : 0 < inject_Z a) by (rewrite <- (Zlt_Qlt 0); exact Ha).
  pose proof (pow2_pos la) as Pla. pose proof (pow2_pos lb) as Plb.
  destruct (Qle_bool (2 ^ (la - lb)) (Qabs x)) eqn:E.
  - apply Qle_bool_iff in E. split; [exact E|].
    rewrite Eabs. apply Qlt_shift_div_r; [exact Qb|].
    replace (la - lb + 1)%Z with ((la + 1) + - lb)%Z by ring.
    rewrite pow2_add, Qpower_opp.
    apply Qlt_le_trans with (2 ^ (la + 1)); [exact QUa|].
    rewrite <- Qmult_assoc.
    setoid_replace (2 ^ (la + 1)) with (2 ^ (la + 1) * 1) at 1 by ring.
    apply Qmult_le_l; [apply pow2_pos|].
    rewrite Qmult_comm.
    apply Qle_shift_div_l; [exact Plb|]. Lqa.lra.
  - assert (E' : Qabs x < 2 ^ (la - lb)).
    { apply Qnot_le_lt. intro C. apply Qle_bool_iff in C. congruence. }
    split.
    + rewrite Eabs. apply Qle_shift_div_l; [exact Qb|].
      replace (la - lb - 1)%Z with (la + - (lb + 1))%Z by ring.
      rewrite pow2_add, Qpower_opp.
      apply Qle_trans with (2 ^ la); [|exact QLa].
      rewrite <- Qmult_assoc.
      setoid_replace (2 ^ la) with (2 ^ la * 1) at 2 by ring.
      apply Qmult_le_l; [exact Pla|].
      rewrite Qmult_comm. apply Qle_shift_div_r; [apply pow2_pos|]. Lqa.lra.
    + replace (la - lb - 1 + 1)%Z with (la - lb)%Z by ring. exact E'.
Qed.

Lemma rint_comp x y : x == y -> rint x = rint y.
Proof.
  intro E. unfold rint, Qltb. rewrite (Qfloor_comp _ _ E).
  rewrite !E. reflexivity.
Qed.

Lemma rint_integer x (z : Z) : x == inject_Z z -> rint x = z.
Proof.
  intro E. rewrite (rint_comp _ _ E). unfold rint. rewrite Qfloor_Z.
  assert (R : inject_Z z - inject_Z z == 0) by ring.
  assert (T : Qltb (inject_Z z - inject_Z z) (1 # 2) = true).
  { apply Qltb_lt. rewrite R. reflexivity. }
  rewrite T. reflexivity.
Qed.

(** The exponent of a binade is unique. *)
Lemma binade_unique x e e' :
  2 ^ e <= x -> x < 2 ^ (e + 1) -> 2 ^ e' <= x -> x < 2 ^ (e' + 1) -> e = e'.
Proof.
  intros A B C D.
  assert (H1 : (e < e' + 1)%Z).
  { apply (Qpower_lt_compat_l_inv 2); [|reflexivity].
    eapply Qle_lt_trans; eassumption. }
  assert (H2 : (e' < e + 1)%Z).
  { apply (Qpower_lt_compat_l_inv 2); [|reflexivity].
    eapply Qle_lt_trans; eassumption. }
  lia.
Qed.

Lemma ilog2_comp x y : ~ x == 0 -> x == y -> ilog2 x = ilog2 y.
Proof.
  intros Hx E.
  assert (Hy : ~ y == 0) by (rewrite <- E; exact Hx).
  destruct (ilog2_bounds x Hx) as [A B]. destruct (ilog2_bounds y Hy) as [C D].
  generalize dependent (ilog2 y). intros ey C D.
  rewrite <- E in C. rewrite <- E in D. eapply binade_unique; eassumption.
Qed.

Lemma float_round_zero p x : x == 0 -> float_round p x = 0.
Proof.
  intro E. unfold float_round. apply Qeq_bool_iff in E. rewrite E. reflexivity.
Qed.

Lemma float_round_eq p x : ~ x == 0 ->
  float_round p x
  == inject_Z (rint (x / 2 ^ (ilog2 x - p + 1))) * 2 ^ (ilog2 x - p + 1).
Proof.
  intro Hx. unfold float_round.
  destruct (Qeq_bool x 0) eqn:E.
  - apply Qeq_bool_iff in E. contradiction.
  - apply Qred_correct.
Qed.

Lemma float_round_comp p x y : x == y -> float_round p x = float_round p y.
Proof.
  intro E. unfold float_round.
  destruct (Qeq_bool x 0) eqn:Ex; destruct (Qeq_bool y 0) eqn:Ey.
  - reflexivity.
  - apply Qeq_bool_iff in Ex. rewrite E in Ex. apply Qeq_bool_iff in Ex.
    congruence.
  - apply Qeq_bool_iff in Ey. rewrite <- E in Ey. apply Qeq_bool_iff in Ey.
    congruence.
  - assert (Hx : ~ x == 0) by (intro C; apply Qeq_bool_iff in C; congruence).
    rewrite (ilog2_comp x y Hx E).
    apply Qred_complete.
    rewrite (rint_comp (x / 2 ^ (ilog2 y - p + 1)) (y / 2 ^ (ilog2 y - p + 1))).
    + reflexivity.
    + rewrite E. reflexivity.
Qed.

(** Rounding to [p] bits moves a number by at most half a unit in the last
    place, which is at most [2^-p] of its magnitude. *)
Lemma float_round_error p x :
  Qabs (float_round p x - x) <= Qabs x * 2 ^ (- p).
Proof.
  destruct (Qeq_dec x 0) as [E|Hx].
  - rewrite (float_round_zero p x E), E. 
    assert (R : Qabs (0 - 0) == 0) by reflexivity. rewrite R.
    apply Qmult_le_0_compat; [apply Qabs_nonneg|apply Qlt_le_weak, pow2_pos].
  - rewrite (float_round_eq p x Hx).
    destruct (ilog2_bounds x Hx) as [Hl _].
    set (e := ilog2 x) in *. set (u := 2 ^ (e - p + 1)).
    assert (Hu : 0 < u) by apply pow2_pos.
    pose proof (rint_error (x / u)) as [R1 R2].
    set (M := inject_Z (rint (x / u))) in *.
    assert (Ex : M * u - x == (M - x / u) * u) by (field; Lqa.lra).
    assert (Eu : u == 2 * (2 ^ e * 2 ^ (- p))).
    { unfold u. replace (e - p + 1)%Z with (1 + (e + - p))%Z by ring.
      rewrite !pow2_add. reflexivity. }
    pose proof (pow2_pos (- p)) as Hp.
    assert (Hb : Qabs (M * u - x) <= (1 # 2) * u).
    { rewrite Ex, Qabs_Qmult, (Qabs_pos u) by (apply Qlt_le_weak, Hu).
      apply Qmult_le_compat_r; [|apply Qlt_le_weak, Hu].
      apply Qabs_Qle_condition. split; assumption. }
    eapply Qle_trans; [exact Hb|]. rewrite Eu.
    setoid_replace ((1 # 2) * (2 * (2 ^ e * 2 ^ (- p))))
      with (2 ^ e * 2 ^ (- p)) by ring.
    apply Qmult_le_compat_r; [exact Hl|apply Qlt_le_weak, Hp].
Qed.

Lemma rint_nonneg y : 0 <= y -> (0 <= rint y)%Z.
Proof.
  intro H. unfold rint.
  assert (F : (0 <= Qfloor y)%Z).
  { rewrite <- (Qfloor_Z 0). apply Qfloor_resp_le, H. }
  destruct (Qltb _ _); [exact F|].
  destruct (Qltb _ _); [lia|]. destruct (Z.even _); lia.
Qed.

Lemma float_round_nonneg p x : 0 <= x -> 0 <= float_round p x.
Proof.
  intro H. destruct (Qeq_dec x 0) as [E|Hx].
  - rewrite (float_round_zero p x E). discriminate.
  - rewrite (float_round_eq p x Hx).
    apply Qmult_le_0_compat; [|apply Qlt_le_weak, pow2_pos].
    rewrite <- (Zle_Qle 0). apply rint_nonneg.
    apply Qle_shift_div_l; [apply pow2_pos|]. Lqa.lra.
Qed.

(** Integers of fewer than [p] bits are floats of precision [p]. *)
Lemma float_round_integer p (z : Z) :
  (0 <= z < 2 ^ p)%Z -> float_round p (inject_Z z) == inject_Z z.
Proof.
  intros [H0 H1].
  destruct (Z.eq_dec z 0) as [->|Hz].
  { rewrite (float_round_zero p (inject_Z 0)); reflexivity. }
  assert (Hp : (0 <= p)%Z).
  { destruct (Z.lt_ge_cases p 0) as [C|C]; [|exact C].
    rewrite (Z.pow_neg_r 2 p C) in H1. lia. }
  assert (Hx : ~ inject_Z z == 0).
  { intro C. apply Hz. apply inject_Z_injective. exact C. }
  rewrite (float_round_eq p _ Hx).
  destruct (ilog2_bounds _ Hx) as [Hl _].
  set (e := ilog2 (inject_Z z)) in *.
  assert (He : (e < p)%Z).
  { apply (Qpower_lt_compat_l_inv 2); [|reflexivity].
    eapply Qle_lt_trans; [exact Hl|].
    rewrite Qabs_pos by (rewrite <- (Zle_Qle 0); exact H0).
    rewrite pow2_Z by exact Hp. rewrite <- Zlt_Qlt. exact H1. }
  set (j := (p - 1 - e)%Z).
  replace (e - p + 1)%Z with (- j)%Z by (unfold j; ring).
  assert (Hj : (0 <= j)%Z) by (unfold j; lia).
  pose proof (pow2_pos j) as Pj.
  assert (Ed : inject_Z z / 2 ^ (- j) == inject_Z (z * 2 ^ j)).
  { rewrite Qpower_opp, inject_Z_mult, <- pow2_Z by exact Hj.
    field. Lqa.lra. }
  rewrite (rint_integer _ _ Ed).
  rewrite Qpower_opp, inject_Z_mult, <- pow2_Z by exact Hj.
  field. Lqa.lra.
Qed.

Lemma pow2_neg_le_quarter p : (2 <= p)%Z -> 2 ^ (- p) <= 1 # 4.
Proof.
  intro H. change (1 # 4) with (2 ^ (- (2))).
  apply Qpower_le_compat_l; [lia|discriminate].
Qed.

(** A float below 1 is at most the largest float below 1. *)
Lemma float_round_below_one p f :
  (2 <= p)%Z -> 0 <= f -> float_round p f < 1 ->
  float_round p f <= 1 - 2 ^ (- p).
Proof.
  intros Hp H0 H1.
  pose proof (pow2_neg_le_quarter p Hp) as Hq.
  pose proof (pow2_pos (- p)) as Hpos.
  destruct (Qeq_dec f 0) as [E|Hx].
  { rewrite (float_round_zero p f E). Lqa.lra. }
  destruct (ilog2_bounds f Hx) as [Hl Hu].
  rewrite (Qabs_pos f H0) in Hl, Hu.
  pose proof (float_round_error p f) as Herr.
  rewrite (Qabs_pos f H0) in Herr. apply Qabs_Qle_condition in Herr.
  destruct Herr as [_ Herr].
  rewrite (float_round_eq p f Hx) in *.
  set (e := ilog2 f) in *.
  destruct (Z_lt_le_dec e (- 1)) as [Ce|Ce].
  - (* below 1/2 *)
    assert (Hh : 2 ^ (e + 1) <= 1 # 2).
    { change (1 # 2) with (2 ^ (- (1))).
      apply Qpower_le_compat_l; [lia|discriminate]. }
    assert (f * 2 ^ (- p) <= (1 # 2) * (1 # 4)).
    { apply Qmult_le_compat_nonneg; split; Lqa.lra. }
    Lqa.lra.
  - destruct (Z.eq_dec e (- 1)) as [Ee|Ne].
    + rewrite Ee in *.
      replace (- 1 - p + 1)%Z with (- p)%Z in * by ring.
      set (M := rint (f / 2 ^ (- p))) in *.
      assert (HM : (M < 2 ^ p)%Z).
      { rewrite Zlt_Qlt, <- pow2_Z by lia.
        apply Qlt_shift_div_l with (c := 2 ^ (- p)) in H1; [|exact Hpos].
        assert (R : 2 ^ p * 2 ^ (- p) == 1).
        { rewrite <- pow2_add. replace (p + - p)%Z with 0%Z by ring.
          reflexivity. }
        unfold Qdiv in H1. rewrite Qpower_opp in H1.
        rewrite Qinv_involutive in H1. Lqa.lra. }
      assert (HM' : inject_Z M <= 2 ^ p - 1).
      { assert (A : inject_Z M <= inject_Z (2 ^ p + - 1)).
        { rewrite <- Zle_Qle. lia. }
        rewrite inject_Z_plus, <- pow2_Z in A by lia.
        change (inject_Z (- 1)) with (- (1)) in A. Lqa.lra. }
      assert (R : 2 ^ p * 2 ^ (- p) == 1).
      { rewrite <- pow2_add. replace (p + - p)%Z with 0%Z by ring.
        reflexivity. }
      assert (inject_Z M * 2 ^ (- p) <= (2 ^ p - 1) * 2 ^ (- p)).
      { apply Qmult_le_compat_r; [exact HM'|Lqa.lra]. }
      Lqa.lra.
    + (* at least 1: the rounded value is at least 1 as well *)
      exfalso.
      assert (He : (0 <= e)%Z) by lia.
      set (u := 2 ^ (e - p + 1)) in *.
      assert (Pu : 0 < u) by apply pow2_pos.
      pose proof (rint_error (f / u)) as [R1 _].
      set (M := rint (f / u)) in *.
      assert (Eu : 2 ^ (p - 1) * u == 2 ^ e).
      { unfold u. rewrite <- pow2_add.
        replace (p - 1 + (e - p + 1))%Z with e by ring. reflexivity. }
      assert (Hdiv : 2 ^ (p - 1) <= f / u).
      { apply Qle_shift_div_l; [exact Pu|]. rewrite Eu. exact Hl. }
      assert (HM : (2 ^ (p - 1) <= M)%Z).
      { assert (A : inject_Z (2 ^ (p - 1) + - 1) < inject_Z M).
        { rewrite inject_Z_plus, <- pow2_Z by lia.
          change (inject_Z (- 1)) with (- (1)). Lqa.lra. }
        rewrite <- Zlt_Qlt in A. lia. }
      assert (HQ : 2 ^ (p - 1) <= inject_Z M).
      { rewrite pow2_Z by lia. rewrite <- Zle_Qle. exact HM. }
      assert (G : 2 ^ e <= inject_Z M * u).
      { rewrite <- Eu. apply Qmult_le_compat_r; [exact HQ|Lqa.lra]. }
      assert (One : 1 <= 2 ^ e).
      { change 1 with (2 ^ 0).
        apply Qpower_le_compat_l; [exact He|discriminate]. }
      Lqa.lra.
Qed.

(** For a fraction that is below 1 as a float, and a population that is
    exact as a float, the rank index [int(f * n)] lies inside the
    population. *)
Lemma float_rank_in_range f n :
  0 <= f -> float64 f < 1 -> (0 < n)%nat -> (Z.of_nat n < 2 ^ 53)%Z ->
  (0 <= py_int (float_mul f (of_nat n)) < Z.of_nat n)%Z.
Proof.
  intros H0 H1 Hn Hbig. unfold float_mul, float64 in *.
  pose proof (float_round_nonneg 53 f H0) as G0.
  pose proof (float_round_below_one 53 f ltac:(lia) H0 H1) as G1.
  set (g := float_round 53 f) in *.
  assert (En : float_round 53 (of_nat n) == of_nat n).
  { apply float_round_integer. lia. }
  rewrite (float_round_comp 53 _ (g * of_nat n))
    by (rewrite En; reflexivity).
  assert (Hn' : 0 < of_nat n).
  { unfold of_nat. rewrite <- (Zlt_Qlt 0). lia. }
  set (N := of_nat n) in *.
  assert (Hx0 : 0 <= g * N).
  { apply Qmult_le_0_compat; Lqa.lra. }
  pose proof (float_round_nonneg 53 _ Hx0) as F0.
  pose proof (float_round_error 53 (g * N)) as Herr.
  rewrite (Qabs_pos _ Hx0) in Herr. apply Qabs_Qle_condition in Herr.
  destruct Herr as [_ Herr].
  set (u := 2 ^ (- (53))) in *.
  assert (Hu : 0 < u) by apply pow2_pos.
  assert (Hu1 : u < 1) by reflexivity.
  assert (Hx1 : g * N <= (1 - u) * N).
  { apply Qmult_le_compat_r; Lqa.lra. }
  assert (Hx2 : g * N * u <= (1 - u) * N * u).
  { apply Qmult_le_compat_r; Lqa.lra. }
  assert (Hlt : float_round 53 (g * N) < N).
  { assert (P : 0 < u * u * N).
    { apply Qmult_lt_0_compat; [apply Qmult_lt_0_compat|]; assumption. }
    assert (R : (1 - u) * N + (1 - u) * N * u == N - u * u * N) by ring.
    Lqa.lra. }
  rewrite (py_int_nonneg _ F0). split.
  - rewrite <- (Qfloor_Z 0). apply Qfloor_resp_le, F0.
  - rewrite Zlt_Qlt. eapply Qle_lt_trans; [apply Qfloor_le|exact Hlt].
Qed.

Lemma rint_mono a b : a <= b -> (rint a <= rint b)%Z.
Proof.
  intro H. destruct (Qeq_dec a b) as [E|N].
  - rewrite (rint_comp _ _ E). lia.
  - assert (Hlt : a < b).
    { apply Qnot_le_lt. intro C. apply N. apply Qle_antisym; assumption. }
    destruct (Z_lt_le_dec (rint b) (rint a)) as [C|C]; [exfalso|exact C].
    assert (C' : inject_Z (rint b + 1) <= inject_Z (rint a)).
    { rewrite <- Zle_Qle. lia. }
    rewrite inject_Z_plus in C'. change (inject_Z 1) with 1 in C'.
    pose proof (rint_error a) as [_ A]. pose proof (rint_error b) as [B _].
    Lqa.lra.
Qed.

(** A rounded number stays in the closure of its binade. *)
Lemma float_round_binade p x :
  (1 <= p)%Z -> 0 < x ->
  2 ^ ilog2 x <= float_round p x <= 2 ^ (ilog2 x + 1).
Proof.
  intros Hp Hpos.
  assert (Hx : ~ x == 0) by (intro C; rewrite C in Hpos; discriminate).
  destruct (ilog2_bounds x Hx) as [Hl Hu].
  rewrite (Qabs_pos x) in Hl, Hu by (apply Qlt_le_weak, Hpos).
  rewrite (float_round_eq p x Hx).
  set (e := ilog2 x) in *. set (u := 2 ^ (e - p + 1)) in *.
  assert (Pu : 0 < u) by apply pow2_pos.
  pose proof (rint_error (x / u)) as [R1 R2].
  set (M := rint (x / u)) in *.
  assert (Eu : 2 ^ (p - 1) * u == 2 ^ e).
  { unfold u. rewrite <- pow2_add.
    replace (p - 1 + (e - p + 1))%Z with e by ring. reflexivity. }
  assert (Eu' : 2 ^ p * u == 2 ^ (e + 1)).
  { unfold u. rewrite <- pow2_add.
    replace (p + (e - p + 1))%Z with (e + 1)%Z by ring. reflexivity. }
  assert (Hdl : 2 ^ (p - 1) <= x / u).
  { apply Qle_shift_div_l; [exact Pu|]. rewrite Eu. exact Hl. }
  assert (Hdu : x / u < 2 ^ p).
  { apply Qlt_shift_div_r; [exact Pu|]. rewrite Eu'. exact Hu. }
  split.
  - assert (HM : (2 ^ (p - 1) <= M)%Z).
    { assert (A : inject_Z (2 ^ (p - 1) + - 1) < inject_Z M).
      { rewrite inject_Z_plus, <- pow2_Z by lia.
        change (inject_Z (- 1)) with (- (1)). Lqa.lra. }
      rewrite <- Zlt_Qlt in A. lia. }
    assert (HQ : 2 ^ (p - 1) <= inject_Z M).
    { rewrite pow2_Z by lia. rewrite <- Zle_Qle. exact HM. }
    rewrite <- Eu. apply Qmult_le_compat_r; [exact HQ|Lqa.lra].
  - assert (HM : (M <= 2 ^ p)%Z).
    { assert (A : inject_Z M < inject_Z (2 ^ p + 1)).
      { rewrite inject_Z_plus, <- pow2_Z by lia.
        change (inject_Z 1) with 1. Lqa.lra. }
      rewrite <- Zlt_Qlt in A. lia. }
    assert (HQ : inject_Z M <= 2 ^ p).
    { rewrite pow2_Z by lia. rewrite <- Zle_Qle. exact HM. }
    rewrite <- Eu'. apply Qmult_le_compat_r; [exact HQ|Lqa.lra].
Qed.

(** Rounding is monotone. *)
Lemma float_round_mono p x y :
  (1 <= p)%Z -> 0 <= x -> x <= y -> float_round p x <= float_round p y.
Proof.
  intros Hp H0 Hxy.
  destruct (Qeq_dec x 0) as [E|Hx].
  { rewrite (float_round_zero p x E). apply float_round_nonneg. Lqa.lra. }
  assert (Px : 0 < x).
  { apply Qnot_le_lt. intro C. apply Hx. apply Qle_antisym; assumption. }
  assert (Py : 0 < y) by Lqa.lra.
  assert (Hy : ~ y == 0) by (intro C; rewrite C in Py; discriminate).
  destruct (ilog2_bounds x Hx) as [Lx Ux].
  destruct (ilog2_bounds y Hy) as [Ly Uy].
  rewrite (Qabs_pos x) in Lx, Ux by Lqa.lra.
  rewrite (Qabs_pos y) in Ly, Uy by Lqa.lra.
  assert (Hle : (ilog2 x <= ilog2 y)%Z).
  { assert (A : (ilog2 x < ilog2 y + 1)%Z).
    { apply (Qpower_lt_compat_l_inv 2); [|reflexivity]. Lqa.lra. }
    lia. }
  destruct (Z.eq_dec (ilog2 x) (ilog2 y)) as [Ee|Ne].
  - rewrite (float_round_eq p x Hx), (float_round_eq p y Hy), Ee.
    apply Qmult_le_compat_r; [|apply Qlt_le_weak, pow2_pos].
    rewrite <- Zle_Qle. apply rint_mono.
    apply Qmult_le_compat_r; [exact Hxy|].
    apply Qlt_le_weak, Qinv_lt_0_compat, pow2_pos.
  - destruct (float_round_binade p x Hp Px) as [_ Bx].
    destruct (float_round_binade p y Hp Py) as [By _].
    assert (Hs : 2 ^ (ilog2 x + 1) <= 2 ^ ilog2 y).
    { apply Qpower_le_compat_l; [lia|discriminate]. }
    Lqa.lra.
Qed.

(** For a fraction of at least 1 the rank index reaches past the
    population; it fits a 64-bit integer when [f * n] is at most [2^62]. *)
Lemma float_rank_overflow f n :
  1 <= f -> (Z.of_nat n < 2 ^ 53)%Z -> f * of_nat n <= inject_Z (2 ^ 62) ->
  (Z.of_nat n <= py_int (float_mul f (of_nat n)) < 2 ^ 63)%Z.
Proof.
  intros Hf Hn Hbig. unfold float_mul, float64.
  assert (H0 : 0 <= f) by Lqa.lra.
  assert (G1 : 1 <= float_round 53 f).
  { change 1 with (float_round 53 1) at 1.
    apply float_round_mono; [lia|discriminate|exact Hf]. }
  pose proof (float_round_error 53 f) as Ef.
  rewrite (Qabs_pos f H0) in Ef. apply Qabs_Qle_condition in Ef.
  destruct Ef as [_ Ef].
  set (g := float_round 53 f) in *.
  assert (En : float_round 53 (of_nat n) == of_nat n).
  { apply float_round_integer. lia. }
  rewrite (float_round_comp 53 _ (g * of_nat n))
    by (rewrite En; reflexivity).
  assert (HN : 0 <= of_nat n).
  { unfold of_nat. rewrite <- (Zle_Qle 0). lia. }
  set (N := of_nat n) in *.
  assert (Hx : N <= g * N).
  { setoid_replace N with (1 * N) at 1 by ring.
    apply Qmult_le_compat_r; assumption. }
  assert (Hx0 : 0 <= g * N) by Lqa.lra.
  assert (Hlow : N <= float_round 53 (g * N)).
  { rewrite <- En at 1. apply float_round_mono; [lia|exact HN|exact Hx]. }
  pose proof (float_round_error 53 (g * N)) as Ex.
  rewrite (Qabs_pos _ Hx0) in Ex. apply Qabs_Qle_condition in Ex.
  destruct Ex as [_ Ex].
  assert (Hg : g * N <= (f + f * 2 ^ (- (53))) * N).
  { apply Qmult_le_compat_r; [Lqa.lra|exact HN]. }
  change (2 ^ (- (53))) with (1 # 9007199254740992) in *.
  change (inject_Z (2 ^ 62)) with (4611686018427387904 # 1) in Hbig.
  assert (Hy : (f + f * (1 # 9007199254740992)) * N
               == (1 + (1 # 9007199254740992)) * (f * N)) by ring.
  assert (Hup : float_round 53 (g * N) < inject_Z (2 ^ 63)).
  { change (inject_Z (2 ^ 63)) with (9223372036854775808 # 1).
    clearbody g N. Lqa.lra. }
  assert (F0 : 0 <= float_round 53 (g * N)) by (clearbody g N; Lqa.lra).
  rewrite (py_int_nonneg _ F0). split.
  - rewrite <- (Qfloor_Z (Z.of_nat n)). apply Qfloor_resp_le. exact Hlow.
  - rewrite Zlt_Qlt. eapply Qle_lt_trans; [apply Qfloor_le|exact Hup].
Qed.

(** ** [global_prune] *)

Lemma skipn_nth_cons (A : Type) (d : A) : forall c (l : list A),
  (c < length l)%nat -> skipn c l = nth c l d :: skipn (S c) l.
Proof.
  induction c as [|c IH]; intros [|a l] H; simpl in H; try lia.
  - reflexivity.
  - simpl. rewrite (IH l) by lia. reflexivity.
Qed.

(** The assignment loop hands the masks out in iteration order and leaves
    the weights alone. *)
Lemma assign_masks_spec masks : forall m c,
  (c + length (weights_of m) <= length masks)%nat ->
  masks_of (Pruner.assign_masks m masks c)
    = firstn (length (weights_of m)) (skipn c masks) /\
  weights_of (Pruner.assign_masks m masks c) = weights_of m.
Proof.
  induction m as [|[|w mk] r IH]; intros c Hc; simpl in *.
  - split; reflexivity.
  - apply IH, Hc.
  - destruct (IH (S c)) as [IH1 IH2]; [lia|].
    rewrite IH1, IH2. split; [|reflexivity].
    rewrite (skipn_nth_cons _ mk c masks) by lia. reflexivity.
Qed.

Lemma count_ones_keep_above t w :
  count_ones (Pruner.keep_above t w)
  = count (fun x => Qltb t x) (map Qabs (data w)).
Proof.
  unfold count_ones, Pruner.keep_above. simpl.
  change (length (filter (Qeq_bool 1) ?l)) with (count (Qeq_bool 1) l).
  rewrite !count_map. apply count_ext.
  intros x _. apply Qeq_bool_one_float.
Qed.

Lemma total_ones_keep_above t ws :
  total_ones (map (Pruner.keep_above t) ws)
  = count (fun x => Qltb t x) (map Qabs (concat (map data ws))).
Proof.
  induction ws as [|w ws IH]; [reflexivity|].
  simpl. rewrite map_app, count_app, <- IH, count_ones_keep_above.
  reflexivity.
Qed.

(** The rank index is computed in floats: it is not always the integer part
    of the exact product.  [0.7 * 10] is [7.0] although the float [0.7] is
    below [7/10], and [0.58 * 50] is below [29]. *)
Lemma rank_index_rounds :
  py_int (float_mul (7 # 10) (of_nat 10)) = 7%Z /\
  Qfloor (float64 (7 # 10) * of_nat 10) = 6%Z /\
  py_int (float_mul (58 # 100) (of_nat 50)) = 28%Z /\
  Qfloor ((58 # 100) * of_nat 50) = 29%Z.
Proof. vm_compute. repeat split. Qed.

(** C1, as the code has it: when the threshold value is not tied (in
    particular when all magnitudes are pairwise distinct), the fraction [f]
    lies in [[0, 1)] as a float and the population is small enough for its
    size to be a float (below [2^53]), [global_prune] succeeds.  The rank
    index [idx = int(f * total_count)], computed in floats, lies inside the
    population; the threshold is the magnitude of rank [idx] of the
    concatenated population; exactly the weights with [abs(w) > threshold]
    are kept, and the number of ones over all new masks is
    [total_count - idx - 1]: the weight at the threshold rank is itself
    pruned. *)
Theorem global_prune_kept_count (m : model) (f : Q) :
  let scores := concat (map data (weights_of m)) in
  let total_count := length scores in
  let idx := py_int (float_mul f (of_nat total_count)) in
  let threshold := nth (Z.to_nat idx) (torch_sort (map Qabs scores)) 0 in
  (0 < total_count)%nat -> (Z.of_nat total_count < 2 ^ 53)%Z ->
  0 <= f -> float64 f < 1 ->
  NoDupA Qeq (map Qabs scores)
  \/ count (Qeq_bool threshold) (map Qabs scores) = 1%nat ->
  (0 <= idx < Z.of_nat total_count)%Z /\
  exists m',
    Pruner.global_prune m f = (m', None) /\
    weights_of m' = weights_of m /\
    masks_of m' = map (Pruner.keep_above threshold) (weights_of m) /\
    total_ones (masks_of m') = (total_count - Z.to_nat idx - 1)%nat.
Proof.
  intros scores total_count idx threshold Hn Hbig Hf0 Hf1 Htie.
  assert (Hrange : (0 <= idx < Z.of_nat total_count)%Z)
    by (apply float_rank_in_range; assumption).
  split; [exact Hrange|].
  set (k := Z.to_nat idx) in *.
  assert (Hk : (k < length (torch_sort (map Qabs scores)))%nat).
  { rewrite torch_sort_length, length_map. unfold k. fold total_count. lia. }
  assert (Hone : count (Qeq_bool threshold) (map Qabs scores) = 1%nat).
  { destruct Htie as [Hnd|H]; [|exact H].
    apply nodup_count_one; [exact Hnd|].
    eapply Permutation_in; [apply torch_sort_perm|].
    apply nth_In, Hk. }
  unfold Pruner.global_prune.
  destruct (weights_of m) as [|w0 ws] eqn:Ew.
  { exfalso. unfold total_count, scores in Hn. simpl in Hn. lia. }
  fold scores. fold total_count. fold idx.
  rewrite (position_in_range _ _ Hrange).
  fold k. fold threshold.
  set (masks := map (Pruner.keep_above threshold) (w0 :: ws)).
  destruct (assign_masks_spec masks m 0) as [Hm Hw].
  { unfold masks. rewrite length_map, Ew. simpl. lia. }
  exists (Pruner.assign_masks m masks 0).
  assert (Hmasks : masks_of (Pruner.assign_masks m masks 0) = masks).
  { rewrite Hm, Ew. simpl skipn.
    replace (length (w0 :: ws)) with (length masks)
      by (unfold masks; apply length_map).
    apply firstn_all. }
  split; [reflexivity|]. split; [rewrite Hw; exact Ew|].
  split; [exact Hmasks|].
  rewrite Hmasks. unfold masks. rewrite total_ones_keep_above.
  fold scores.
  rewrite (count_perm _ _ _ (Permutation_sym (torch_sort_perm _))).
  unfold threshold.
  rewrite count_above_rank.
  - rewrite torch_sort_length, length_map. reflexivity.
  - apply torch_sort_sorted.
  - exact Hk.
  - rewrite (count_perm _ _ _ (torch_sort_perm _)). exact Hone.
Qed.

Lemma global_prune_kept_count_witness :
  (0 <= py_int (float_mul (1 # 2) (of_nat 4)) < 4)%Z /\
  exists m',
    Pruner.global_prune four_weights (1 # 2) = (m', None) /\
    weights_of m' = weights_of four_weights /\
    masks_of m' = map (Pruner.keep_above 3) (weights_of four_weights) /\
    total_ones (masks_of m') = 1%nat.
Proof.
  apply (global_prune_kept_count four_weights (1 # 2)).
  - simpl. lia.
  - vm_compute. reflexivity.
  - discriminate.
  - vm_compute. reflexivity.
  - right. vm_compute. reflexivity.
Defined.

(** C1 as stated fails: with four distinct magnitudes and [f = 1/2] the
    claim promises [4 - 2 = 2] kept weights, the code keeps one. *)
Lemma global_prune_kept_count_counterexample :
  let scores := concat (map data (weights_of four_weights)) in
  NoDupA Qeq (map Qabs scores) /\
  length scores = 4%nat /\
  Qfloor ((1 # 2) * of_nat 4) = 2%Z /\
  total_ones (masks_of (fst (Pruner.global_prune four_weights (1 # 2))))
    = 1%nat /\
  total_ones (masks_of (fst (Pruner.global_prune four_weights (1 # 2))))
    <> (4 - Z.to_nat (Qfloor ((1 # 2) * of_nat 4)))%nat.
Proof.
  cbv zeta. split.
  - cbn [four_weights weights_of map data concat app].
    repeat constructor; intro H; inversion H; subst;
      repeat match goal with
             | H : InA _ _ _ |- _ => inversion H; clear H; subst
             | H : _ == _ |- _ => discriminate H
             end.
  - repeat split; try (vm_compute; reflexivity). vm_compute. discriminate.
Qed.

(** ** [prune] on the 4 x 3 example *)

(** C2, as the code has it: after the transposition [w.shape[0]] is 3, so
    the rank index is [int(0.5 * 3) = 1]; the transposed view has four
    columns of three values (one column per output row), and in each of them
    exactly the smallest value is marked 0.  The mask returned is
    [[0,1,1],[0,1,1],[0,1,1],[0,1,1]]. *)
Theorem prune_weight_example (FL : FloatLib) :
  py_int ((1 # 2) * of_nat 3) = 1%Z /\
  prune example_weight (1 # 2) "weight"
    = Ok (Tensor [4%nat; 3%nat] [0; 1; 1; 0; 1; 1; 0; 1; 1; 0; 1; 1]) /\
  transpose 0 3 (chunks 4 3 [0; 1; 1; 0; 1; 1; 0; 1; 1; 0; 1; 1])
    = [[0; 0; 0; 0]; [1; 1; 1; 1]; [1; 1; 1; 1]] /\
  Forall (fun column => count_zeros column = 1%nat)
         (chunks 4 3 [0; 1; 1; 0; 1; 1; 0; 1; 1; 0; 1; 1]).
Proof.
  repeat split; try reflexivity.
  repeat constructor.
Qed.

(** C2 as stated fails: the rank index is 1, not [int(0.5 * 4) = 2]; the
    mask has four zeros, not two in each of three lines of four values; no
    line of four values of the transposed view has two zeros, and no column
    of three values has two. *)
Lemma prune_weight_example_counterexample :
  exists mask,
    prune (FL := rational_lib) example_weight (1 # 2) "weight" = Ok mask /\
    py_int ((1 # 2) * of_nat (numel example_weight / 4)) <> 2%Z /\
    count_zeros (data mask) = 4%nat /\
    Forall (fun line => count_zeros line <> 2%nat)
           (transpose 0 3 (chunks 4 3 (data mask))) /\
    Forall (fun column => count_zeros column <> 2%nat)
           (chunks 4 3 (data mask)).
Proof.
  eexists. split; [reflexivity|].
  repeat split; try discriminate; try reflexivity;
    repeat constructor; discriminate.
Qed.

(** ** Matrices as lists of rows *)

Lemma nth_map_in (A B : Type) (f : A -> B) (l : list A) i d d' :
  (i < length l)%nat -> nth i (map f l) d = f (nth i l d').
Proof.
  intro H. rewrite (nth_indep _ d (f d')) by (rewrite length_map; exact H).
  apply map_nth.
Qed.

Lemma map_nth_seq (A : Type) (d : A) (l : list A) n :
  length l = n -> map (fun j => nth j l d) (seq 0 n) = l.
Proof.
  intros <-. apply (nth_ext _ _ d d).
  - rewrite length_map, length_seq. reflexivity.
  - intros i Hi. rewrite length_map, length_seq in Hi.
    rewrite (nth_map_in _ _ _ _ _ _ 0%nat) by (rewrite length_seq; exact Hi).
    rewrite seq_nth by exact Hi. reflexivity.
Qed.

Section Transpose.

Context {A : Type} (d : A).

Lemma transpose_length nc (m : matrix A) : length (transpose d nc m) = nc.
Proof. unfold transpose. rewrite length_map, length_seq. reflexivity. Qed.

Lemma nth_transpose nc (m : matrix A) j :
  (j < nc)%nat ->
  nth j (transpose d nc m) [] = map (fun row => nth j row d) m.
Proof.
  intro H. unfold transpose.
  rewrite (nth_map_in _ _ _ _ _ _ 0%nat) by (rewrite length_seq; exact H).
  rewrite seq_nth by exact H. reflexivity.
Qed.

Lemma transpose_involutive nr nc (m : matrix A) :
  length m = nr -> Forall (fun row => length row = nc) m ->
  transpose d nr (transpose d nc m) = m.
Proof.
  intros Hr Hc. apply (nth_ext _ _ [] []).
  - rewrite transpose_length. symmetry. exact Hr.
  - intros i Hi. rewrite transpose_length in Hi.
    rewrite nth_transpose by exact Hi.
    unfold transpose. rewrite map_map.
    rewrite (map_ext _ (fun j => nth j (nth i m []) d)).
    + apply map_nth_seq. rewrite Forall_forall in Hc.
      apply Hc, nth_In. lia.
    + intros j.
      apply (nth_map_in _ _ (fun row : list A => nth j row d)). lia.
Qed.

End Transpose.

Lemma transpose_map (f : Q -> Q) d nc (m : matrix Q) :
  transpose (f d) nc (map (map f) m) = map (map f) (transpose d nc m).
Proof.
  unfold transpose. rewrite !map_map. apply map_ext. intros j.
  rewrite !map_map. apply map_ext. intros row. apply map_nth.
Qed.

Lemma transpose_repeat (v : list Q) nc R :
  length v = nc ->
  transpose 0 nc (repeat v R) = map (fun x => repeat x R) v.
Proof.
  intro H. unfold transpose.
  rewrite (map_ext _ (fun j => repeat (nth j v 0) R))
    by (intros j; apply map_repeat).
  rewrite <- (map_map (fun j => nth j v 0) (fun x => repeat x R)).
  rewrite map_nth_seq by exact H. reflexivity.
Qed.

(** ** The rows of a view *)

Lemma chunks_length k n l : length (chunks k n l) = k.
Proof. revert l. induction k; intros l; simpl; [|rewrite IHk]; reflexivity. Qed.

Lemma chunks_rows k n : forall l, length l = (k * n)%nat ->
  Forall (fun row => length row = n) (chunks k n l) /\
  concat (chunks k n l) = l.
Proof.
  induction k as [|k IH]; intros l Hl; simpl in *.
  - split; [constructor|]. destruct l; [reflexivity|discriminate].
  - destruct (IH (skipn n l)) as [IH1 IH2].
    { rewrite length_skipn. lia. }
    split.
    + constructor; [|exact IH1]. rewrite length_firstn. lia.
    + rewrite IH2. apply firstn_skipn.
Qed.

Lemma view_rows_ok w out R rows :
  view_rows w = Ok (out, R, rows) ->
  (0 < out)%nat /\ length (data w) = (out * R)%nat /\
  rows = chunks out R (data w) /\ exists rest, shape w = out :: rest.
Proof.
  unfold view_rows. destruct (shape w) as [|o rest]; [discriminate|].
  destruct (o =? 0)%nat eqn:E0; [discriminate|].
  destruct (numel w mod o =? 0)%nat eqn:E1; simpl; [|discriminate].
  intros [= <- <- <-].
  apply Nat.eqb_neq in E0. apply Nat.eqb_eq in E1. unfold numel in *.
  repeat split; [lia| |exists rest; reflexivity].
  pose proof (Nat.div_mod_eq (length (data w)) o). lia.
Qed.

Lemma view_rows_rect w out R rows :
  view_rows w = Ok (out, R, rows) ->
  length rows = out /\ Forall (fun row => length row = R) rows /\
  concat rows = data w.
Proof.
  intro H. destruct (view_rows_ok _ _ _ _ H) as (_ & Hl & -> & _).
  split; [apply chunks_length|]. apply chunks_rows, Hl.
Qed.

(** A tensor with at least one dimension and at least one entry has a view
    [(out, R)] with [out > 0] and [R > 0]. *)
Lemma view_rows_nonempty w :
  wf_tensor w -> shape w <> [] -> (0 < numel w)%nat ->
  exists out R, view_rows w = Ok (out, R, chunks out R (data w)) /\
                (0 < out)%nat /\ (0 < R)%nat /\ numel w = (out * R)%nat /\
                R = (numel w / out)%nat.
Proof.
  unfold wf_tensor, numel, view_rows. intros Hwf Hs Hn.
  destruct (shape w) as [|o rest]; [congruence|]. simpl in Hwf.
  set (R := fold_right Nat.mul 1%nat rest) in *.
  assert (Ho : (o <> 0)%nat) by (intro; subst o; simpl in Hwf; lia).
  assert (HR : (length (data w) / o = R)%nat).
  { rewrite Hwf, Nat.mul_comm. apply Nat.div_mul, Ho. }
  exists o, R. unfold numel.
  apply Nat.eqb_neq in Ho as Eo. rewrite Eo.
  assert (Em : (length (data w) mod o =? 0)%nat = true).
  { apply Nat.eqb_eq. rewrite Hwf, Nat.mul_comm. apply Nat.Div0.mod_mul. }
  rewrite Em, HR. simpl.
  repeat split; try lia; nia.
Qed.

(** ** [prune], row by row

    Column [o] of the transposed view is row [o] of the [(out, R)] view, so
    what [prune] computes through the two transpositions can be read off the
    rows. *)

Lemma nth_lt_vec a b o :
  (o < length a)%nat -> length a = length b ->
  nth o (lt_vec a b) false = Qltb (nth o a 0) (nth o b 0).
Proof.
  intros Ho Hab. unfold lt_vec.
  rewrite (nth_map_in _ _ _ _ _ _ (0, 0)).
  - rewrite combine_nth by exact Hab. reflexivity.
  - rewrite length_combine. lia.
Qed.

Lemma length_lt_vec a b : length a = length b -> length (lt_vec a b) = length a.
Proof.
  intro H. unfold lt_vec. rewrite length_map, length_combine. lia.
Qed.

Lemma prune_weight_rows w perc out R rows p :
  view_rows w = Ok (out, R, rows) ->
  position R (py_int (perc * of_nat R)) = Ok p ->
  prune_weight w perc
  = Ok (Tensor (shape w) (concat (map (row_mask p) rows))).
Proof.
  intros Hv Hp. unfold prune_weight. rewrite Hv. simpl bind.
  rewrite Hp. simpl bind. do 3 f_equal.
  destruct (view_rows_rect _ _ _ _ Hv) as (Hlen & Hrect & _).
  pose proof (position_ok_lt _ _ _ Hp) as HpR.
  (* the thresholds: one per row *)
  assert (Hth : nth p (sort_dim0 R out (map (map Qabs) (transpose 0 R rows))) []
                = map (fun row => nth p (torch_sort (map Qabs row)) 0) rows).
  { unfold sort_dim0.
    pose proof (transpose_map Qabs 0 out (transpose 0 R rows)) as Ht.
    change (Qabs 0) with 0 in Ht. rewrite Ht.
    rewrite (transpose_involutive 0 out R rows Hlen Hrect).
    rewrite nth_transpose by exact HpR.
    rewrite !map_map. reflexivity. }
  rewrite Hth. clear Hth.
  set (ths := map (fun row => nth p (torch_sort (map Qabs row)) 0) rows).
  assert (Hths : length ths = out) by (unfold ths; rewrite length_map; exact Hlen).
  apply (nth_ext _ _ [] []).
  { rewrite transpose_length, length_map. symmetry. exact Hlen. }
  intros o Ho. rewrite transpose_length in Ho.
  rewrite nth_transpose by exact Ho.
  rewrite (nth_map_in _ _ _ _ _ _ []) by lia.
  set (row_o := nth o rows []).
  assert (Hrow : length row_o = R).
  { rewrite Forall_forall in Hrect. apply Hrect, nth_In. lia. }
  unfold one_minus, transpose. rewrite !map_map.
  unfold row_mask. cbv zeta.
  set (th_o := nth p (torch_sort (map Qabs row_o)) 0).
  rewrite <- (map_nth_seq Q 0 row_o R Hrow).
  rewrite map_map. apply map_ext. intros j.
  set (col := map Qabs (map (fun row : list Q => nth j row 0) rows)).
  assert (Hcol : length col = out)
    by (unfold col; rewrite !length_map; exact Hlen).
  rewrite (nth_map_in _ _ _ _ _ _ false)
    by (rewrite length_lt_vec; lia).
  rewrite nth_lt_vec by lia.
  f_equal. f_equal. f_equal.
  - unfold col. rewrite (nth_map_in _ _ _ _ _ _ 0) by (rewrite length_map; lia).
    f_equal.
    apply (nth_map_in _ _ (fun row : list Q => nth j row 0)). lia.
  - unfold ths.
    apply (nth_map_in _ _
             (fun row => nth p (torch_sort (map Qabs row)) 0)). lia.
Qed.

Lemma prune_unit_rows {FL : FloatLib} w perc out R rows p :
  view_rows w = Ok (out, R, rows) ->
  position out (py_int (perc * of_nat out)) = Ok p ->
  prune_unit w perc
  = Ok (Tensor (shape w)
          (concat (map (unit_mask
                          (nth p (torch_sort (map torch_norm rows)) 0) R)
                       rows))).
Proof.
  intros Hv Hp. unfold prune_unit. rewrite Hv. simpl bind.
  rewrite Hp. simpl bind. do 3 f_equal.
  destruct (view_rows_rect _ _ _ _ Hv) as (Hlen & Hrect & _).
  rewrite (transpose_involutive 0 out R rows Hlen Hrect).
  set (t := nth p (torch_sort (map torch_norm rows)) 0).
  unfold one_minus. rewrite map_repeat.
  rewrite transpose_repeat by (rewrite !length_map; exact Hlen).
  rewrite !map_map. reflexivity.
Qed.

(** ** The fractions 0 and 1 *)

(** The entry of rank 0 of a sorted list is the minimum of the list. *)
Lemma sort_min l :
  l <> [] ->
  In (nth 0 (torch_sort l) 0) l /\
  forall x, In x l -> nth 0 (torch_sort l) 0 <= x.
Proof.
  intro Hl.
  pose proof (torch_sort_perm l) as Hperm.
  pose proof (torch_sort_sorted l) as Hsort.
  destruct (torch_sort l) as [|a s] eqn:E.
  { apply Permutation_nil in Hperm. congruence. }
  simpl. split.
  - eapply Permutation_in; [exact Hperm|left; reflexivity].
  - intros x Hx. apply Permutation_sym in Hperm.
    apply (Permutation_in _ Hperm) in Hx.
    apply StronglySorted_inv in Hsort. destruct Hsort as [_ Hall].
    destruct Hx as [<-|Hx]; [apply Qle_refl|].
    rewrite Forall_forall in Hall. apply Hall, Hx.
Qed.

Lemma rank_zero n : (0 < n)%nat -> position n (py_int (0 * of_nat n)) = Ok 0%nat.
Proof.
  intro H. change (py_int (0 * of_nat n)) with 0%Z.
  rewrite position_in_range by lia. reflexivity.
Qed.

Lemma rank_full n :
  py_int (1 * of_nat n) = Z.of_nat n /\
  position n (py_int (1 * of_nat n)) = Raise IndexError.
Proof.
  assert (E : py_int (1 * of_nat n) = Z.of_nat n).
  { unfold py_int, of_nat. simpl.
    destruct (Z.of_nat n); simpl; try rewrite Pos.mul_1_r;
      try reflexivity; rewrite Z.quot_1_r; reflexivity. }
  split; [exact E|]. rewrite E. unfold position.
  replace (Z.of_nat n <? Z.of_nat n)%Z with false
    by (symmetry; apply Z.ltb_ge; lia).
  replace (Z.of_nat n <? 0)%Z with false
    by (symmetry; apply Z.ltb_ge; lia).
  rewrite !andb_false_r. reflexivity.
Qed.

Lemma row_mask_zero row : row_mask 0 row = map (fun _ => 1) row.
Proof.
  unfold row_mask. apply map_ext_in. intros x Hx.
  assert (Hne : map Qabs row <> []) by (destruct row; [destruct Hx|discriminate]).
  destruct (sort_min _ Hne) as [_ Hmin].
  assert (E : Qltb (Qabs x) (nth 0 (torch_sort (map Qabs row)) 0) = false).
  { apply Qltb_ge, Hmin, in_map, Hx. }
  rewrite E. reflexivity.
Qed.

(** C3, as the code has it: on a tensor with at least one dimension and at
    least one entry, [prune(w, 0, g)] reads rank 0 of the sorted magnitudes
    (of the sorted unit norms), which is the minimum present; since the
    comparison against it is strict, nothing lies below it and the mask
    returned is all ones: no element and no unit is pruned. *)
Theorem prune_zero_fraction {FL : FloatLib} (w : tensor) :
  wf_tensor w -> shape w <> [] -> (0 < numel w)%nat ->
  (forall n, (0 < n)%nat -> position n (py_int (0 * of_nat n)) = Ok 0%nat) /\
  (forall l, l <> [] ->
     In (nth 0 (torch_sort l) 0) l /\
     forall x, In x l -> nth 0 (torch_sort l) 0 <= x) /\
  prune w 0 "weight" = Ok (Tensor (shape w) (map (fun _ => 1) (data w))) /\
  prune w 0 "unit" = Ok (Tensor (shape w) (map (fun _ => 1) (data w))).
Proof.
  intros Hwf Hs Hn.
  split; [exact rank_zero|]. split; [exact sort_min|].
  destruct (view_rows_nonempty w Hwf Hs Hn)
    as (out & R & Hv & Hout & HR & _ & _).
  destruct (view_rows_rect _ _ _ _ Hv) as (Hlen & Hrect & Hcat).
  set (rows := chunks out R (data w)) in *.
  split.
  - unfold prune. simpl.
    rewrite (prune_weight_rows w 0 out R rows 0%nat Hv (rank_zero R HR)).
    do 2 f_equal. rewrite <- Hcat, concat_map. f_equal.
    apply map_ext. exact row_mask_zero.
  - unfold prune. simpl.
    rewrite (prune_unit_rows w 0 out R rows 0%nat Hv (rank_zero out Hout)).
    do 2 f_equal. rewrite <- Hcat, concat_map. f_equal.
    apply map_ext_in. intros row Hrow.
    rewrite map_const. rewrite Forall_forall in Hrect.
    rewrite (Hrect row Hrow). unfold unit_mask.
    assert (Hne : map torch_norm rows <> []).
    { destruct rows; [destruct Hrow|discriminate]. }
    destruct (sort_min _ Hne) as [_ Hmin].
    assert (E : Qltb (torch_norm row)
                  (nth 0 (torch_sort (map torch_norm rows)) 0)
                = false).
    { apply Qltb_ge, Hmin, in_map, Hrow. }
    rewrite E. reflexivity.
Qed.

Lemma prune_zero_fraction_witness :
  (forall n, (0 < n)%nat -> position n (py_int (0 * of_nat n)) = Ok 0%nat) /\
  (forall l, l <> [] ->
     In (nth 0 (torch_sort l) 0) l /\
     forall x, In x l -> nth 0 (torch_sort l) 0 <= x) /\
  prune (FL := rational_lib) two_by_two 0 "weight"
    = Ok (Tensor [2%nat; 2%nat] [1; 1; 1; 1]) /\
  prune (FL := rational_lib) two_by_two 0 "unit"
    = Ok (Tensor [2%nat; 2%nat] [1; 1; 1; 1]).
Proof.
  apply (@prune_zero_fraction rational_lib two_by_two).
  - reflexivity.
  - discriminate.
  - unfold numel. simpl. lia.
Defined.

(** C3 as stated fails: at [f = 0] the minimum is not pruned; the mask has
    no zero at all, under both granularities. *)
Lemma prune_zero_fraction_counterexample :
  (exists mask,
     prune (FL := rational_lib) two_by_two 0 "weight" = Ok mask /\
     count_zeros (data mask) = 0%nat /\
     nth 1 (data two_by_two) 0 = 1 /\ nth 1 (data mask) 0 = 1) /\
  (exists mask,
     prune (FL := rational_lib) two_by_two 0 "unit" = Ok mask /\
     count_zeros (data mask) = 0%nat).
Proof.
  split; eexists; (split; [reflexivity|]); repeat split; reflexivity.
Qed.

(** C9: on a tensor with at least one dimension and at least one entry,
    [prune(w, 1, g)] raises [IndexError] under both granularities and
    returns no mask: the rank index is the size of the dimension that is
    indexed, the trailing size [R] of the [(out, R)] view for ['weight'] and
    the number [out] of units for ['unit']. *)
Theorem prune_full_fraction {FL : FloatLib} (w : tensor) :
  wf_tensor w -> shape w <> [] -> (0 < numel w)%nat ->
  exists out R rows,
    view_rows w = Ok (out, R, rows) /\
    py_int (1 * of_nat R) = Z.of_nat R /\
    py_int (1 * of_nat out) = Z.of_nat out /\
    prune w 1 "weight" = Raise IndexError /\
    prune w 1 "unit" = Raise IndexError.
Proof.
  intros Hwf Hs Hn.
  destruct (view_rows_nonempty w Hwf Hs Hn) as (out & R & Hv & _).
  exists out, R, (chunks out R (data w)).
  destruct (rank_full R) as [ER PR]. destruct (rank_full out) as [Eo Po].
  repeat split; try assumption.
  - unfold prune, prune_weight. simpl. rewrite Hv. simpl. rewrite PR.
    reflexivity.
  - unfold prune, prune_unit. simpl. rewrite Hv. simpl. rewrite Po.
    reflexivity.
Qed.

Lemma prune_full_fraction_witness :
  exists out R rows,
    view_rows two_by_two = Ok (out, R, rows) /\
    py_int (1 * of_nat R) = Z.of_nat R /\
    py_int (1 * of_nat out) = Z.of_nat out /\
    prune (FL := rational_lib) two_by_two 1 "weight" = Raise IndexError /\
    prune (FL := rational_lib) two_by_two 1 "unit" = Raise IndexError.
Proof.
  apply (@prune_full_fraction rational_lib two_by_two).
  - reflexivity.
  - discriminate.
  - unfold numel. simpl. lia.
Defined.

(** ** [local_prune], layer by layer *)

Section LocalPrune.

Context {FL : FloatLib}.
Variable self : Pruner.t.

Let final := Args.final_sparsity (Pruner.args self).
Let ty := Args.prune_type (Pruner.args self).
Let input (w mk : tensor) : tensor :=
  if Args.carry_mask (Pruner.args self) then tmul w mk else w.

Lemma local_prune_other r pc :
  Pruner.local_prune self (Other :: r) pc
  = (Other :: fst (Pruner.local_prune self r pc),
     snd (Pruner.local_prune self r pc)).
Proof. simpl. destruct (Pruner.local_prune self r pc). reflexivity. Qed.

Lemma local_prune_skip w mk r pc :
  below_final mk final = false ->
  Pruner.local_prune self (Prunable w mk :: r) pc
  = (Prunable w mk :: fst (Pruner.local_prune self r pc),
     snd (Pruner.local_prune self r pc)).
Proof.
  intro H. simpl. fold final. rewrite H.
  destruct (Pruner.local_prune self r pc). reflexivity.
Qed.

Lemma local_prune_raise w mk r pc e :
  below_final mk final = true ->
  prune (input w mk) pc ty = Raise e ->
  Pruner.local_prune self (Prunable w mk :: r) pc
  = (Prunable w mk :: r, Some e).
Proof.
  intros H He. simpl. fold final. rewrite H.
  unfold input, ty in He. rewrite He. reflexivity.
Qed.

Lemma local_prune_ok w mk r pc module_mask :
  below_final mk final = true ->
  prune (input w mk) pc ty = Ok module_mask ->
  Pruner.local_prune self (Prunable w mk :: r) pc
  = (Prunable w module_mask :: fst (Pruner.local_prune self r pc),
     snd (Pruner.local_prune self r pc)).
Proof.
  intros H He. simpl. fold final. rewrite H.
  unfold input, ty in He. rewrite He.
  destruct (Pruner.local_prune self r pc). reflexivity.
Qed.

(** No rollback: when the pass raises, the layers before the failing one
    hold what the pass gave them, the failing layer and the ones after it
    are as they were, and the exception is the one [prune] raised. *)
Lemma local_prune_raised m pc : forall m' e,
  Pruner.local_prune self m pc = (m', Some e) ->
  exists pre pre' w mk post,
    m = pre ++ Prunable w mk :: post /\
    m' = pre' ++ Prunable w mk :: post /\
    Pruner.local_prune self pre pc = (pre', None) /\
    below_final mk final = true /\
    prune (input w mk) pc ty = Raise e.
Proof.
  induction m as [|[|w mk] r IH]; intros m' e H.
  - discriminate H.
  - rewrite local_prune_other in H. injection H as <- Hsnd.
    destruct (Pruner.local_prune self r pc) as [r' er] eqn:Er.
    simpl in Hsnd. subst er.
    destruct (IH _ _ eq_refl) as (pre & pre' & w & mk & post & -> & -> & Hp & Hb & He).
    exists (Other :: pre), (Other :: pre'), w, mk, post.
    repeat split; try assumption.
    rewrite local_prune_other, Hp. reflexivity.
  - destruct (below_final mk final) eqn:Eb.
    + destruct (prune (input w mk) pc ty) as [mm|e0] eqn:Ep.
      * rewrite (local_prune_ok _ _ _ _ _ Eb Ep) in H. injection H as <- Hsnd.
        destruct (Pruner.local_prune self r pc) as [r' er] eqn:Er.
        simpl in Hsnd. subst er.
        destruct (IH _ _ eq_refl)
          as (pre & pre' & w1 & mk1 & post & -> & -> & Hp & Hb & He).
        exists (Prunable w mk :: pre), (Prunable w mm :: pre'), w1, mk1, post.
        repeat split; try assumption.
        rewrite (local_prune_ok _ _ _ _ _ Eb Ep), Hp. reflexivity.
      * rewrite (local_prune_raise _ _ _ _ _ Eb Ep) in H.
        injection H as <- <-.
        exists [], [], w, mk, r. repeat split; assumption.
    + rewrite (local_prune_skip _ _ _ _ Eb) in H. injection H as <- Hsnd.
      destruct (Pruner.local_prune self r pc) as [r' er] eqn:Er.
      simpl in Hsnd. subst er.
      destruct (IH _ _ eq_refl)
        as (pre & pre' & w1 & mk1 & post & -> & -> & Hp & Hb & He).
      exists (Prunable w mk :: pre), (Prunable w mk :: pre'), w1, mk1, post.
      repeat split; try assumption.
      rewrite (local_prune_skip _ _ _ _ Eb), Hp. reflexivity.
Qed.

End LocalPrune.

(** ** Unsupported granularity *)

Lemma prune_unsupported {FL : FloatLib} (ty : string) w perc :
  ty <> "weight"%string -> ty <> "unit"%string ->
  prune w perc ty = Raise NotImplementedError.
Proof.
  intros H1 H2. unfold prune.
  apply String.eqb_neq in H1. apply String.eqb_neq in H2.
  rewrite H1, H2. reflexivity.
Qed.

(** C8: for a granularity other than ['weight'] and ['unit'], [prune]
    raises [NotImplementedError] whatever the tensor and the fraction, before
    any mask is computed.  In [local_prune] the error is raised at the first
    layer whose sparsity guard passes and reaches the caller; the model is
    left as it was: the failing layer and the layers after it keep their
    masks, and the layers before it hold what the pass gave them (the pass
    does not roll back). *)
Theorem unsupported_prune_type {FL : FloatLib} (ty : string) :
  ty <> "weight"%string -> ty <> "unit"%string ->
  (forall w perc, prune w perc ty = Raise NotImplementedError) /\
  (forall self m pc,
     Args.prune_type (Pruner.args self) = ty ->
     Pruner.local_prune self m pc
     = (m, if existsb (open_layer (Args.final_sparsity (Pruner.args self))) m
           then Some NotImplementedError else None)) /\
  (forall self m pc m' e,
     Args.prune_type (Pruner.args self) = ty ->
     Pruner.local_prune self m pc = (m', Some e) ->
     e = NotImplementedError /\
     exists pre pre' w mk post,
       m = pre ++ Prunable w mk :: post /\
       m' = pre' ++ Prunable w mk :: post /\
       Pruner.local_prune self pre pc = (pre', None)).
Proof.
  intros H1 H2.
  assert (Hp : forall w perc, prune w perc ty = Raise NotImplementedError)
    by (intros; apply prune_unsupported; assumption).
  split; [exact Hp|]. split.
  - intros self m pc Hty.
    induction m as [|[|w mk] r IH].
    + reflexivity.
    + rewrite local_prune_other, IH. reflexivity.
    + simpl existsb.
      destruct (below_final mk (Args.final_sparsity (Pruner.args self)))
        eqn:Eb.
      * simpl orb. apply local_prune_raise; [exact Eb|].
        rewrite Hty. apply Hp.
      * rewrite (local_prune_skip _ _ _ _ _ Eb), IH. reflexivity.
  - intros self m pc m' e Hty H.
    destruct (local_prune_raised _ _ _ _ _ H)
      as (pre & pre' & w & mk & post & Hm & Hm' & Hpre & _ & He).
    rewrite Hty, Hp in He. split; [congruence|].
    exists pre, pre', w, mk, post. repeat split; assumption.
Qed.

Lemma unsupported_prune_type_witness :
  let self := Pruner.init (with_prune_type "l1" plain_args) two_layers in
  prune (FL := rational_lib) two_by_two (1 # 2) "l1"
    = Raise NotImplementedError /\
  Pruner.local_prune (FL := rational_lib) self two_layers (1 # 2)
    = (two_layers, Some NotImplementedError).
Proof.
  assert (H1 : "l1"%string <> "weight"%string) by discriminate.
  assert (H2 : "l1"%string <> "unit"%string) by discriminate.
  destruct (@unsupported_prune_type rational_lib "l1" H1 H2) as (A & B & _).
  split; [apply A|].
  exact (B (Pruner.init (with_prune_type "l1" plain_args) two_layers)
           two_layers (1 # 2) eq_refl).
Defined.

(** ** [ramping_prune] outside its recompute steps *)

(** C4: at a step outside the window [start_step <= step < end_step], and
    at a step inside it that is not a multiple of [prune_freq],
    [ramping_prune] leaves the model, hence every mask, exactly as it was,
    whether it returns or raises. *)
Theorem ramping_prune_frame {FL : FloatLib} (self : Pruner.t) (m : model)
        (step : Z) :
  ~ (Pruner.start_step self <= step < Pruner.end_step self)%Z
  \/ ((Pruner.start_step self <= step < Pruner.end_step self)%Z /\
      (Args.prune_freq (Pruner.args self) = 0%Z \/
       (step mod Args.prune_freq (Pruner.args self))%Z <> 0%Z)) ->
  fst (Pruner.ramping_prune self m step) = m /\
  masks_of (fst (Pruner.ramping_prune self m step)) = masks_of m /\
  (forall v, Pruner.compute_sparsity self step = Ok v ->
             Args.prune_freq (Pruner.args self) <> 0%Z ->
             Pruner.ramping_prune self m step = (m, None)).
Proof.
  intro H.
  assert (Hfst : fst (Pruner.ramping_prune self m step) = m).
  { unfold Pruner.ramping_prune.
    destruct (Pruner.compute_sparsity self step) as [v|e]; [|reflexivity].
    destruct ((Pruner.start_step self <=? step)
              && (step <? Pruner.end_step self))%Z eqn:Ew; [|reflexivity].
    destruct (Args.prune_freq (Pruner.args self) =? 0)%Z eqn:Ef;
      [reflexivity|].
    destruct (step mod Args.prune_freq (Pruner.args self) =? 0)%Z eqn:Em;
      [|reflexivity].
    exfalso. apply Z.eqb_neq in Ef. apply Z.eqb_eq in Em.
    apply andb_prop in Ew. destruct Ew as [A B].
    apply Z.leb_le in A. apply Z.ltb_lt in B.
    destruct H as [H|[_ [H|H]]]; [apply H; lia|congruence|congruence]. }
  split; [exact Hfst|]. split; [rewrite Hfst; reflexivity|].
  intros v Hv Hfreq. unfold Pruner.ramping_prune. rewrite Hv.
  destruct ((Pruner.start_step self <=? step)
            && (step <? Pruner.end_step self))%Z eqn:Ew; [|reflexivity].
  apply Z.eqb_neq in Hfreq. rewrite Hfreq.
  destruct (step mod Args.prune_freq (Pruner.args self) =? 0)%Z eqn:Em;
    [|reflexivity].
  exfalso. apply Z.eqb_neq in Hfreq. apply Z.eqb_eq in Em.
  apply andb_prop in Ew. destruct Ew as [A B].
  apply Z.leb_le in A. apply Z.ltb_lt in B.
  destruct H as [H|[_ [H|H]]]; [apply H; lia|congruence|congruence].
Qed.

(** In particular nothing happens at [step == end_step]. *)
Corollary ramping_prune_at_end {FL : FloatLib} (self : Pruner.t) (m : model) :
  fst (Pruner.ramping_prune self m (Pruner.end_step self)) = m.
Proof.
  unfold Pruner.ramping_prune.
  destruct (Pruner.compute_sparsity self (Pruner.end_step self));
    [|reflexivity].
  rewrite Z.ltb_irrefl, andb_false_r. reflexivity.
Qed.

Lemma ramping_prune_frame_witness :
  let self := Pruner.init plain_args two_layers in
  Pruner.start_step self = 10%Z /\ Pruner.end_step self = 90%Z /\
  (* inside the window, between two recompute steps *)
  Pruner.ramping_prune (FL := rational_lib) self two_layers 12
    = (two_layers, None) /\
  (* outside the window *)
  fst (Pruner.ramping_prune (FL := rational_lib) self two_layers 95)
    = two_layers.
Proof.
  split; [reflexivity|]. split; [reflexivity|]. split.
  - assert (H : ~ (10 <= 12 < 90)%Z
                \/ ((10 <= 12 < 90)%Z /\ (5 = 0 \/ 12 mod 5 <> 0)%Z)).
    { right. split; [lia|]. right. discriminate. }
    destruct (@ramping_prune_frame rational_lib
                (Pruner.init plain_args two_layers) two_layers 12 H)
      as (_ & _ & C).
    eapply C; [reflexivity|discriminate].
  - apply (@ramping_prune_frame rational_lib
             (Pruner.init plain_args two_layers) two_layers 95).
    left. change (~ (10 <= 95 < 90)%Z). lia.
Defined.

(** ** [single_shot_prune], twice *)

Lemma weights_assign_masks masks : forall m c,
  weights_of (Pruner.assign_masks m masks c) = weights_of m.
Proof.
  induction m as [|[|w mk] r IH]; intros c; simpl.
  - reflexivity.
  - apply IH.
  - rewrite IH. reflexivity.
Qed.

Lemma nth_default_idem (A : Type) : forall c (l : list A) d,
  nth c l (nth c l d) = nth c l d.
Proof.
  induction c as [|c IH]; intros [|a l] d; simpl; auto.
Qed.

Lemma assign_masks_idem masks : forall m c,
  Pruner.assign_masks (Pruner.assign_masks m masks c) masks c
  = Pruner.assign_masks m masks c.
Proof.
  induction m as [|[|w mk] r IH]; intros c; simpl.
  - reflexivity.
  - rewrite IH. reflexivity.
  - rewrite IH, nth_default_idem. reflexivity.
Qed.

(** [global_prune] reads the weights only, so a second call assigns the
    same masks again. *)
Lemma global_prune_idem m f :
  fst (Pruner.global_prune (fst (Pruner.global_prune m f)) f)
  = fst (Pruner.global_prune m f).
Proof.
  unfold Pruner.global_prune at 2 3.
  destruct (weights_of m) as [|w0 ws] eqn:Ew.
  { simpl. unfold Pruner.global_prune. rewrite Ew. reflexivity. }
  set (scores := concat (map data (w0 :: ws))).
  destruct (position (length scores)
                     (py_int (float_mul f (of_nat (length scores))))) as [p|e]
    eqn:Ep.
  - cbn [fst]. unfold Pruner.global_prune.
    rewrite weights_assign_masks, Ew. fold scores. rewrite Ep.
    cbn [fst]. apply assign_masks_idem.
  - cbn [fst]. unfold Pruner.global_prune. rewrite Ew. fold scores.
    rewrite Ep. reflexivity.
Qed.

(** Without [carry_mask], [local_prune] computes each mask from the weight
    alone: a second pass either skips a layer or recomputes the mask it
    already has. *)
Lemma local_prune_idem_nocarry {FL : FloatLib} (self : Pruner.t) pc :
  Args.carry_mask (Pruner.args self) = false ->
  forall m,
    fst (Pruner.local_prune self (fst (Pruner.local_prune self m pc)) pc)
    = fst (Pruner.local_prune self m pc).
Proof.
  intros Hc. induction m as [|[|w mk] r IH].
  - reflexivity.
  - rewrite local_prune_other. cbn [fst].
    rewrite local_prune_other. cbn [fst]. rewrite IH. reflexivity.
  - destruct (below_final mk (Args.final_sparsity (Pruner.args self)))
      eqn:Eb.
    + destruct (prune w pc (Args.prune_type (Pruner.args self)))
        as [mm|e] eqn:Ep.
      * assert (Ep' : forall k,
                  prune (if Args.carry_mask (Pruner.args self)
                         then tmul w k else w)
                        pc (Args.prune_type (Pruner.args self)) = Ok mm)
          by (intro k; rewrite Hc; exact Ep).
        rewrite (local_prune_ok self w mk r pc mm Eb (Ep' mk)). cbn [fst].
        destruct (below_final mm (Args.final_sparsity (Pruner.args self)))
          eqn:Eb'.
        -- rewrite (local_prune_ok self w mm _ pc mm Eb' (Ep' mm)).
           cbn [fst]. rewrite IH. reflexivity.
        -- rewrite (local_prune_skip self w mm _ pc Eb').
           cbn [fst]. rewrite IH. reflexivity.
      * assert (Ep' : prune (if Args.carry_mask (Pruner.args self)
                             then tmul w mk else w)
                            pc (Args.prune_type (Pruner.args self)) = Raise e)
          by (rewrite Hc; exact Ep).
        rewrite (local_prune_raise self w mk r pc e Eb Ep'). cbn [fst].
        rewrite (local_prune_raise self w mk r pc e Eb Ep'). reflexivity.
    + rewrite (local_prune_skip self w mk r pc Eb). cbn [fst].
      rewrite (local_prune_skip self w mk _ pc Eb). cbn [fst].
      rewrite IH. reflexivity.
Qed.

(** ** Pruning again on [weight * mask]

    One abstract step covers both granularities.  [n a] is the magnitude of
    the unit [a] in the first call, [n' a] its magnitude in the second call,
    where the units pruned by the first call have been multiplied by 0 and
    the others by 1. *)

(** The entry of rank [p] is determined by the counts below and up to it. *)
Lemma rank_unique s p t :
  StronglySorted Qle s -> (p < length s)%nat ->
  (count (fun x => Qltb x t) s <= p)%nat ->
  (p < count (fun x => Qle_bool x t) s)%nat ->
  nth p s 0 == t.
Proof.
  intros Hs Hp Hlo Hhi.
  pose proof (rank_below s Hs p Hp) as Hb.
  pose proof (rank_upto s Hs p Hp) as Hu.
  destruct (Q_dec (nth p s 0) t) as [[Hlt|Hgt]|Heq]; [| |exact Heq]; exfalso.
  - assert (count (fun x => Qle_bool x (nth p s 0%Q)) s
            <= count (fun x => Qltb x t) s)%nat; [|lia].
    apply count_le_impl. intros x _ Hx.
    apply Qle_bool_iff in Hx. apply Qltb_lt.
    eapply Qle_lt_trans; eassumption.
  - assert (count (fun x => Qle_bool x t) s
            <= count (fun x => Qltb x (nth p s 0%Q)) s)%nat; [|lia].
    apply count_le_impl. intros x _ Hx.
    apply Qle_bool_iff in Hx. apply Qltb_lt.
    eapply Qle_lt_trans; eassumption.
Qed.

Section Carry.

Context {A : Type}.
Variables (L : list A) (n n' : A -> Q) (p : nat).

Let t1 := nth p (torch_sort (map n L)) 0.
Let t2 := nth p (torch_sort (map n' L)) 0.

Hypothesis Hp : (p < length L)%nat.
Hypothesis Hn : forall a, In a L -> 0 <= n a.
Hypothesis Hpruned : forall a, In a L -> n a < t1 -> n' a == 0.

Lemma carry_counts_n :
  (count (fun a => Qltb (n a) t1) L <= p)%nat /\
  (p < count (fun a => Qle_bool (n a) t1) L)%nat.
Proof.
  assert (Hlen : (p < length (torch_sort (map n L)))%nat)
    by (rewrite torch_sort_length, length_map; exact Hp).
  pose proof (rank_below _ (torch_sort_sorted (map n L)) p Hlen) as Hb.
  pose proof (rank_upto _ (torch_sort_sorted (map n L)) p Hlen) as Hu.
  fold t1 in Hb, Hu.
  rewrite (count_perm _ _ _ (torch_sort_perm _)), count_map in Hb.
  rewrite (count_perm _ _ _ (torch_sort_perm _)), count_map in Hu.
  split; assumption.
Qed.

Lemma carry_counts_n' :
  (count (fun a => Qltb (n' a) t2) L <= p)%nat /\
  (p < count (fun a => Qle_bool (n' a) t2) L)%nat.
Proof.
  assert (Hlen : (p < length (torch_sort (map n' L)))%nat)
    by (rewrite torch_sort_length, length_map; exact Hp).
  pose proof (rank_below _ (torch_sort_sorted (map n' L)) p Hlen) as Hb.
  pose proof (rank_upto _ (torch_sort_sorted (map n' L)) p Hlen) as Hu.
  fold t2 in Hb, Hu.
  rewrite (count_perm _ _ _ (torch_sort_perm _)), count_map in Hb.
  rewrite (count_perm _ _ _ (torch_sort_perm _)), count_map in Hu.
  split; assumption.
Qed.

(** What was pruned is pruned again, provided a unit that was kept and has
    magnitude 0 in the second call had magnitude 0 in the first. *)
Lemma carry_pruned_again :
  (forall a, In a L -> t1 <= n a -> n' a <= 0 -> n a <= 0) ->
  forall a, In a L -> Qltb (n a) t1 = true -> Qltb (n' a) t2 = true.
Proof.
  intros Hkept a Ha Hlt. apply Qltb_lt in Hlt.
  assert (Ht1 : 0 < t1) by (eapply Qle_lt_trans; [apply Hn, Ha|exact Hlt]).
  apply Qltb_lt. rewrite (Hpruned a Ha Hlt).
  apply Qnot_le_lt. intro Ht2.
  destruct carry_counts_n as [Hlo _]. destruct carry_counts_n' as [_ Hhi].
  destruct (count_gt_exists (fun a => Qle_bool (n' a) t2)
                            (fun a => Qltb (n a) t1) L) as (b & Hb & H1 & H2);
    [lia|].
  apply Qle_bool_iff in H1. apply Qltb_ge in H2.
  assert (n b <= 0).
  { apply Hkept; [exact Hb|exact H2|]. eapply Qle_trans; eassumption. }
  apply (Qlt_not_le _ _ Ht1). eapply Qle_trans; eassumption.
Qed.

(** The same units are pruned, provided a unit that was kept has the same
    magnitude in the second call. *)
Lemma carry_same_mask :
  (forall a, In a L -> t1 <= n a -> n' a == n a) ->
  forall a, In a L -> Qltb (n' a) t2 = Qltb (n a) t1.
Proof.
  intros Hsame.
  assert (Hlt : forall a, In a L -> Qltb (n' a) t1 = Qltb (n a) t1).
  { intros a Ha. destruct (Qltb (n a) t1) eqn:E.
    - apply Qltb_lt in E. apply Qltb_lt. rewrite (Hpruned a Ha E).
      eapply Qle_lt_trans; [apply Hn, Ha|exact E].
    - apply Qltb_ge in E. apply Qltb_ge. rewrite (Hsame a Ha E). exact E. }
  assert (Hle : forall a, In a L -> Qle_bool (n' a) t1 = Qle_bool (n a) t1).
  { intros a Ha. destruct (Qlt_le_dec (n a) t1) as [E|E].
    - transitivity true; [|symmetry]; apply Qle_bool_iff.
      + rewrite (Hpruned a Ha E).
        apply Qlt_le_weak. eapply Qle_lt_trans; [apply Hn, Ha|exact E].
      + apply Qlt_le_weak, E.
    - assert (E' := Hsame a Ha E).
      destruct (Qle_bool (n a) t1) eqn:B.
      + apply Qle_bool_iff. rewrite E'. apply Qle_bool_iff, B.
      + destruct (Qle_bool (n' a) t1) eqn:B'; [|reflexivity].
        apply Qle_bool_iff in B'. rewrite E' in B'.
        apply Qle_bool_iff in B'. congruence. }
  assert (Ht : t2 == t1).
  { destruct carry_counts_n as [Hlo Hhi].
    apply rank_unique.
    - apply torch_sort_sorted.
    - rewrite torch_sort_length, length_map. exact Hp.
    - rewrite (count_perm _ _ _ (torch_sort_perm _)), count_map.
      rewrite (count_ext _ (fun a => Qltb (n a) t1)); assumption.
    - rewrite (count_perm _ _ _ (torch_sort_perm _)), count_map.
      rewrite (count_ext _ (fun a => Qle_bool (n a) t1)); assumption. }
  intros a Ha. rewrite <- (Hlt a Ha).
  unfold Qltb. f_equal. rewrite Ht. reflexivity.
Qed.

End Carry.

(** ** Lists of pairs, chunks and concatenations *)

Lemma length_zip_with (A B C : Type) (f : A -> B -> C) a b :
  length (zip_with f a b) = Nat.min (length a) (length b).
Proof. unfold zip_with. rewrite length_map. apply length_combine. Qed.

Lemma zip_with_as_map (A B C : Type) (f : A -> B -> C) a b :
  zip_with f a b = map (fun pr => f (fst pr) (snd pr)) (combine a b).
Proof. reflexivity. Qed.

Lemma zip_with_map_combine (A B C : Type) (f : A -> C -> C) (g : A * B -> C) :
  forall a b,
    zip_with f a (map g (combine a b))
    = map (fun pr => f (fst pr) (g pr)) (combine a b).
Proof.
  unfold zip_with.
  induction a as [|x a IH]; intros [|y b]; simpl; try reflexivity.
  rewrite IH. reflexivity.
Qed.

Lemma skipn_combine (A B : Type) : forall n (a : list A) (b : list B),
  skipn n (combine a b) = combine (skipn n a) (skipn n b).
Proof.
  induction n as [|n IH]; intros [|x a] [|y b]; simpl; try reflexivity.
  - destruct (skipn n a); reflexivity.
  - apply IH.
Qed.

Lemma chunks_zip_with (f : Q -> Q -> Q) k n : forall a b,
  chunks k n (zip_with f a b)
  = zip_with (zip_with f) (chunks k n a) (chunks k n b).
Proof.
  induction k as [|k IH]; intros a b; [reflexivity|].
  simpl. unfold zip_with at 1 2. rewrite firstn_map, skipn_map.
  rewrite combine_firstn, skipn_combine.
  change (map (fun p => f (fst p) (snd p)) (combine ?x ?y))
    with (zip_with f x y).
  rewrite IH. reflexivity.
Qed.

Lemma chunks_concat k n : forall X,
  length X = k -> Forall (fun row => length row = n) X ->
  chunks k n (concat X) = X.
Proof.
  induction k as [|k IH]; intros [|row X] Hk Hrect; simpl in *;
    try discriminate; [reflexivity|].
  inversion Hrect as [|? ? Hrow Hrest]; subst.
  rewrite firstn_app, Nat.sub_diag, firstn_all. simpl. rewrite app_nil_r.
  rewrite skipn_app, Nat.sub_diag, skipn_all. simpl.
  rewrite IH; [reflexivity|lia|exact Hrest].
Qed.

Lemma length_concat_rect (X : matrix Q) k n :
  length X = k -> Forall (fun row => length row = n) X ->
  length (concat X) = (k * n)%nat.
Proof.
  revert k. induction X as [|row X IH]; intros k Hk Hrect; simpl in *.
  - subst k. reflexivity.
  - inversion Hrect as [|? ? Hrow Hrest]; subst.
    rewrite length_app, (IH (length X) eq_refl Hrest). simpl. reflexivity.
Qed.

Lemma chunks_rows_ge k n : forall l, (k * n <= length l)%nat ->
  Forall (fun row => length row = n) (chunks k n l).
Proof.
  induction k as [|k IH]; intros l Hl; simpl in *; [constructor|].
  constructor.
  - rewrite length_firstn. lia.
  - apply IH. rewrite length_skipn. lia.
Qed.

Lemma count_concat_map_le (A : Type) (q : Q -> bool) (f g : A -> list Q) l :
  (forall x, In x l -> (count q (f x) <= count q (g x))%nat) ->
  (count q (concat (map f l)) <= count q (concat (map g l)))%nat.
Proof.
  induction l as [|a l IH]; intros H; [reflexivity|].
  simpl. rewrite !count_app.
  assert (count q (f a) <= count q (g a))%nat by (apply H; left; reflexivity).
  assert (count q (concat (map f l)) <= count q (concat (map g l)))%nat
    by (apply IH; intros x Hx; apply H; right; exact Hx).
  lia.
Qed.

(** ** One row, pruned twice with [carry_mask] (['weight'] granularity) *)

Section RowCarry.

Variables (wrow mrow : list Q) (p : nat).

Let L := combine wrow mrow.
Let n (pr : Q * Q) : Q := Qabs (fst pr * snd pr).
Let t1 := nth p (torch_sort (map n L)) 0.
Let k1 (pr : Q * Q) : Q := 1 - float_of_bool (Qltb (n pr) t1).
Let n' (pr : Q * Q) : Q := Qabs (fst pr * k1 pr).
Let t2 := nth p (torch_sort (map n' L)) 0.

Let first_mask := row_mask p (zip_with Qmult wrow mrow).
Let second_mask := row_mask p (zip_with Qmult wrow first_mask).

Lemma first_mask_eq : first_mask = map k1 L.
Proof.
  unfold first_mask, row_mask, zip_with. rewrite !map_map. reflexivity.
Qed.

Lemma second_mask_eq :
  second_mask = map (fun pr => 1 - float_of_bool (Qltb (n' pr) t2)) L.
Proof.
  unfold second_mask. rewrite first_mask_eq.
  unfold L. rewrite zip_with_map_combine. fold L.
  unfold row_mask. rewrite !map_map. reflexivity.
Qed.

Hypothesis Hp : (p < length (zip_with Qmult wrow mrow))%nat.

Lemma row_Hp : (p < length L)%nat.
Proof. unfold L. rewrite length_zip_with, <- length_combine in Hp. exact Hp. Qed.

Lemma row_pruned a : In a L -> n a < t1 -> n' a == 0.
Proof.
  intros _ H. unfold n', k1.
  apply Qltb_lt in H. rewrite H. simpl float_of_bool.
  setoid_replace (fst a * (1 - 1)) with 0 by ring. reflexivity.
Qed.

Lemma row_kept_value a : t1 <= n a -> n' a == Qabs (fst a).
Proof.
  intro H. unfold n', k1.
  apply Qltb_ge in H. rewrite H. simpl float_of_bool.
  setoid_replace (fst a * (1 - 0)) with (fst a) by ring. reflexivity.
Qed.

(** The second mask has no more ones than the first. *)
Lemma row_carry_monotone :
  (count (Qeq_bool 1) second_mask <= count (Qeq_bool 1) first_mask)%nat.
Proof.
  rewrite first_mask_eq, second_mask_eq, !count_map.
  rewrite (count_ext _ (fun pr => negb (Qltb (n' pr) t2)))
    by (intros; apply Qeq_bool_one_keep).
  rewrite (count_ext (fun x => Qeq_bool 1 (k1 x))
                     (fun pr => negb (Qltb (n pr) t1)))
    by (intros; apply Qeq_bool_one_keep).
  pose proof (count_negb (fun pr => Qltb (n' pr) t2) L) as H2.
  pose proof (count_negb (fun pr => Qltb (n pr) t1) L) as H1.
  assert (count (fun pr => Qltb (n pr) t1) L
          <= count (fun pr => Qltb (n' pr) t2) L)%nat; [|lia].
  apply count_le_impl. intros a Ha.
  apply (carry_pruned_again L n n' p row_Hp).
  - intros; apply Qabs_nonneg.
  - exact row_pruned.
  - intros b _ Hk Hz. rewrite (row_kept_value b Hk) in Hz.
    assert (Hb : fst b == 0).
    { pose proof (Qabs_nonneg (fst b)) as Hnn.
      assert (Hab : Qabs (fst b) == 0) by (apply Qle_antisym; assumption).
      destruct (Qabs_Qle_condition (fst b) 0) as [Hcond _].
      destruct Hcond as [Hlo Hhi]; [rewrite Hab; apply Qle_refl|].
      apply Qle_antisym; [exact Hhi|exact Hlo]. }
    unfold n. rewrite Hb.
    setoid_replace (0 * snd b) with 0 by ring. apply Qle_refl.
  - exact Ha.
Qed.

(** Starting from a mask of ones, the second mask is the first. *)
Lemma row_carry_same :
  Forall (fun x => x == 1) mrow -> second_mask = first_mask.
Proof.
  intro Hones. rewrite first_mask_eq, second_mask_eq.
  apply map_ext_in. intros a Ha. unfold k1. do 2 f_equal.
  apply (carry_same_mask L n n' p row_Hp).
  - intros; apply Qabs_nonneg.
  - exact row_pruned.
  - intros b Hb Hk. rewrite (row_kept_value b Hk). unfold n.
    assert (Hs : snd b == 1).
    { rewrite Forall_forall in Hones. apply Hones.
      destruct b as [x y]. apply in_combine_r in Hb. exact Hb. }
    rewrite Hs. setoid_replace (fst b * 1) with (fst b) by ring. reflexivity.
  - exact Ha.
Qed.

End RowCarry.

(** ** One layer, pruned twice with [carry_mask] *)

Lemma prune_weight_inv u f mm :
  prune_weight u f = Ok mm ->
  exists out R rows p,
    view_rows u = Ok (out, R, rows) /\
    position R (py_int (f * of_nat R)) = Ok p /\
    mm = Tensor (shape u) (concat (map (row_mask p) rows)).
Proof.
  intro H.
  destruct (view_rows u) as [[[out R] rows]|e] eqn:Ev.
  - destruct (position R (py_int (f * of_nat R))) as [p|e] eqn:Ep.
    + rewrite (prune_weight_rows _ _ _ _ _ _ Ev Ep) in H.
      injection H as <-. exists out, R, rows, p. repeat split; assumption.
    + unfold prune_weight in H. rewrite Ev in H. simpl in H.
      rewrite Ep in H. discriminate.
  - unfold prune_weight in H. rewrite Ev in H. discriminate.
Qed.

Lemma prune_unit_inv {FL : FloatLib} u f mm :
  prune_unit u f = Ok mm ->
  exists out R rows p,
    view_rows u = Ok (out, R, rows) /\
    position out (py_int (f * of_nat out)) = Ok p /\
    mm = Tensor (shape u)
           (concat (map (unit_mask
                           (nth p (torch_sort (map torch_norm rows)) 0) R)
                        rows)).
Proof.
  intro H.
  destruct (view_rows u) as [[[out R] rows]|e] eqn:Ev.
  - destruct (position out (py_int (f * of_nat out))) as [p|e] eqn:Ep.
    + rewrite (prune_unit_rows _ _ _ _ _ _ Ev Ep) in H.
      injection H as <-. exists out, R, rows, p. repeat split; assumption.
    + unfold prune_unit in H. rewrite Ev in H. simpl in H.
      rewrite Ep in H. discriminate.
  - unfold prune_unit in H. rewrite Ev in H. discriminate.
Qed.

(** The view of [weight * mask] when the mask is given by its rows. *)
Lemma view_rows_carry w mk out R U X s :
  view_rows (tmul w mk) = Ok (out, R, U) ->
  length X = out -> Forall (fun row => length row = R) X ->
  view_rows (tmul w (Tensor s (concat X)))
  = Ok (out, R, zip_with (zip_with Qmult) (chunks out R (data w)) X) /\
  U = zip_with (zip_with Qmult) (chunks out R (data w))
               (chunks out R (data mk)) /\
  Forall (fun row => length row = R) (chunks out R (data mk)).
Proof.
  intros Hv HX Hrect.
  destruct (view_rows_ok _ _ _ _ Hv) as (Hout & Hlen & HU & rest & Hs).
  simpl in Hlen, HU, Hs. rewrite length_zip_with in Hlen.
  split; [|split].
  - unfold view_rows, numel. simpl. rewrite Hs.
    rewrite length_zip_with, (length_concat_rect X out R HX Hrect).
    replace (Nat.min (length (data w)) (out * R)) with (out * R)%nat by lia.
    replace (out =? 0)%nat with false by (symmetry; apply Nat.eqb_neq; lia).
    replace ((out * R) mod out)%nat with 0%nat
      by (symmetry; rewrite Nat.mul_comm; apply Nat.Div0.mod_mul).
    replace ((out * R) / out)%nat with R
      by (symmetry; rewrite Nat.mul_comm; apply Nat.div_mul; lia).
    simpl. rewrite chunks_zip_with, (chunks_concat out R X HX Hrect).
    reflexivity.
  - rewrite HU. apply chunks_zip_with.
  - apply chunks_rows_ge. lia.
Qed.

Lemma length_row_mask p row : length (row_mask p row) = length row.
Proof. unfold row_mask. apply length_map. Qed.

Lemma length_unit_mask {FL : FloatLib} t R row : length (unit_mask t R row) = R.
Proof. unfold unit_mask. apply repeat_length. Qed.

Section WeightCarry.

Variables (w mk : tensor) (f : Q) (mm mm2 : tensor).
Hypothesis H1 : prune_weight (tmul w mk) f = Ok mm.
Hypothesis H2 : prune_weight (tmul w mm) f = Ok mm2.

(** Both masks, row by row over the pairs (weight row, old mask row). *)
Lemma weight_carry_rows :
  exists (LL : list (list Q * list Q)) p R,
    (forall pr, In pr LL ->
       (p < length (zip_with Qmult (fst pr) (snd pr)))%nat /\
       In (snd pr) (chunks (length LL) R (data mk))) /\
    data mm
    = concat (map (fun pr => row_mask p (zip_with Qmult (fst pr) (snd pr)))
                  LL) /\
    data mm2
    = concat (map (fun pr =>
                     row_mask p
                       (zip_with Qmult (fst pr)
                          (row_mask p (zip_with Qmult (fst pr) (snd pr)))))
                  LL) /\
    shape mm2 = shape mm.
Proof.
  destruct (prune_weight_inv _ _ _ H1) as (out & R & U & p & Ev & Ep & Hmm).
  destruct (view_rows_rect _ _ _ _ Ev) as (HlenU & HrectU & _).
  set (X := map (row_mask p) U).
  assert (HX : length X = out) by (unfold X; rewrite length_map; exact HlenU).
  assert (HXr : Forall (fun row => length row = R) X).
  { unfold X. rewrite Forall_map. eapply Forall_impl; [|exact HrectU].
    intros row Hrow. rewrite length_row_mask. exact Hrow. }
  destruct (view_rows_carry w mk out R U X (shape (tmul w mk)) Ev HX HXr)
    as (Ev2 & HU & HM).
  assert (Hmm' : mm = Tensor (shape (tmul w mk)) (concat X)) by exact Hmm.
  rewrite Hmm' in H2.
  rewrite (prune_weight_rows _ _ _ _ _ _ Ev2 Ep) in H2.
  injection H2 as <-.
  set (W := chunks out R (data w)) in *.
  set (M := chunks out R (data mk)) in *.
  pose proof (position_ok_lt _ _ _ Ep) as HpR.
  assert (HLL : length (combine W M) = out).
  { rewrite <- HlenU, HU, length_zip_with, length_combine. reflexivity. }
  exists (combine W M), p, R. split; [|split; [|split]].
  - intros pr Hpr. split.
    + assert (Hin : In (zip_with Qmult (fst pr) (snd pr)) U).
      { rewrite HU, (zip_with_as_map _ _ _ (zip_with Qmult) W M).
        apply (in_map (fun q => zip_with Qmult (fst q) (snd q))). exact Hpr. }
      rewrite Forall_forall in HrectU. rewrite (HrectU _ Hin). exact HpR.
    + rewrite HLL. destruct pr as [a b]. apply in_combine_r in Hpr. exact Hpr.
  - rewrite Hmm'. simpl. unfold X. rewrite HU.
    rewrite (zip_with_as_map _ _ _ (zip_with Qmult) W M), map_map.
    reflexivity.
  - simpl. unfold X. rewrite HU.
    rewrite (zip_with_as_map _ _ _ (zip_with Qmult) W M), map_map.
    rewrite (zip_with_map_combine _ _ _ (zip_with Qmult)
               (fun pr => row_mask p (zip_with Qmult (fst pr) (snd pr)))).
    rewrite map_map. reflexivity.
  - rewrite Hmm'. reflexivity.
Qed.

Lemma prune_weight_carry_monotone : (count_ones mm2 <= count_ones mm)%nat.
Proof.
  destruct weight_carry_rows as (LL & p & R & HLL & E1 & E2 & _).
  unfold count_ones. rewrite E1, E2.
  change (length (filter (Qeq_bool 1) ?l)) with (count (Qeq_bool 1) l).
  apply count_concat_map_le. intros pr Hpr.
  apply row_carry_monotone. apply HLL, Hpr.
Qed.

End WeightCarry.

Lemma Forall_firstn_skipn (A : Type) (P : A -> Prop) n (l : list A) :
  Forall P l -> Forall P (firstn n l) /\ Forall P (skipn n l).
Proof.
  intro H. rewrite <- (firstn_skipn n l) in H.
  apply Forall_app in H. exact H.
Qed.

Lemma chunks_Forall (P : Q -> Prop) k n : forall l,
  Forall P l -> Forall (Forall P) (chunks k n l).
Proof.
  induction k as [|k IH]; intros l H; simpl; [constructor|].
  destruct (Forall_firstn_skipn _ P n l H) as [Hf Hs].
  constructor; [exact Hf|apply IH, Hs].
Qed.

Lemma all_ones_repeat (l : list Q) :
  Forall (fun x => x = 1) l -> l = repeat 1 (length l).
Proof.
  induction 1 as [|x l Hx _ IH]; [reflexivity|].
  simpl. rewrite Hx, <- IH. reflexivity.
Qed.

(** Starting from a mask of ones, pruning again with [carry_mask] under
    ['weight'] granularity returns the same mask. *)
Lemma prune_weight_carry_same w mk f mm mm2 :
  prune_weight (tmul w mk) f = Ok mm ->
  prune_weight (tmul w mm) f = Ok mm2 ->
  Forall (fun x => x = 1) (data mk) ->
  mm2 = mm.
Proof.
  intros H1 H2 Hones.
  destruct (weight_carry_rows w mk f mm mm2 H1 H2)
    as (LL & p & R & HLL & E1 & E2 & Es).
  destruct mm as [s1 d1], mm2 as [s2 d2]. simpl in *. subst s2.
  f_equal. rewrite E1, E2. f_equal. apply map_ext_in. intros pr Hpr.
  destruct (HLL pr Hpr) as [Hp Hin].
  apply row_carry_same; [exact Hp|].
  pose proof (chunks_Forall (fun x => x = 1) (length LL) R _ Hones) as HF.
  rewrite Forall_forall in HF. specialize (HF _ Hin).
  eapply Forall_impl; [|exact HF]. intros x ->. reflexivity.
Qed.

(** ** The norm as the pruner needs it *)

Lemma sum_squares_nonneg v : 0 <= sum_squares v.
Proof.
  induction v as [|x v IH]; simpl; [apply Qle_refl|].
  assert (0 <= x * x) by Lqa.nra. Lqa.lra.
Qed.

Lemma rational_lib_laws : norm_laws rational_lib.
Proof.
  split; [exact sum_squares_nonneg|]. split.
  - induction 1 as [|x v Hx _ IH]; simpl; [reflexivity|].
    simpl in IH. rewrite Hx, IH. ring.
  - induction v as [|x v IH]; simpl; intro H; [constructor|].
    pose proof (sum_squares_nonneg v) as Hv.
    assert (Hxx : 0 <= x * x) by Lqa.nra.
    assert (Hx0 : x * x == 0) by Lqa.lra.
    assert (Hv0 : sum_squares v == 0) by Lqa.lra.
    constructor; [|apply IH, Hv0].
    apply Qmult_integral in Hx0. destruct Hx0; assumption.
Qed.

(** ** One layer, pruned twice with [carry_mask] (['unit'] granularity) *)

Lemma unit_first_eq {FL : FloatLib} LL p R pr :
  unit_first LL p R pr
  = repeat (1 - float_of_bool
                  (Qltb (unit_norm1 pr)
                        (nth p (torch_sort (map unit_norm1 LL)) 0))) R.
Proof. reflexivity. Qed.

Lemma unit_second_eq {FL : FloatLib} LL p R pr :
  unit_second LL p R pr
  = repeat (1 - float_of_bool
                  (Qltb (unit_norm2 LL p R pr)
                        (nth p (torch_sort (map (unit_norm2 LL p R) LL)) 0)))
           R.
Proof. reflexivity. Qed.

Lemma zip_zero_row a R :
  Forall (fun x => x == 0) (zip_with Qmult a (repeat (1 - 1) R)).
Proof.
  revert R. induction a as [|x a IH]; intros [|R]; simpl; try constructor.
  - simpl. ring.
  - apply IH.
Qed.

Lemma zip_one_row a : forall b R,
  length (zip_with Qmult a b) = R ->
  Forall (fun x => x == 0) (zip_with Qmult a (repeat (1 - 0) R)) ->
  Forall (fun x => x == 0) (zip_with Qmult a b).
Proof.
  induction a as [|x a IH]; intros [|y b] [|R] Hlen H; simpl in *;
    try constructor; try discriminate.
  - inversion H as [|? ? Hx _]; subst. simpl in Hx.
    assert (x == 0) by Lqa.lra. simpl. rewrite H0. ring.
  - inversion H as [|? ? _ Hrest]; subst.
    apply (IH b R); [|exact Hrest].
    unfold zip_with in Hlen. simpl in Hlen. injection Hlen as Hlen.
    exact Hlen.
Qed.

Section UnitCarry.

Context {FL : FloatLib}.
Variables (w mk : tensor) (f : Q) (mm mm2 : tensor).
Hypothesis H1 : prune_unit (tmul w mk) f = Ok mm.
Hypothesis H2 : prune_unit (tmul w mm) f = Ok mm2.

Lemma unit_carry_rows :
  exists (LL : list (list Q * list Q)) p R,
    (p < length LL)%nat /\
    (forall pr, In pr LL ->
       length (zip_with Qmult (fst pr) (snd pr)) = R /\
       length (snd pr) = R /\
       In (snd pr) (chunks (length LL) R (data mk))) /\
    data mm = concat (map (unit_first LL p R) LL) /\
    data mm2 = concat (map (unit_second LL p R) LL) /\
    shape mm2 = shape mm.
Proof.
  destruct (prune_unit_inv _ _ _ H1) as (out & R & U & p & Ev & Ep & Hmm).
  destruct (view_rows_rect _ _ _ _ Ev) as (HlenU & HrectU & _).
  set (t1 := nth p (torch_sort (map torch_norm U)) 0) in *.
  set (X := map (unit_mask t1 R) U).
  assert (HX : length X = out) by (unfold X; rewrite length_map; exact HlenU).
  assert (HXr : Forall (fun row => length row = R) X).
  { unfold X. rewrite Forall_map. rewrite Forall_forall.
    intros row _. apply length_unit_mask. }
  destruct (view_rows_carry w mk out R U X (shape (tmul w mk)) Ev HX HXr)
    as (Ev2 & HU & HM).
  assert (Hmm' : mm = Tensor (shape (tmul w mk)) (concat X)) by exact Hmm.
  rewrite Hmm' in H2.
  rewrite (prune_unit_rows _ _ _ _ _ _ Ev2 Ep) in H2.
  injection H2 as <-.
  set (W := chunks out R (data w)) in *.
  set (M := chunks out R (data mk)) in *.
  pose proof (position_ok_lt _ _ _ Ep) as Hpout.
  assert (HLL : length (combine W M) = out).
  { rewrite <- HlenU, HU, length_zip_with, length_combine. reflexivity. }
  assert (HUmap : U = map (fun pr => zip_with Qmult (fst pr) (snd pr))
                          (combine W M)) by exact HU.
  assert (Ht1 : t1 = nth p (torch_sort (map unit_norm1 (combine W M))) 0).
  { unfold t1. rewrite HUmap, map_map. reflexivity. }
  assert (HXmap : X = map (unit_first (combine W M) p R) (combine W M)).
  { unfold X. rewrite HUmap, map_map. unfold unit_first.
    rewrite <- Ht1. reflexivity. }
  exists (combine W M), p, R. split; [|split; [|split; [|split]]].
  - rewrite HLL. exact Hpout.
  - intros pr Hpr.
    assert (Hin : In (zip_with Qmult (fst pr) (snd pr)) U).
    { rewrite HUmap.
      apply (in_map (fun q => zip_with Qmult (fst q) (snd q))). exact Hpr. }
    assert (HinM : In (snd pr) M).
    { destruct pr as [a b]. apply in_combine_r in Hpr. exact Hpr. }
    rewrite Forall_forall in HrectU, HM.
    split; [apply HrectU, Hin|]. split; [apply HM, HinM|].
    rewrite HLL. exact HinM.
  - rewrite Hmm'. simpl. rewrite HXmap. reflexivity.
  - simpl. rewrite HXmap.
    rewrite (zip_with_map_combine _ _ _ (zip_with Qmult)
               (unit_first (combine W M) p R)).
    rewrite !map_map. reflexivity.
  - rewrite Hmm'. reflexivity.
Qed.

Hypothesis Hlaws : norm_laws FL.

Section Rows.

Variables (LL : list (list Q * list Q)) (p R : nat).
Hypothesis HLL : forall pr, In pr LL ->
  length (zip_with Qmult (fst pr) (snd pr)) = R /\ length (snd pr) = R.

Let t1 := nth p (torch_sort (map unit_norm1 LL)) 0.

Lemma unit_pruned pr :
  In pr LL -> unit_norm1 pr < t1 -> unit_norm2 LL p R pr == 0.
Proof.
  intros _ H. destruct Hlaws as (_ & Hzero & _).
  unfold unit_norm2, unit_first, unit_mask. fold t1.
  apply Qltb_lt in H.
  change (unit_norm1 pr)
    with (torch_norm (zip_with Qmult (fst pr) (snd pr))) in H.
  rewrite H. simpl float_of_bool.
  apply Hzero, zip_zero_row.
Qed.

Lemma unit_kept pr :
  In pr LL -> t1 <= unit_norm1 pr ->
  unit_norm2 LL p R pr <= 0 -> unit_norm1 pr <= 0.
Proof.
  intros Hpr H Hz. destruct Hlaws as (Hnn & Hzero & Hdef).
  unfold unit_norm2, unit_first, unit_mask in Hz. fold t1 in Hz.
  apply Qltb_ge in H.
  change (unit_norm1 pr)
    with (torch_norm (zip_with Qmult (fst pr) (snd pr))) in H.
  rewrite H in Hz. simpl float_of_bool in Hz.
  assert (Hz0 : torch_norm (zip_with Qmult (fst pr) (repeat (1 - 0) R)) == 0)
    by (apply Qle_antisym; [exact Hz|apply Hnn]).
  apply Hdef in Hz0.
  unfold unit_norm1. rewrite Hzero; [apply Qle_refl|].
  apply (zip_one_row _ _ R); [apply HLL, Hpr|exact Hz0].
Qed.

Lemma unit_same pr :
  In pr LL -> Forall (fun x => x = 1) (snd pr) ->
  t1 <= unit_norm1 pr -> unit_norm2 LL p R pr == unit_norm1 pr.
Proof.
  intros Hpr Hones H.
  unfold unit_norm2, unit_first, unit_mask. fold t1.
  apply Qltb_ge in H.
  change (unit_norm1 pr)
    with (torch_norm (zip_with Qmult (fst pr) (snd pr))) in H.
  rewrite H. simpl float_of_bool.
  unfold unit_norm1.
  rewrite (all_ones_repeat _ Hones) at 1.
  destruct (HLL pr Hpr) as [_ Hlen]. rewrite Hlen. reflexivity.
Qed.

End Rows.

Lemma prune_unit_carry_monotone : (count_ones mm2 <= count_ones mm)%nat.
Proof.
  destruct unit_carry_rows as (LL & p & R & Hp & HLL & E1 & E2 & _).
  unfold count_ones. rewrite E1, E2.
  change (length (filter (Qeq_bool 1) ?l)) with (count (Qeq_bool 1) l).
  apply count_concat_map_le. intros pr Hpr.
  rewrite unit_first_eq, unit_second_eq.
  destruct (Qltb (unit_norm1 pr) (nth p (torch_sort (map unit_norm1 LL)) 0))
    eqn:E.
  - assert (E' : Qltb (unit_norm2 LL p R pr)
                   (nth p (torch_sort (map (unit_norm2 LL p R) LL)) 0) = true).
    { apply (carry_pruned_again LL unit_norm1 (unit_norm2 LL p R) p Hp).
      - intros. apply Hlaws.
      - apply unit_pruned.
      - apply unit_kept. intros q Hq. destruct (HLL q Hq) as (A & B & _).
        split; assumption.
      - exact Hpr.
      - exact E. }
    rewrite E'. apply Nat.le_refl.
  - simpl float_of_bool.
    rewrite (count_all (Qeq_bool 1) (repeat (1 - 0) R)).
    + rewrite repeat_length.
      etransitivity; [apply count_le_length|]. rewrite repeat_length.
      apply Nat.le_refl.
    + intros x Hx. apply repeat_spec in Hx. subst x. reflexivity.
Qed.

Lemma prune_unit_carry_same :
  Forall (fun x => x = 1) (data mk) -> mm2 = mm.
Proof.
  intro Hones.
  destruct unit_carry_rows as (LL & p & R & Hp & HLL & E1 & E2 & Es).
  destruct mm as [s1 d1], mm2 as [s2 d2]. simpl in *. subst s2.
  f_equal. rewrite E1, E2. f_equal. apply map_ext_in. intros pr Hpr.
  rewrite unit_first_eq, unit_second_eq.
  do 3 f_equal.
  assert (HLL' : forall q, In q LL ->
            length (zip_with Qmult (fst q) (snd q)) = R /\ length (snd q) = R).
  { intros q Hq. destruct (HLL q Hq) as (A & B & _). split; assumption. }
  apply (carry_same_mask LL unit_norm1 (unit_norm2 LL p R) p Hp).
  - intros. apply Hlaws.
  - apply unit_pruned.
  - intros q Hq. apply (unit_same LL p R HLL' q Hq).
    destruct (HLL q Hq) as (_ & _ & Hin).
    pose proof (chunks_Forall (fun x => x = 1) (length LL) R _ Hones) as HF.
    rewrite Forall_forall in HF. apply HF, Hin.
  - exact Hpr.
Qed.

End UnitCarry.

(** ** [local_prune] twice with [carry_mask] *)

Lemma prune_carry_monotone {FL : FloatLib} w mk f ty mm mm2 :
  (ty = "unit"%string -> norm_laws FL) ->
  prune (tmul w mk) f ty = Ok mm ->
  prune (tmul w mm) f ty = Ok mm2 ->
  (count_ones mm2 <= count_ones mm)%nat.
Proof.
  unfold prune. intros Hlaws H1 H2.
  destruct (String.eqb ty "weight").
  - exact (prune_weight_carry_monotone w mk f mm mm2 H1 H2).
  - destruct (String.eqb ty "unit") eqn:E; [|discriminate].
    apply String.eqb_eq in E.
    exact (prune_unit_carry_monotone w mk f mm mm2 H1 H2 (Hlaws E)).
Qed.

Lemma prune_carry_same {FL : FloatLib} w mk f ty mm mm2 :
  (ty = "unit"%string -> norm_laws FL) ->
  Forall (fun x => x = 1) (data mk) ->
  prune (tmul w mk) f ty = Ok mm ->
  prune (tmul w mm) f ty = Ok mm2 ->
  mm2 = mm.
Proof.
  unfold prune. intros Hlaws Hones H1 H2.
  destruct (String.eqb ty "weight").
  - exact (prune_weight_carry_same w mk f mm mm2 H1 H2 Hones).
  - destruct (String.eqb ty "unit") eqn:E; [|discriminate].
    apply String.eqb_eq in E.
    exact (prune_unit_carry_same w mk f mm mm2 H1 H2 (Hlaws E) Hones).
Qed.

Lemma no_more_ones_refl l : Forall2 no_more_ones l l.
Proof.
  induction l; constructor; [apply Nat.le_refl|assumption].
Qed.

Section LocalCarry.

Context {FL : FloatLib}.
Variables (self : Pruner.t) (f : Q).

Hypothesis Hcarry : Args.carry_mask (Pruner.args self) = true.
Hypothesis Hlaws :
  Args.prune_type (Pruner.args self) = "unit"%string -> norm_laws FL.

Let final := Args.final_sparsity (Pruner.args self).
Let ty := Args.prune_type (Pruner.args self).

Lemma carry_input w k :
  (if Args.carry_mask (Pruner.args self) then tmul w k else w) = tmul w k.
Proof. rewrite Hcarry. reflexivity. Qed.

Lemma local_prune_carry_ok w mk r mm :
  below_final mk final = true ->
  prune (tmul w mk) f ty = Ok mm ->
  fst (Pruner.local_prune self (Prunable w mk :: r) f)
  = Prunable w mm :: fst (Pruner.local_prune self r f).
Proof.
  intros Eb Ep. rewrite <- (carry_input w mk) in Ep.
  rewrite (local_prune_ok self w mk r f mm Eb Ep). reflexivity.
Qed.

Lemma local_prune_carry_raise w mk r e :
  below_final mk final = true ->
  prune (tmul w mk) f ty = Raise e ->
  fst (Pruner.local_prune self (Prunable w mk :: r) f) = Prunable w mk :: r.
Proof.
  intros Eb Ep. rewrite <- (carry_input w mk) in Ep.
  rewrite (local_prune_raise self w mk r f e Eb Ep). reflexivity.
Qed.

Lemma local_prune_carry_skip w mk r :
  below_final mk final = false ->
  fst (Pruner.local_prune self (Prunable w mk :: r) f)
  = Prunable w mk :: fst (Pruner.local_prune self r f).
Proof.
  intros Eb. rewrite (local_prune_skip self w mk r f Eb). reflexivity.
Qed.

Lemma local_prune_twice_monotone m :
  Forall2 no_more_ones
    (masks_of (fst (Pruner.local_prune self m f)))
    (masks_of (fst (Pruner.local_prune self
                      (fst (Pruner.local_prune self m f)) f))).
Proof.
  induction m as [|[|w mk] r IH].
  - constructor.
  - rewrite local_prune_other. cbn [fst].
    rewrite local_prune_other. cbn [fst masks_of]. exact IH.
  - destruct (below_final mk final) eqn:Eb.
    + destruct (prune (tmul w mk) f ty) as [mm|e] eqn:Ep.
      * rewrite (local_prune_carry_ok w mk r mm Eb Ep).
        destruct (below_final mm final) eqn:Eb'.
        -- destruct (prune (tmul w mm) f ty) as [mm2|e2] eqn:Ep2.
           ++ rewrite (local_prune_carry_ok w mm _ mm2 Eb' Ep2).
              cbn [masks_of]. constructor; [|exact IH].
              exact (prune_carry_monotone w mk f ty mm mm2 Hlaws Ep Ep2).
           ++ rewrite (local_prune_carry_raise w mm _ e2 Eb' Ep2).
              apply no_more_ones_refl.
        -- rewrite (local_prune_carry_skip w mm _ Eb').
           cbn [masks_of]. constructor; [apply Nat.le_refl|exact IH].
      * rewrite (local_prune_carry_raise w mk r e Eb Ep).
        rewrite (local_prune_carry_raise w mk r e Eb Ep).
        apply no_more_ones_refl.
    + rewrite (local_prune_carry_skip w mk r Eb).
      rewrite (local_prune_carry_skip w mk _ Eb).
      cbn [masks_of]. constructor; [apply Nat.le_refl|exact IH].
Qed.

Lemma local_prune_idem_fresh m :
  fresh_masks m ->
  fst (Pruner.local_prune self (fst (Pruner.local_prune self m f)) f)
  = fst (Pruner.local_prune self m f).
Proof.
  unfold fresh_masks.
  induction m as [|[|w mk] r IH]; intro Hfresh.
  - reflexivity.
  - rewrite local_prune_other. cbn [fst].
    rewrite local_prune_other. cbn [fst]. rewrite IH; [reflexivity|].
    exact Hfresh.
  - cbn [masks_of] in Hfresh.
    inversion Hfresh as [|? ? Hones Hrest]; subst.
    destruct (below_final mk final) eqn:Eb.
    + destruct (prune (tmul w mk) f ty) as [mm|e] eqn:Ep.
      * rewrite (local_prune_carry_ok w mk r mm Eb Ep).
        destruct (below_final mm final) eqn:Eb'.
        -- destruct (prune (tmul w mm) f ty) as [mm2|e2] eqn:Ep2.
           ++ rewrite (local_prune_carry_ok w mm _ mm2 Eb' Ep2).
              rewrite (prune_carry_same w mk f ty mm mm2 Hlaws Hones Ep Ep2).
              rewrite (IH Hrest). reflexivity.
           ++ rewrite (local_prune_carry_raise w mm _ e2 Eb' Ep2).
              reflexivity.
        -- rewrite (local_prune_carry_skip w mm _ Eb').
           rewrite (IH Hrest). reflexivity.
      * rewrite (local_prune_carry_raise w mk r e Eb Ep).
        rewrite (local_prune_carry_raise w mk r e Eb Ep). reflexivity.
    + rewrite (local_prune_carry_skip w mk r Eb).
      rewrite (local_prune_carry_skip w mk _ Eb).
      rewrite (IH Hrest). reflexivity.
Qed.

End LocalCarry.

(** C6: with [carry_mask] enabled, a second [local_prune] with the same
    fraction never increases the number of ones in any layer's mask with
    respect to the mask the first call left; a layer whose guard passes is
    pruned on [weight * mask].  (Under ['unit'] granularity the norm is
    assumed non-negative and zero exactly on zero vectors.) *)
Theorem local_prune_carry_monotone {FL : FloatLib} (self : Pruner.t)
        (m : model) (f : Q) :
  Args.carry_mask (Pruner.args self) = true ->
  (Args.prune_type (Pruner.args self) = "unit"%string -> norm_laws FL) ->
  let m1 := fst (Pruner.local_prune self m f) in
  let m2 := fst (Pruner.local_prune self m1 f) in
  Forall2 (fun first second => (count_ones second <= count_ones first)%nat)
          (masks_of m1) (masks_of m2) /\
  (forall w mk r,
     below_final mk (Args.final_sparsity (Pruner.args self)) = true ->
     fst (Pruner.local_prune self (Prunable w mk :: r) f)
     = match prune (tmul w mk) f (Args.prune_type (Pruner.args self)) with
       | Ok module_mask =>
           Prunable w module_mask :: fst (Pruner.local_prune self r f)
       | Raise _ => Prunable w mk :: r
       end).
Proof.
  intros Hcarry Hlaws m1 m2. split.
  - exact (local_prune_twice_monotone self f Hcarry Hlaws m).
  - intros w mk r Eb.
    destruct (prune (tmul w mk) f (Args.prune_type (Pruner.args self)))
      as [mm|e] eqn:Ep.
    + exact (local_prune_carry_ok self f Hcarry w mk r mm Eb Ep).
    + exact (local_prune_carry_raise self f Hcarry w mk r e Eb Ep).
Qed.

Lemma local_prune_carry_monotone_witness :
  let self := Pruner.init carry_unit_args two_layers in
  let m1 := fst (Pruner.local_prune (FL := rational_lib) self two_layers
                                    (1 # 2)) in
  let m2 := fst (Pruner.local_prune (FL := rational_lib) self m1 (1 # 2)) in
  Forall2 (fun first second => (count_ones second <= count_ones first)%nat)
          (masks_of m1) (masks_of m2).
Proof.
  intros self m1 m2.
  apply (@local_prune_carry_monotone rational_lib self two_layers (1 # 2)).
  - reflexivity.
  - intros _. exact rational_lib_laws.
Defined.

(** ** [single_shot_prune] *)

(** C5, as the code has it: [single_shot_prune] touches the model at
    [step == start_step] only, whatever the configuration; and a second
    call at that step leaves the masks of the first call in place when
    [global_prune] is set, or [carry_mask] is off, or every mask was all
    ones before the first call (with [carry_mask] and ['unit'] granularity
    the norm is assumed non-negative and zero exactly on zero vectors). *)
Theorem single_shot_prune_once {FL : FloatLib} (self : Pruner.t) (m : model) :
  (forall step, step <> Pruner.start_step self ->
                Pruner.single_shot_prune self m step = (m, None)) /\
  (Args.global_prune (Pruner.args self) = true
   \/ Args.carry_mask (Pruner.args self) = false
   \/ (fresh_masks m /\
       (Args.prune_type (Pruner.args self) = "unit"%string ->
        norm_laws FL)) ->
   let m1 := fst (Pruner.single_shot_prune self m (Pruner.start_step self)) in
   fst (Pruner.single_shot_prune self m1 (Pruner.start_step self)) = m1).
Proof.
  split.
  - intros step Hstep. unfold Pruner.single_shot_prune.
    apply Z.eqb_neq in Hstep. rewrite Hstep. reflexivity.
  - intro H. unfold Pruner.single_shot_prune. rewrite Z.eqb_refl.
    destruct (Args.global_prune (Pruner.args self)) eqn:Eg.
    + apply global_prune_idem.
    + destruct (Args.carry_mask (Pruner.args self)) eqn:Ec.
      * destruct H as [H|[H|[Hfresh Hlaws]]]; try discriminate.
        apply (local_prune_idem_fresh self _ Ec Hlaws m Hfresh).
      * apply (local_prune_idem_nocarry self _ Ec).
Qed.

Lemma single_shot_prune_once_witness :
  let self := Pruner.init carry_unit_args two_layers in
  (forall step, step <> 10%Z ->
     Pruner.single_shot_prune (FL := rational_lib) self two_layers step
     = (two_layers, None)) /\
  let m1 := fst (Pruner.single_shot_prune (FL := rational_lib) self
                   two_layers 10) in
  fst (Pruner.single_shot_prune (FL := rational_lib) self m1 10) = m1.
Proof.
  intros self.
  destruct (@single_shot_prune_once rational_lib self two_layers)
    as [Hframe Hsame].
  split; [exact Hframe|].
  apply Hsame. right. right. split.
  - repeat constructor.
  - intros _. exact rational_lib_laws.
Defined.

(** C5 as stated fails with [carry_mask]: a mask that already has a zero
    can be revived by the first call and pruned differently by the second.
    Weight [[10, 0]] with mask [[0, 1]] and [final_sparsity = 1/2]: the
    first call sees [[0, 0]] and returns [[1, 1]], the second sees
    [[10, 0]] and returns [[1, 0]]. *)
Lemma single_shot_prune_once_counterexample :
  let self := Pruner.init carry_weight_args revived in
  let m1 := fst (Pruner.single_shot_prune (FL := rational_lib) self revived
                   (Pruner.start_step self)) in
  let m2 := fst (Pruner.single_shot_prune (FL := rational_lib) self m1
                   (Pruner.start_step self)) in
  masks_of m1 = [Tensor [1%nat; 2%nat] [1; 1]] /\
  masks_of m2 = [Tensor [1%nat; 2%nat] [1; 0]] /\
  m2 <> m1.
Proof.
  split; [reflexivity|]. split; [reflexivity|].
  vm_compute. discriminate.
Qed.

(** ** The cyclic ramps, on the reals *)

Section CyclicRamps.

Local Open Scope R_scope.

(** The fraction of the cycle that has elapsed lies in [[0, 1)], whatever
    the sign of the cycle length. *)
Lemma cycle_fraction (step c : Z) :
  c <> 0%Z -> 0 <= IZR (step mod c) / IZR c < 1.
Proof.
  intro Hc.
  destruct (Z_lt_le_dec 0 c) as [Hpos|Hneg].
  - destruct (Z.mod_pos_bound step c Hpos) as [H0 H1].
    apply IZR_le in H0. apply IZR_lt in H1. apply IZR_lt in Hpos.
    split.
    + apply Rmult_le_pos; [exact H0|].
      apply Rlt_le, Rinv_0_lt_compat, Hpos.
    + apply (Rmult_lt_reg_r (IZR c)); [exact Hpos|].
      unfold Rdiv. rewrite Rmult_assoc, Rinv_l by lra. lra.
  - assert (Hlt : (c < 0)%Z) by lia.
    destruct (Z.mod_neg_bound step c Hlt) as [H0 H1].
    apply IZR_lt in H0. apply IZR_le in H1. apply IZR_lt in Hlt.
    assert (Hinv : / IZR c < 0) by (apply Rinv_lt_0_compat, Hlt).
    split.
    + unfold Rdiv.
      replace (IZR (step mod c) * / IZR c)
        with ((- IZR (step mod c)) * (- / IZR c)) by ring.
      apply Rmult_le_pos; lra.
    + apply Ropp_lt_cancel.
      apply (Rmult_lt_reg_r (- IZR c)); [lra|].
      unfold Rdiv.
      replace (- (IZR (step mod c) * / IZR c) * - IZR c)
        with (IZR (step mod c) * (/ IZR c * IZR c)) by ring.
      rewrite Rinv_l by lra. lra.
Qed.

(** C7: under the ramps ['half_cycle'] and ['full_cycle'], for every step,
    every [final_sparsity >= 0] and every cycle length other than 0,
    [compute_sparsity] returns a value in [[0, final_sparsity]], namely
    [final_sparsity * sin(pi/2 * (step mod cycle) / cycle)] and
    [final_sparsity * |sin(pi/2 * (step / cycle))|]. *)
Theorem compute_sparsity_cyclic_bounds
        (ramp_type : string) (initial_sparsity final_sparsity : R)
        (ramp_cycle_step start_step end_step step : Z) :
  ramp_type = "half_cycle"%string \/ ramp_type = "full_cycle"%string ->
  (0 <= step)%Z -> 0 <= final_sparsity -> ramp_cycle_step <> 0%Z ->
  exists v,
    compute_sparsity ramp_type initial_sparsity final_sparsity
                     ramp_cycle_step start_step end_step step = Ok v /\
    0 <= v <= final_sparsity /\
    (ramp_type = "half_cycle"%string ->
     v = final_sparsity
         * sin (PI / 2 * IZR (step mod ramp_cycle_step)
                / IZR ramp_cycle_step)) /\
    (ramp_type = "full_cycle"%string ->
     v = final_sparsity
         * Rabs (sin (PI / 2 * (IZR step / IZR ramp_cycle_step)))).
Proof.
  intros Hty _ Hfinal Hc.
  apply Z.eqb_neq in Hc as Ec.
  destruct Hty as [-> | ->]; unfold compute_sparsity; simpl; rewrite Ec;
    eexists; (split; [reflexivity|]);
    (split; [|split; intro Hs; first [discriminate Hs|reflexivity]]).
  - destruct (cycle_fraction step ramp_cycle_step Hc) as [H0 H1].
    pose proof PI_RGT_0 as Hpi.
    set (x := IZR (step mod ramp_cycle_step) / IZR ramp_cycle_step) in *.
    replace (PI / 2 * IZR (step mod ramp_cycle_step) / IZR ramp_cycle_step)
      with (PI / 2 * x) by (unfold x; field; apply not_0_IZR, Hc).
    assert (Hlo : 0 <= PI / 2 * x) by (apply Rmult_le_pos; lra).
    assert (Hhi : PI / 2 * x <= PI).
    { assert (PI / 2 * x <= PI / 2 * 1)
        by (apply Rmult_le_compat_l; lra). lra. }
    pose proof (sin_ge_0 _ Hlo Hhi) as Hs0.
    destruct (SIN_bound (PI / 2 * x)) as [_ Hs1].
    split; [apply Rmult_le_pos; assumption|].
    rewrite <- (Rmult_1_r final_sparsity) at 2.
    apply Rmult_le_compat_l; assumption.
  - set (y := sin (PI / 2 * (IZR step / IZR ramp_cycle_step))).
    pose proof (Rabs_pos y) as Ha0.
    assert (Ha1 : Rabs y <= 1).
    { apply Rabs_le. unfold y. apply SIN_bound. }
    split; [apply Rmult_le_pos; assumption|].
    rewrite <- (Rmult_1_r final_sparsity) at 2.
    apply Rmult_le_compat_l; assumption.
Qed.

Lemma compute_sparsity_cyclic_bounds_witness :
  exists v,
    compute_sparsity "half_cycle" 0 (1 / 2) 10%Z 0%Z 100%Z 3%Z = Ok v /\
    0 <= v <= 1 / 2 /\
    ("half_cycle"%string = "half_cycle"%string ->
     v = 1 / 2 * sin (PI / 2 * IZR (3 mod 10) / IZR 10)) /\
    ("half_cycle"%string = "full_cycle"%string ->
     v = 1 / 2 * Rabs (sin (PI / 2 * (IZR 3 / IZR 10)))).
Proof.
  apply (compute_sparsity_cyclic_bounds "half_cycle" 0 (1 / 2) 10 0 100 3).
  - left. reflexivity.
  - lia.
  - lra.
  - discriminate.
Defined.

End CyclicRamps.

(** ** The PGD attack stays in the box, and in the ball up to rounding *)

Lemma clamp_between lo hi x : lo <= hi -> lo <= clamp lo hi x <= hi.
Proof.
  intro H. unfold clamp.
  destruct (Q.max_spec x lo) as [[A E1]|[A E1]];
    destruct (Q.min_spec (Qmax x lo) hi) as [[B E2]|[B E2]];
    rewrite E2; rewrite ?E1 in *; split; Lqa.lra.
Qed.

(** Clamping to [[lo, hi]] does not move a point away from a point of
    [[lo, hi]]. *)
Lemma clamp_closer lo hi x y eps :
  lo <= x <= hi -> - eps <= y - x <= eps ->
  - eps <= clamp lo hi y - x <= eps.
Proof.
  intros [Hl Hh] [H1 H2]. unfold clamp.
  destruct (Q.max_spec y lo) as [[A E1]|[A E1]];
    destruct (Q.min_spec (Qmax y lo) hi) as [[B E2]|[B E2]];
    rewrite E2; rewrite ?E1 in *; split; Lqa.lra.
Qed.

(** One rounded sum [x + d] with [x] in the box and [d] within the budget,
    clamped to the box. *)
Lemma entry_near_ball prec budget x d :
  0 <= x <= 1 -> - budget <= d <= budget ->
  in_box_near_ball prec budget x (clamp 0 1 (float_round prec (x + d))).
Proof.
  intros Hx Hd. split; [apply clamp_between; discriminate|].
  pose proof (float_round_error prec (x + d)) as He.
  pose proof (pow2_pos (- prec)) as Hp.
  assert (Ha : Qabs (x + d) <= 1 + budget).
  { apply Qabs_Qle_condition. split; Lqa.lra. }
  assert (Hm : Qabs (x + d) * 2 ^ (- prec) <= 2 ^ (- prec) * (1 + budget)).
  { rewrite (Qmult_comm (Qabs (x + d))).
    apply Qmult_le_l; assumption. }
  assert (He' : Qabs (float_round prec (x + d) - (x + d))
                <= 2 ^ (- prec) * (1 + budget))
    by (eapply Qle_trans; eassumption).
  apply Qabs_Qle_condition in He'. destruct He' as [E1 E2].
  apply Qabs_Qle_condition. apply clamp_closer; [exact Hx|].
  split; Lqa.lra.
Qed.

(** A perturbation within the budget, added to the images and clamped to
    the box. *)
Lemma perturb_near_ball prec budget : forall images delta,
  length delta = length images ->
  Forall (fun x => 0 <= x <= 1) images ->
  Forall (fun d => - budget <= d <= budget) delta ->
  Forall2 (in_box_near_ball prec budget) images
          (map (clamp 0 1)
               (zip_with (fun x d => float_round prec (x + d)) images delta)).
Proof.
  unfold zip_with.
  induction images as [|x images IH]; intros [|d delta] Hlen Hbox Hd;
    simpl in *; try discriminate; constructor.
  - inversion Hbox as [|? ? Hx _]; inversion Hd as [|? ? Hdx _]; subst.
    apply entry_near_ball; assumption.
  - inversion Hbox; inversion Hd; subst.
    apply IH; [lia|assumption|assumption].
Qed.

Lemma start_near_ball prec budget images :
  0 <= budget -> Forall (fun x => 0 <= x <= 1) images ->
  Forall2 (in_box_near_ball prec budget) images images.
Proof.
  intros Hb. pose proof (pow2_pos (- prec)) as Hp.
  assert (Hr : 0 <= 2 ^ (- prec) * (1 + budget)).
  { apply Qmult_le_0_compat; Lqa.lra. }
  induction 1 as [|x l Hx _ IH]; constructor; [|exact IH].
  split; [exact Hx|].
  apply Qabs_Qle_condition. split; Lqa.lra.
Qed.

Section PGDBounds.

Variables (Model Labels : Type).
Variable backward : Model -> Labels -> list Q -> result (list Q) * Model.
Hypothesis grad_shape :
  forall net y x g, fst (backward net y x) = Ok g -> length g = length x.

Variables (prec : Z) (self : PGD.t) (labels : Labels) (eps : Q).
Variable images : list Q.
Hypothesis Hbox : Forall (fun x => 0 <= x <= 1) images.
Hypothesis Heps : 0 <= eps.

Lemma iteration_near_ball net adv_images adv net' :
  length adv_images = length images ->
  PGD.iteration Model Labels backward prec self net labels eps images
                adv_images = (Ok adv, net') ->
  Forall2 (in_box_near_ball prec (float_round prec eps)) images adv.
Proof.
  intros Hlen. unfold PGD.iteration.
  pose proof (grad_shape net labels adv_images) as Hg.
  destruct (backward net labels adv_images) as [[g|e] n']; cbn [bind];
    [|discriminate].
  intros [= <- _]. specialize (Hg g eq_refl).
  pose proof (float_round_nonneg prec eps Heps) as Hb.
  apply perturb_near_ball.
  - rewrite length_map, !length_zip_with, length_map, Hg. lia.
  - exact Hbox.
  - rewrite Forall_map. apply Forall_forall. intros z _.
    apply clamp_between. Lqa.lra.
Qed.

Lemma iterate_near_ball n : forall net adv_images adv net',
  Forall2 (in_box_near_ball prec (float_round prec eps)) images adv_images ->
  PGD.iterate Model Labels backward prec self n net labels eps images
              adv_images = (Ok adv, net') ->
  Forall2 (in_box_near_ball prec (float_round prec eps)) images adv.
Proof.
  induction n as [|n IH]; intros net adv_images adv net' H; simpl.
  - intros [= <- _]. exact H.
  - destruct (PGD.iteration Model Labels backward prec self net labels eps
                            images adv_images) as [[a|e] n1] eqn:E;
      [|discriminate].
    apply IH. eapply iteration_near_ball; [|exact E].
    symmetry. eapply Forall2_length. exact H.
Qed.

(** The loop returns when every gradient call does. *)
Lemma iterate_returns n :
  (forall net y x, exists g, fst (backward net y x) = Ok g) ->
  forall net adv_images,
  exists adv, fst (PGD.iterate Model Labels backward prec self n net labels
                               eps images adv_images) = Ok adv.
Proof.
  intros Hok. induction n as [|n IH]; intros net adv_images; simpl.
  - eexists. reflexivity.
  - unfold PGD.iteration.
    destruct (Hok net labels adv_images) as [g Hg].
    destruct (backward net labels adv_images) as [r n1].
    cbn [fst] in Hg. subst r. cbn [bind]. apply IH.
Qed.

(** The loop hands the model from one gradient call to the next and does
    nothing else to it. *)
Lemma iterate_keeps (Params : Type) (params : Model -> Params) n :
  (forall net y x, params (snd (backward net y x)) = params net) ->
  forall net adv_images,
  params (snd (PGD.iterate Model Labels backward prec self n net labels eps
                           images adv_images)) = params net.
Proof.
  intros Hkeep. induction n as [|n IH]; intros net adv_images; simpl.
  - reflexivity.
  - unfold PGD.iteration.
    pose proof (Hkeep net labels adv_images) as Hk.
    destruct (backward net labels adv_images) as [[g|e] n1];
      cbn [bind snd] in *.
    + rewrite IH. exact Hk.
    + exact Hk.
Qed.

End PGDBounds.

(** C10, as the code has it.  The images lie in [[0, 1]], the budget is
    [eps >= 0] (the one passed, or the attack's own 0.3), the tensors have
    [prec] bits of precision, and the random start, when there is one, lies
    within the budget as the tensors hold it.  Whatever the model, the
    labels, the step size and the number of steps:
    - a batch that [forward] returns has the shape of the images, its
      entries lie in [[0, 1]], and each differs from the image's entry by at
      most [b + 2^-prec * (1 + b)], where [b] is [eps] rounded to the
      tensors' precision: the clamp bounds are cast to the dtype and the sum
      [images + delta] is rounded;
    - [forward] returns a batch when every gradient call returns;
    - [forward] itself never assigns to the model: what the gradient calls
      leave alone is as it was. *)
Theorem pgd_forward_bounds (Model Labels Params : Type)
        (backward : Model -> Labels -> list Q -> result (list Q) * Model)
        (params : Model -> Params) (prec : Z)
        (self : PGD.t) (net : Model) (images : tensor) (labels : Labels)
        (eps : option Q) (noise : list Q) :
  let eps_used := match eps with None => PGD.eps self | Some e => e end in
  let budget := float_round prec eps_used in
  (forall net y x g, fst (backward net y x) = Ok g -> length g = length x) ->
  Forall (fun x => 0 <= x <= 1) (data images) ->
  0 <= eps_used ->
  (PGD.random_start self = true ->
   length noise = length (data images) /\
   Forall (fun z => - budget <= z <= budget) noise) ->
  let result := PGD.forward Model Labels backward prec self net images labels
                            eps noise in
  (forall adv, fst result = Ok adv ->
     shape adv = shape images /\
     Forall2 (fun x a =>
                0 <= a <= 1 /\
                Qabs (a - x) <= budget + 2 ^ (- prec) * (1 + budget))
             (data images) (data adv)) /\
  ((forall net y x, exists g, fst (backward net y x) = Ok g) ->
   exists adv, fst result = Ok adv) /\
  ((forall net y x, params (snd (backward net y x)) = params net) ->
   params (snd result) = params net).
Proof.
  intros eps_used budget Hgrad Hbox Heps Hnoise result.
  unfold result, PGD.forward. fold eps_used.
  set (start := if PGD.random_start self
                then map (clamp 0 1)
                         (zip_with (fun a z => float_round prec (a + z))
                                   (data images) noise)
                else data images).
  assert (Hstart : Forall2 (in_box_near_ball prec budget) (data images) start).
  { unfold start. destruct (PGD.random_start self).
    - destruct (Hnoise eq_refl) as [Hlen Hrange].
      apply perturb_near_ball; assumption.
    - apply start_near_ball; [|assumption].
      apply float_round_nonneg, Heps. }
  split; [|split].
  - intros adv.
    destruct (PGD.iterate Model Labels backward prec self
                (Z.to_nat (PGD.steps self)) net labels eps_used (data images)
                start) as [[r|e] n1] eqn:E; cbn [fst bind]; [|discriminate].
    intros [= <-]. split; [reflexivity|]. cbn [data].
    exact (iterate_near_ball Model Labels backward Hgrad prec self labels
             eps_used (data images) Hbox Heps _ net start r n1 Hstart E).
  - intros Hok.
    destruct (iterate_returns Model Labels backward prec self labels eps_used
                (data images) (Z.to_nat (PGD.steps self)) Hok net start)
      as [r Hr].
    destruct (PGD.iterate Model Labels backward prec self
                (Z.to_nat (PGD.steps self)) net labels eps_used (data images)
                start) as [r' n1].
    cbn [fst] in Hr. subst r'. cbn [fst bind]. eexists. reflexivity.
  - intros Hkeep.
    pose proof (iterate_keeps Model Labels backward prec self labels eps_used
                  (data images) Params params (Z.to_nat (PGD.steps self))
                  Hkeep net start) as Hk.
    destruct (PGD.iterate Model Labels backward prec self
                (Z.to_nat (PGD.steps self)) net labels eps_used (data images)
                start) as [r' n1].
    exact Hk.
Qed.

Lemma pgd_forward_bounds_witness :
  let images := Tensor [2%nat] [0; 1 # 2] in
  let budget := float_round 24 (PGD.eps toy_attack) in
  let result :=
    PGD.forward unit unit (fun net _ x => (Ok x, net)) 24 toy_attack tt images
                tt None [float32 (1 # 10); - float32 (1 # 10)] in
  (forall adv, fst result = Ok adv ->
     shape adv = shape images /\
     Forall2 (fun x a =>
                0 <= a <= 1 /\
                Qabs (a - x) <= budget + 2 ^ (- (24)) * (1 + budget))
             (data images) (data adv)) /\
  ((forall (net : unit) (y : unit) (x : list Q),
      exists g, fst (Ok x, net) = Ok g) ->
   exists adv, fst result = Ok adv) /\
  ((forall (net : unit) (y : unit) (x : list Q),
      snd (Ok x, net) = net) ->
   snd result = tt).
Proof.
  intros images budget result.
  apply (pgd_forward_bounds unit unit unit (fun net _ x => (Ok x, net))
           (fun net => net) 24 toy_attack tt images tt None
           [float32 (1 # 10); - float32 (1 # 10)]).
  - intros net y x g [= <-]. reflexivity.
  - repeat constructor; discriminate.
  - vm_compute. discriminate.
  - intros _. split; [reflexivity|].
    repeat constructor; vm_compute; discriminate.
Defined.

(** C10 as stated fails on float32 tensors: from the images [[0, 0.5]] with
    the attack's own budget 0.3, three steps of size 0.1 and a random start
    of [[0.1, -0.1]], [forward] returns 0.30000001192092896 for the first
    entry, the float32 nearest to 0.3, which is more than 0.3 away from the
    image's 0. *)
Lemma pgd_forward_bounds_counterexample :
  let images := Tensor [2%nat] [0; 1 # 2] in
  let result :=
    PGD.forward unit unit (fun net _ x => (Ok x, net)) 24 toy_attack tt images
                tt None [float32 (1 # 10); - float32 (1 # 10)] in
  Forall (fun x => 0 <= x <= 1) (data images) /\
  0 <= PGD.eps toy_attack /\
  Forall (fun z => - PGD.eps toy_attack <= z <= PGD.eps toy_attack)
         [float32 (1 # 10); - float32 (1 # 10)] /\
  fst result
    = Ok (Tensor [2%nat] [5033165 # 16777216; 2936013 # 4194304]) /\
  ~ Qabs ((5033165 # 16777216) - 0) <= PGD.eps toy_attack /\
  ~ Qabs ((5033165 # 16777216) - 0) <= 3 # 10.
Proof.
  cbv zeta. split; [repeat constructor; discriminate|].
  split; [vm_compute; discriminate|].
  split; [repeat constructor; vm_compute; discriminate|].
  split; [vm_compute; reflexivity|].
  split; intro H; vm_compute in H; apply H; reflexivity.
Qed.

(** * Further properties of [prune] *)

Lemma Forall2_map_self (A B : Type) (P : A -> B -> Prop) (g : A -> B) l :
  (forall x, In x l -> P x (g x)) -> Forall2 P l (map g l).
Proof.
  induction l as [|a l IH]; intro H; simpl; constructor.
  - apply H. left. reflexivity.
  - apply IH. intros x Hx. apply H. right. exact Hx.
Qed.

Lemma length_concat_map (g : list Q -> list Q) rows :
  (forall row, In row rows -> length (g row) = length row) ->
  length (concat (map g rows)) = length (concat rows).
Proof.
  induction rows as [|row rows IH]; intro H; [reflexivity|].
  simpl. rewrite !length_app, H, IH; [reflexivity| |left; reflexivity].
  intros r Hr. apply H. right. exact Hr.
Qed.

Lemma keep_binary (b : bool) :
  1 - float_of_bool b = 0 \/ 1 - float_of_bool b = 1.
Proof. destruct b; [left|right]; reflexivity. Qed.


Lemma row_mask_binary p row : Forall (fun x => x = 0 \/ x = 1) (row_mask p row).
Proof.
  unfold row_mask. rewrite Forall_map. apply Forall_forall.
  intros x _. apply keep_binary.
Qed.

Lemma unit_mask_binary {FL : FloatLib} t R row :
  Forall (fun x => x = 0 \/ x = 1) (unit_mask t R row).
Proof.
  unfold unit_mask. apply Forall_forall. intros x Hx.
  apply repeat_spec in Hx. subst x. apply keep_binary.
Qed.

(** Whenever [prune] returns, the mask has the shape of the weight, one
    entry per weight entry, and every entry is 0 or 1. *)
Theorem prune_returns_binary_mask {FL : FloatLib} (w : tensor) (perc : Q)
        (prune_type : string) (mask : tensor) :
  prune w perc prune_type = Ok mask ->
  shape mask = shape w /\
  length (data mask) = numel w /\
  Forall (fun x => x = 0 \/ x = 1) (data mask).
Proof.
  unfold prune. intro H.
  destruct (String.eqb prune_type "weight").
  - destruct (prune_weight_inv _ _ _ H) as (out & R & rows & p & Ev & _ & ->).
    destruct (view_rows_rect _ _ _ _ Ev) as (_ & _ & Hcat).
    simpl. split; [reflexivity|]. split.
    + unfold numel. rewrite <- Hcat. apply length_concat_map.
      intros. apply length_row_mask.
    + apply Forall_concat. rewrite Forall_map. apply Forall_forall.
      intros row _. apply row_mask_binary.
  - destruct (String.eqb prune_type "unit"); [|discriminate].
    destruct (prune_unit_inv _ _ _ H) as (out & R & rows & p & Ev & _ & ->).
    destruct (view_rows_rect _ _ _ _ Ev) as (_ & Hrect & Hcat).
    simpl. split; [reflexivity|]. split.
    + unfold numel. rewrite <- Hcat. apply length_concat_map.
      intros row Hrow. rewrite length_unit_mask.
      rewrite Forall_forall in Hrect. symmetry. apply Hrect, Hrow.
    + apply Forall_concat. rewrite Forall_map. apply Forall_forall.
      intros row _. apply unit_mask_binary.
Qed.

Lemma prune_returns_binary_mask_witness :
  shape (Tensor [4%nat; 3%nat] [0; 1; 1; 0; 1; 1; 0; 1; 1; 0; 1; 1])
    = shape example_weight /\
  length [0; 1; 1; 0; 1; 1; 0; 1; 1; 0; 1; 1] = numel example_weight /\
  Forall (fun x => x = 0 \/ x = 1) [0; 1; 1; 0; 1; 1; 0; 1; 1; 0; 1; 1].
Proof.
  apply (@prune_returns_binary_mask rational_lib example_weight (1 # 2)
           "weight" (Tensor [4%nat; 3%nat]
                            [0; 1; 1; 0; 1; 1; 0; 1; 1; 0; 1; 1])).
  reflexivity.
Defined.





Lemma combine_map_self (A B : Type) (g : A -> B) (l : list A) :
  combine l (map g l) = map (fun x => (x, g x)) l.
Proof. induction l as [|a l IH]; simpl; [|rewrite IH]; reflexivity. Qed.

Lemma keep_zero_inv (b : bool) : 1 - float_of_bool b = 0 -> b = true.
Proof. destruct b; [reflexivity|discriminate]. Qed.

Lemma keep_one_inv (b : bool) : 1 - float_of_bool b = 1 -> b = false.
Proof. destruct b; [discriminate|reflexivity]. Qed.

(** Under ['weight'] granularity the entries pruned in a row are its
    smallest: every pruned entry is strictly smaller in magnitude than every
    entry kept in the same row. *)
Theorem prune_weight_prunes_smallest {FL : FloatLib} (w : tensor) (perc : Q)
        (mask : tensor) :
  prune w perc "weight" = Ok mask ->
  exists out R rows,
    view_rows w = Ok (out, R, rows) /\
    Forall2 (fun row mask_row =>
               forall x y,
                 In (x, 0) (combine row mask_row) ->
                 In (y, 1) (combine row mask_row) ->
                 Qabs x < Qabs y)
            rows (chunks out R (data mask)).
Proof.
  unfold prune. simpl. intro H.
  destruct (prune_weight_inv _ _ _ H) as (out & R & rows & p & Ev & _ & ->).
  destruct (view_rows_rect _ _ _ _ Ev) as (Hlen & Hrect & _).
  exists out, R, rows. split; [exact Ev|].
  simpl data. rewrite chunks_concat.
  - apply Forall2_map_self. intros row _ x y Hx Hy.
    unfold row_mask in Hx, Hy. rewrite combine_map_self in Hx, Hy.
    apply in_map_iff in Hx. destruct Hx as (x' & Ex & _).
    apply in_map_iff in Hy. destruct Hy as (y' & Ey & _).
    pose proof (f_equal fst Ex) as Ex1. pose proof (f_equal snd Ex) as Ex2.
    pose proof (f_equal fst Ey) as Ey1. pose proof (f_equal snd Ey) as Ey2.
    cbn [fst snd] in Ex1, Ex2, Ey1, Ey2. subst x' y'.
    apply keep_zero_inv in Ex2. apply keep_one_inv in Ey2.
    apply Qltb_lt in Ex2. apply Qltb_ge in Ey2.
    eapply Qlt_le_trans; eassumption.
  - rewrite length_map. exact Hlen.
  - rewrite Forall_map. eapply Forall_impl; [|exact Hrect].
    intros row Hrow. rewrite length_row_mask. exact Hrow.
Qed.

Lemma prune_weight_prunes_smallest_witness :
  exists out R rows,
    view_rows example_weight = Ok (out, R, rows) /\
    Forall2 (fun row mask_row =>
               forall x y,
                 In (x, 0) (combine row mask_row) ->
                 In (y, 1) (combine row mask_row) ->
                 Qabs x < Qabs y)
            rows
            (chunks out R [0; 1; 1; 0; 1; 1; 0; 1; 1; 0; 1; 1]).
Proof.
  apply (@prune_weight_prunes_smallest rational_lib example_weight (1 # 2)
           (Tensor [4%nat; 3%nat] [0; 1; 1; 0; 1; 1; 0; 1; 1; 0; 1; 1])).
  reflexivity.
Defined.





Lemma position_too_large n idx :
  (Z.of_nat n <= idx)%Z -> position n idx = Raise IndexError.
Proof.
  intro H. unfold position.
  replace (idx <? Z.of_nat n)%Z with false by (symmetry; apply Z.ltb_ge; lia).
  replace (idx <? 0)%Z with false by (symmetry; apply Z.ltb_ge; lia).
  rewrite !andb_false_r. reflexivity.
Qed.

Lemma rank_index_overflow f n :
  1 <= f -> (Z.of_nat n <= py_int (f * of_nat n))%Z.
Proof.
  intro Hf.
  assert (Hn : 0 <= of_nat n).
  { unfold of_nat. rewrite <- (Zle_Qle 0). lia. }
  assert (Hx : of_nat n <= f * of_nat n).
  { setoid_replace (of_nat n) with (1 * of_nat n) at 1 by ring.
    apply Qmult_le_compat_r; assumption. }
  rewrite py_int_nonneg by (eapply Qle_trans; eassumption).
  rewrite <- (Qfloor_Z (Z.of_nat n)). apply Qfloor_resp_le. exact Hx.
Qed.

(** Every fraction [f >= 1] makes [prune] raise [IndexError], under both
    granularities: the rank index reaches past the sorted values.  This is
    for sizes that are exact as floats (below [2^53]) and for indices that
    fit a 64-bit integer, here [f * numel <= 2^62]; beyond, indexing fails
    on the conversion of the index. *)
Theorem prune_fraction_too_large {FL : FloatLib} (w : tensor) (f : Q) :
  wf_tensor w -> shape w <> [] -> (0 < numel w)%nat ->
  (Z.of_nat (numel w) < 2 ^ 53)%Z -> 1 <= f ->
  f * of_nat (numel w) <= inject_Z (2 ^ 62) ->
  prune w f "weight" = Raise IndexError /\
  prune w f "unit" = Raise IndexError /\
  exists out R rows,
    view_rows w = Ok (out, R, rows) /\
    (Z.of_nat R <= py_int (f * of_nat R) < 2 ^ 63)%Z /\
    (Z.of_nat out <= py_int (f * of_nat out) < 2 ^ 63)%Z.
Proof.
  intros Hwf Hs Hn _ Hf Hbig.
  destruct (view_rows_nonempty w Hwf Hs Hn)
    as (out & R & Hv & Hout & HR & Hsize & _).
  assert (Hfit : forall k, (k <= numel w)%nat ->
                           (py_int (f * of_nat k) < 2 ^ 63)%Z).
  { intros k Hk.
    assert (Hk0 : 0 <= of_nat k).
    { unfold of_nat. rewrite <- (Zle_Qle 0). lia. }
    assert (Hkn : of_nat k <= of_nat (numel w)).
    { unfold of_nat. rewrite <- Zle_Qle. lia. }
    assert (Hx0 : 0 <= f * of_nat k).
    { apply Qmult_le_0_compat; [Lqa.lra|exact Hk0]. }
    assert (Hx1 : f * of_nat k <= f * of_nat (numel w)).
    { apply Qmult_le_l; [Lqa.lra|exact Hkn]. }
    rewrite (py_int_nonneg _ Hx0), Zlt_Qlt.
    eapply Qle_lt_trans; [apply Qfloor_le|].
    eapply Qle_lt_trans; [exact Hx1|].
    eapply Qle_lt_trans; [exact Hbig|].
    rewrite <- Zlt_Qlt. reflexivity. }
  split; [|split].
  - unfold prune, prune_weight. simpl. rewrite Hv. simpl.
    rewrite (position_too_large R _ (rank_index_overflow f R Hf)).
    reflexivity.
  - unfold prune, prune_unit. simpl. rewrite Hv. simpl.
    rewrite (position_too_large out _ (rank_index_overflow f out Hf)).
    reflexivity.
  - exists out, R, (chunks out R (data w)). split; [exact Hv|].
    split; (split; [apply rank_index_overflow, Hf|apply Hfit; nia]).
Qed.

Lemma prune_fraction_too_large_witness :
  prune (FL := rational_lib) example_weight (3 # 2) "weight"
    = Raise IndexError /\
  prune (FL := rational_lib) example_weight (3 # 2) "unit"
    = Raise IndexError /\
  exists out R rows,
    view_rows example_weight = Ok (out, R, rows) /\
    (Z.of_nat R <= py_int ((3 # 2) * of_nat R) < 2 ^ 63)%Z /\
    (Z.of_nat out <= py_int ((3 # 2) * of_nat out) < 2 ^ 63)%Z.
Proof.
  apply (@prune_fraction_too_large rational_lib example_weight (3 # 2)).
  - reflexivity.
  - discriminate.
  - unfold numel. simpl. lia.
  - reflexivity.
  - discriminate.
  - vm_compute. discriminate.
Defined.

(** * Further properties of [global_prune] *)

Lemma weights_of_skeleton m m' :
  skeleton m = skeleton m' -> weights_of m = weights_of m'.
Proof.
  revert m'. induction m as [|[|w mk] r IH]; intros [|[|w' mk'] r'] H;
    simpl in *; try discriminate; try reflexivity.
  - injection H as H. apply IH, H.
  - injection H as -> H. rewrite (IH r' H). reflexivity.
Qed.

Lemma skeleton_assign_masks masks : forall m c,
  skeleton (Pruner.assign_masks m masks c) = skeleton m.
Proof.
  induction m as [|[|w mk] r IH]; intros c; simpl; [reflexivity| |];
    rewrite IH; reflexivity.
Qed.

(** With enough masks the assignment does not look at the old ones. *)
Lemma assign_masks_skeleton masks : forall m m' c,
  skeleton m = skeleton m' ->
  (c + length (weights_of m) <= length masks)%nat ->
  Pruner.assign_masks m masks c = Pruner.assign_masks m' masks c.
Proof.
  induction m as [|[|w mk] r IH]; intros [|[|w' mk'] r'] c H Hc;
    simpl in *; try discriminate; try reflexivity.
  - injection H as H. rewrite (IH r' c H Hc). reflexivity.
  - injection H as -> H.
    rewrite (IH r' (S c) H) by lia.
    rewrite (nth_indep masks mk mk') by lia. reflexivity.
Qed.

Lemma keep_above_mask_for t w : mask_for w (Pruner.keep_above t w).
Proof.
  unfold mask_for, Pruner.keep_above, numel. simpl.
  split; [reflexivity|]. split; [apply length_map|].
  rewrite Forall_map. apply Forall_forall. intros x _.
  destruct (Qltb t (Qabs x)); [right|left]; reflexivity.
Qed.

(** What [global_prune] does when it reads a valid rank. *)
Lemma global_prune_at_rank m f p :
  weights_of m <> [] ->
  position (length (concat (map data (weights_of m))))
           (py_int (float_mul f
                      (of_nat (length (concat (map data (weights_of m)))))))
  = Ok p ->
  let threshold :=
    nth p (torch_sort (map Qabs (concat (map data (weights_of m))))) 0 in
  Pruner.global_prune m f
  = (Pruner.assign_masks m (map (Pruner.keep_above threshold) (weights_of m))
                         0, None) /\
  masks_of (fst (Pruner.global_prune m f))
  = map (Pruner.keep_above threshold) (weights_of m).
Proof.
  intros Hw Hp threshold.
  assert (E : Pruner.global_prune m f
              = (Pruner.assign_masks m
                   (map (Pruner.keep_above threshold) (weights_of m)) 0,
                 None)).
  { unfold Pruner.global_prune.
    destruct (weights_of m) as [|w0 ws] eqn:Ew; [congruence|].
    rewrite Hp. reflexivity. }
  split; [exact E|]. rewrite E. cbn [fst].
  destruct (assign_masks_spec
              (map (Pruner.keep_above threshold) (weights_of m)) m 0)
    as [Hm _]; [rewrite length_map; lia|].
  rewrite Hm. simpl skipn.
  rewrite <- (length_map (Pruner.keep_above threshold)) at 1.
  apply firstn_all.
Qed.

Lemma global_prune_cases m f :
  (exists e, Pruner.global_prune m f = (m, Some e)) \/
  (exists p,
     weights_of m <> [] /\
     position (length (concat (map data (weights_of m))))
              (py_int (float_mul f
                         (of_nat (length (concat (map data (weights_of m)))))))
     = Ok p).
Proof.
  unfold Pruner.global_prune.
  destruct (weights_of m) as [|w0 ws] eqn:Ew.
  - left. exists RuntimeError. reflexivity.
  - destruct (position _ _) as [p|e] eqn:Ep.
    + right. exists p. split; [discriminate|reflexivity].
    + left. exists e. reflexivity.
Qed.

(** [global_prune] never touches the weights, the plain modules or the order
    of the modules; when it raises, the model is as it was; when it returns,
    every mask-bearing layer holds a 0/1 mask of the shape of its weight. *)
Theorem global_prune_frame (m : model) (f : Q) :
  skeleton (fst (Pruner.global_prune m f)) = skeleton m /\
  (forall e, snd (Pruner.global_prune m f) = Some e ->
             fst (Pruner.global_prune m f) = m) /\
  (snd (Pruner.global_prune m f) = None ->
   Forall2 mask_for (weights_of m) (masks_of (fst (Pruner.global_prune m f)))).
Proof.
  destruct (global_prune_cases m f) as [[e E]|(p & Hw & Hp)].
  - rewrite E. cbn [fst snd]. split; [reflexivity|].
    split; [reflexivity|discriminate].
  - destruct (global_prune_at_rank m f p Hw Hp) as [E Hm].
    rewrite Hm. rewrite E. cbn [fst snd].
    split; [apply skeleton_assign_masks|]. split; [discriminate|].
    intros _. apply Forall2_map_self. intros w _. apply keep_above_mask_for.
Qed.

(** [global_prune] does not carry masks over: two models with the same
    modules and weights come out equal, whatever their masks were, unless
    the call raises (and then both raise alike). *)
Theorem global_prune_forgets_masks (m m' : model) (f : Q) :
  skeleton m = skeleton m' ->
  snd (Pruner.global_prune m f) = snd (Pruner.global_prune m' f) /\
  (snd (Pruner.global_prune m f) = None ->
   fst (Pruner.global_prune m f) = fst (Pruner.global_prune m' f)).
Proof.
  intro Hs. pose proof (weights_of_skeleton m m' Hs) as Hw.
  unfold Pruner.global_prune. rewrite <- Hw.
  destruct (weights_of m) as [|w0 ws] eqn:Ew.
  - split; [reflexivity|discriminate].
  - destruct (position _ _) as [p|e]; cbn [fst snd].
    + split; [reflexivity|]. intros _.
      apply assign_masks_skeleton; [exact Hs|].
      rewrite length_map, Ew. simpl. lia.
    + split; [reflexivity|discriminate].
Qed.

Lemma global_prune_forgets_masks_witness :
  let m := [Prunable two_by_two (Tensor [2%nat; 2%nat] [0; 1; 0; 1])] in
  let m' := [Prunable two_by_two (Tensor [2%nat; 2%nat] [1; 1; 1; 1])] in
  snd (Pruner.global_prune m (1 # 2)) = snd (Pruner.global_prune m' (1 # 2)) /\
  (snd (Pruner.global_prune m (1 # 2)) = None ->
   fst (Pruner.global_prune m (1 # 2)) = fst (Pruner.global_prune m' (1 # 2))).
Proof.
  apply (global_prune_forgets_masks
           [Prunable two_by_two (Tensor [2%nat; 2%nat] [0; 1; 0; 1])]
           [Prunable two_by_two (Tensor [2%nat; 2%nat] [1; 1; 1; 1])]
           (1 # 2)).
  reflexivity.
Defined.

(** For a fraction in [[0, 1)] (as a float) and at least one weight (and
    fewer than [2^53]), [global_prune] returns and keeps at most
    [total_count - idx - 1] weights, ties or not, where
    [idx = int(f * total_count)] is the rank index computed in floats: it
    always prunes the smallest magnitude, even at [f = 0]. *)
Theorem global_prune_prunes_at_least (m : model) (f : Q) :
  let total_count := length (concat (map data (weights_of m))) in
  let k := Z.to_nat (py_int (float_mul f (of_nat total_count))) in
  (0 < total_count)%nat -> (Z.of_nat total_count < 2 ^ 53)%Z ->
  0 <= f -> float64 f < 1 ->
  snd (Pruner.global_prune m f) = None /\
  (total_ones (masks_of (fst (Pruner.global_prune m f)))
   <= total_count - k - 1)%nat /\
  (total_ones (masks_of (fst (Pruner.global_prune m f))) < total_count)%nat.
Proof.
  intros total_count k Hn Hbig Hf0 Hf1.
  pose proof (float_rank_in_range f total_count Hf0 Hf1 Hn Hbig) as Hrange.
  assert (Hw : weights_of m <> []).
  { intro E. unfold total_count in Hn. rewrite E in Hn. simpl in Hn. lia. }
  assert (Hp : position total_count
                        (py_int (float_mul f (of_nat total_count))) = Ok k)
    by (apply position_in_range, Hrange).
  destruct (global_prune_at_rank m f k Hw Hp) as [E Hm].
  rewrite Hm, E. cbn [snd]. split; [reflexivity|].
  rewrite total_ones_keep_above.
  set (scores := map Qabs (concat (map data (weights_of m)))).
  assert (Hlen : length scores = total_count)
    by (unfold scores; apply length_map).
  assert (Hk : (k < length (torch_sort scores))%nat).
  { rewrite torch_sort_length, Hlen. unfold k. lia. }
  pose proof (rank_upto _ (torch_sort_sorted scores) k Hk) as Hu.
  rewrite (count_perm _ _ _ (torch_sort_perm scores)) in Hu.
  rewrite count_le_split in Hu.
  pose proof (count_trichotomy (nth k (torch_sort scores) 0) scores) as Ht.
  rewrite Hlen in Ht. lia.
Qed.

Lemma global_prune_prunes_at_least_witness :
  snd (Pruner.global_prune two_layers 0) = None /\
  (total_ones (masks_of (fst (Pruner.global_prune two_layers 0)))
   <= 16 - Z.to_nat (py_int (float_mul 0 (of_nat 16))) - 1)%nat /\
  (total_ones (masks_of (fst (Pruner.global_prune two_layers 0))) < 16)%nat.
Proof.
  apply (global_prune_prunes_at_least two_layers 0).
  - simpl. lia.
  - reflexivity.
  - discriminate.
  - reflexivity.
Defined.

(** [global_prune] raises and leaves the model alone when no module bears a
    mask ([torch.cat] of an empty list) and, with at least one weight (and
    fewer than [2^53]), for every fraction [f >= 1]: the rank index is out
    of range.  The index fits a 64-bit integer as long as
    [f * total_count <= 2^62]; beyond, indexing fails on the conversion of
    the index. *)
Theorem global_prune_errors (m : model) (f : Q) :
  let total_count := length (concat (map data (weights_of m))) in
  (weights_of m = [] -> Pruner.global_prune m f = (m, Some RuntimeError)) /\
  ((0 < total_count)%nat -> (Z.of_nat total_count < 2 ^ 53)%Z -> 1 <= f ->
   f * of_nat total_count <= inject_Z (2 ^ 62) ->
   (Z.of_nat total_count
    <= py_int (float_mul f (of_nat total_count)) < 2 ^ 63)%Z /\
   Pruner.global_prune m f = (m, Some IndexError)).
Proof.
  intro total_count. split.
  - intro E. unfold Pruner.global_prune. rewrite E. reflexivity.
  - intros Hn Hsmall Hf Hbig.
    pose proof (float_rank_overflow f total_count Hf Hsmall Hbig) as Hidx.
    split; [exact Hidx|].
    unfold Pruner.global_prune.
    destruct (weights_of m) as [|w0 ws] eqn:Ew;
      [unfold total_count in Hn; simpl in Hn; lia|].
    fold total_count.
    rewrite (position_too_large _ _ (proj1 Hidx)).
    reflexivity.
Qed.

Lemma global_prune_errors_witness :
  Pruner.global_prune [Other] (1 # 2) = ([Other], Some RuntimeError) /\
  (16 <= py_int (float_mul (3 # 2) (of_nat 16)) < 2 ^ 63)%Z /\
  Pruner.global_prune two_layers (3 # 2) = (two_layers, Some IndexError).
Proof.
  split.
  - apply (global_prune_errors [Other] (1 # 2)). reflexivity.
  - apply (global_prune_errors two_layers (3 # 2)).
    + simpl. lia.
    + reflexivity.
    + discriminate.
    + vm_compute. discriminate.
Defined.

(** * Further properties of [local_prune] *)

Lemma same_or_remasked_refl m : Forall2 same_or_remasked m m.
Proof. induction m; constructor; [left; reflexivity|assumption]. Qed.

Lemma prune_mask_shape {FL : FloatLib} u perc ty mask :
  prune u perc ty = Ok mask ->
  shape mask = shape u /\ length (data mask) = numel u /\
  Forall (fun x => x = 0 \/ x = 1) (data mask).
Proof.
  unfold prune. intro H.
  destruct (String.eqb ty "weight").
  - destruct (prune_weight_inv _ _ _ H) as (out & R & rows & p & Ev & _ & ->).
    destruct (view_rows_rect _ _ _ _ Ev) as (_ & _ & Hcat).
    simpl. split; [reflexivity|]. split.
    + unfold numel. rewrite <- Hcat. apply length_concat_map.
      intros. apply length_row_mask.
    + apply Forall_concat. rewrite Forall_map. apply Forall_forall.
      intros row _. apply row_mask_binary.
  - destruct (String.eqb ty "unit"); [|discriminate].
    destruct (prune_unit_inv _ _ _ H) as (out & R & rows & p & Ev & _ & ->).
    destruct (view_rows_rect _ _ _ _ Ev) as (_ & Hrect & Hcat).
    simpl. split; [reflexivity|]. split.
    + unfold numel. rewrite <- Hcat. apply length_concat_map.
      intros row Hrow. rewrite length_unit_mask.
      rewrite Forall_forall in Hrect. symmetry. apply Hrect, Hrow.
    + apply Forall_concat. rewrite Forall_map. apply Forall_forall.
      intros row _. apply unit_mask_binary.
Qed.

(** [local_prune] never touches the weights, the plain modules or the order
    of the modules, whether it returns or raises; a layer comes out with the
    mask it had or with a 0/1 mask of the shape of its weight. *)
Theorem local_prune_frame {FL : FloatLib} (self : Pruner.t) (m : model)
        (f : Q) :
  skeleton (fst (Pruner.local_prune self m f)) = skeleton m /\
  Forall2 same_or_remasked m (fst (Pruner.local_prune self m f)).
Proof.
  induction m as [|[|w mk] r [IH1 IH2]].
  - split; [reflexivity|constructor].
  - rewrite local_prune_other. cbn [fst]. simpl skeleton.
    split; [f_equal; exact IH1|].
    constructor; [left; reflexivity|exact IH2].
  - destruct (below_final mk (Args.final_sparsity (Pruner.args self)))
      eqn:Eb.
    + destruct (prune (if Args.carry_mask (Pruner.args self)
                       then tmul w mk else w)
                      f (Args.prune_type (Pruner.args self)))
        as [mm|e] eqn:Ep.
      * rewrite (local_prune_ok self w mk r f mm Eb Ep). cbn [fst].
        simpl skeleton. split; [f_equal; exact IH1|].
        constructor; [|exact IH2].
        right. exists w, mk, mm.
        destruct (prune_mask_shape _ _ _ _ Ep) as (Hs & _ & Hb).
        repeat split; try assumption.
        rewrite Hs. destruct (Args.carry_mask (Pruner.args self));
          reflexivity.
      * rewrite (local_prune_raise self w mk r f e Eb Ep). cbn [fst].
        split; [reflexivity|apply same_or_remasked_refl].
    + rewrite (local_prune_skip self w mk r f Eb). cbn [fst].
      simpl skeleton. split; [f_equal; exact IH1|].
      constructor; [left; reflexivity|exact IH2].
Qed.

(** ** The sparsity guard *)

Lemma rint_zero x : x == 0 -> rint x = 0%Z.
Proof.
  intro H. unfold rint.
  assert (Hf : Qfloor x = 0%Z) by (rewrite H; reflexivity).
  rewrite Hf.
  replace (Qltb (x - inject_Z 0) (1 # 2)) with true; [reflexivity|].
  symmetry. apply Qltb_lt. rewrite H. reflexivity.
Qed.

Lemma sum_list_repeat c n : sum_list (repeat c n) == c * of_nat n.
Proof.
  induction n as [|n IH].
  - simpl. unfold of_nat. simpl. ring.
  - change (sum_list (repeat c (S n))) with (c + sum_list (repeat c n)).
    rewrite IH. unfold of_nat. rewrite Nat2Z.inj_succ.
    unfold Z.succ. rewrite inject_Z_plus. ring.
Qed.

Lemma of_nat_pos n : (0 < n)%nat -> 0 < of_nat n.
Proof. intro H. unfold of_nat. rewrite <- (Zlt_Qlt 0). lia. Qed.

Lemma below_final_extremes (s : list nat) (n : nat) (final_sparsity : Q) :
  (0 < n)%nat ->
  below_final (Tensor s (repeat 1 n)) final_sparsity
    = Qle_bool 0 final_sparsity /\
  below_final (Tensor s (repeat 0 n)) final_sparsity
    = Qle_bool 1 final_sparsity /\
  below_final (Tensor s []) final_sparsity = false.
Proof.
  intro Hn. pose proof (of_nat_pos n Hn) as Hpos.
  assert (Hne : (n =? 0)%nat = false) by (apply Nat.eqb_neq; lia).
  unfold below_final, numel. simpl data. rewrite !repeat_length, Hne.
  split; [|split; [|reflexivity]].
  - assert (E : round2 (1 - sum_list (repeat 1 n) / of_nat n) == 0).
    { unfold round2. rewrite rint_zero; [reflexivity|].
      rewrite sum_list_repeat. field. Lqa.lra. }
    apply Qleb_comp; [exact E|reflexivity].
  - assert (E : round2 (1 - sum_list (repeat 0 n) / of_nat n) == 1).
    { unfold round2. rewrite (rint_integer _ 100); [reflexivity|].
      rewrite sum_list_repeat. field. Lqa.lra. }
    apply Qleb_comp; [exact E|reflexivity].
Qed.

(** The guard at the extremes: an all-ones mask has sparsity 0 and passes
    exactly when [final_sparsity >= 0]; an all-zeros mask has sparsity 1 and
    passes exactly when [final_sparsity >= 1]; an empty mask never passes. *)
Theorem sparsity_guard_extremes (s : list nat) (n : nat) (final_sparsity : Q) :
  (0 < n)%nat ->
  below_final (Tensor s (repeat 1 n)) final_sparsity
    = Qle_bool 0 final_sparsity /\
  below_final (Tensor s (repeat 0 n)) final_sparsity
    = Qle_bool 1 final_sparsity /\
  below_final (Tensor s []) final_sparsity = false.
Proof. exact (below_final_extremes s n final_sparsity). Qed.

Lemma sparsity_guard_extremes_witness :
  below_final (Tensor [2%nat] (repeat 1 2)) (1 # 2) = Qle_bool 0 (1 # 2) /\
  below_final (Tensor [2%nat] (repeat 0 2)) (1 # 2) = Qle_bool 1 (1 # 2) /\
  below_final (Tensor [2%nat] []) (1 # 2) = false.
Proof.
  apply (sparsity_guard_extremes [2%nat] 2 (1 # 2)). lia.
Defined.

(** A layer that is pruned entirely is never revived by [local_prune] while
    [final_sparsity < 1], with or without [carry_mask]: the guard skips it. *)
Theorem local_prune_skips_dead_layer {FL : FloatLib} (self : Pruner.t)
        (w : tensor) (s : list nat) (n : nat) (r : model) (f : Q) :
  (0 < n)%nat -> Args.final_sparsity (Pruner.args self) < 1 ->
  Pruner.local_prune self (Prunable w (Tensor s (repeat 0 n)) :: r) f
  = (Prunable w (Tensor s (repeat 0 n)) :: fst (Pruner.local_prune self r f),
     snd (Pruner.local_prune self r f)).
Proof.
  intros Hn Hfinal. apply local_prune_skip.
  destruct (below_final_extremes s n
              (Args.final_sparsity (Pruner.args self)) Hn) as (_ & E & _).
  rewrite E.
  destruct (Qle_bool 1 (Args.final_sparsity (Pruner.args self))) eqn:B;
    [|reflexivity].
  apply Qle_bool_iff in B. exfalso. apply (Qlt_not_le _ _ Hfinal B).
Qed.

Lemma local_prune_skips_dead_layer_witness :
  let self := Pruner.init plain_args two_layers in
  let dead := Prunable two_by_two (Tensor [2%nat; 2%nat] (repeat 0 4)) in
  Pruner.local_prune (FL := rational_lib) self [dead] (1 # 2)
  = ([dead], None).
Proof.
  apply (@local_prune_skips_dead_layer rational_lib
           (Pruner.init plain_args two_layers) two_by_two
           [2%nat; 2%nat] 4 [] (1 # 2)).
  - lia.
  - reflexivity.
Defined.

Lemma prune_in_range {FL : FloatLib} u f ty :
  wf_tensor u -> shape u <> [] -> (0 < numel u)%nat -> 0 <= f -> f < 1 ->
  ty = "weight"%string \/ ty = "unit"%string ->
  exists mask, prune u f ty = Ok mask.
Proof.
  intros Hwf Hs Hn Hf0 Hf1 Hty.
  destruct (view_rows_nonempty u Hwf Hs Hn)
    as (out & R & Hv & Hout & HR & _ & _).
  destruct Hty as [-> | ->]; unfold prune; simpl.
  - destruct (rank_index_in_range f R HR Hf0 Hf1) as [Hint Hrange].
    assert (Hpos : position R (py_int (f * of_nat R))
                   = Ok (Z.to_nat (Qfloor (f * of_nat R))))
      by (rewrite Hint; apply position_in_range, Hrange).
    eexists. exact (prune_weight_rows u f out R _ _ Hv Hpos).
  - destruct (rank_index_in_range f out Hout Hf0 Hf1) as [Hint Hrange].
    assert (Hpos : position out (py_int (f * of_nat out))
                   = Ok (Z.to_nat (Qfloor (f * of_nat out))))
      by (rewrite Hint; apply position_in_range, Hrange).
    eexists. exact (prune_unit_rows u f out R _ _ Hv Hpos).
Qed.

Lemma tmul_layer_ok w mk :
  layer_ok (Prunable w mk) ->
  wf_tensor (tmul w mk) /\ shape (tmul w mk) <> [] /\
  (0 < numel (tmul w mk))%nat /\ numel (tmul w mk) = numel w.
Proof.
  unfold layer_ok, wf_tensor, numel, tmul. simpl.
  intros (Hwf & Hs & Hn & Hlen).
  rewrite length_zip_with, Hlen, Nat.min_id.
  repeat split; assumption.
Qed.

(** On well-formed layers, with a supported granularity and a fraction in
    [[0, 1)], [local_prune] returns without raising and leaves well-formed
    layers behind, so that it can be called again. *)
Theorem local_prune_returns {FL : FloatLib} (self : Pruner.t) (m : model)
        (f : Q) :
  Forall layer_ok m ->
  Args.prune_type (Pruner.args self) = "weight"%string
  \/ Args.prune_type (Pruner.args self) = "unit"%string ->
  0 <= f -> f < 1 ->
  snd (Pruner.local_prune self m f) = None /\
  Forall layer_ok (fst (Pruner.local_prune self m f)).
Proof.
  intros Hok Hty Hf0 Hf1.
  induction Hok as [|[|w mk] r Hl _ [IH1 IH2]].
  - split; [reflexivity|constructor].
  - rewrite local_prune_other. cbn [fst snd].
    split; [exact IH1|]. constructor; [exact I|exact IH2].
  - destruct (below_final mk (Args.final_sparsity (Pruner.args self)))
      eqn:Eb.
    + assert (Hin : exists mm,
                prune (if Args.carry_mask (Pruner.args self)
                       then tmul w mk else w)
                      f (Args.prune_type (Pruner.args self)) = Ok mm /\
                length (data mm) = length (data w)).
      { destruct (tmul_layer_ok w mk Hl) as (A & B & C & D).
        destruct Hl as (Hwf & Hs & Hn & Hlen).
        destruct (Args.carry_mask (Pruner.args self)).
        - destruct (prune_in_range (tmul w mk) f _ A B C Hf0 Hf1 Hty)
            as [mm Hmm].
          exists mm. split; [exact Hmm|].
          destruct (prune_mask_shape _ _ _ _ Hmm) as (_ & Hl' & _).
          rewrite Hl', D. reflexivity.
        - destruct (prune_in_range w f _ Hwf Hs Hn Hf0 Hf1 Hty) as [mm Hmm].
          exists mm. split; [exact Hmm|].
          destruct (prune_mask_shape _ _ _ _ Hmm) as (_ & Hl' & _).
          exact Hl'. }
      destruct Hin as (mm & Ep & Hlen').
      rewrite (local_prune_ok self w mk r f mm Eb Ep). cbn [fst snd].
      split; [exact IH1|]. constructor; [|exact IH2].
      destruct Hl as (Hwf & Hs & Hn & _). repeat split; assumption.
    + rewrite (local_prune_skip self w mk r f Eb). cbn [fst snd].
      split; [exact IH1|]. constructor; [exact Hl|exact IH2].
Qed.

Lemma local_prune_returns_witness :
  let self := Pruner.init carry_unit_args two_layers in
  snd (Pruner.local_prune (FL := rational_lib) self two_layers (1 # 2))
    = None /\
  Forall layer_ok
         (fst (Pruner.local_prune (FL := rational_lib) self two_layers
                                  (1 # 2))).
Proof.
  apply (@local_prune_returns rational_lib
           (Pruner.init carry_unit_args two_layers) two_layers (1 # 2)).
  - repeat constructor; discriminate.
  - right. reflexivity.
  - discriminate.
  - reflexivity.
Defined.

(** * Further properties of the schedule *)

(** Whether [compute_sparsity] raises depends on the configuration only,
    not on the step; and since [ramping_prune] computes the sparsity before
    it looks at the step, a configuration that makes the schedule raise
    makes [ramping_prune] raise at every step, inside and outside the
    window, with the model left as it was. *)
Theorem schedule_error_at_every_step {FL : FloatLib} (self : Pruner.t)
        (step0 : Z) (e : exn) :
  Pruner.compute_sparsity self step0 = Raise e ->
  forall (m : model) (step : Z),
    Pruner.compute_sparsity self step = Raise e /\
    Pruner.ramping_prune self m step = (m, Some e).
Proof.
  intros H m step.
  assert (E : Pruner.compute_sparsity self step = Raise e).
  { revert H. unfold Pruner.compute_sparsity, compute_sparsity.
    destruct (String.eqb _ "linear").
    - destruct (Pruner.end_step self - Pruner.start_step self =? 0)%Z;
        [trivial|discriminate].
    - destruct (String.eqb _ "half_cycle").
      + destruct (Args.ramp_cycle_step (Pruner.args self) =? 0)%Z;
          [trivial|discriminate].
      + destruct (String.eqb _ "full_cycle"); [|trivial].
        destruct (Args.ramp_cycle_step (Pruner.args self) =? 0)%Z;
          [trivial|discriminate]. }
  split; [exact E|].
  unfold Pruner.ramping_prune. rewrite E. reflexivity.
Qed.

Lemma schedule_error_at_every_step_witness :
  let self := Pruner.init (with_ramp_type "cosine" plain_args) two_layers in
  Pruner.compute_sparsity (FL := rational_lib) self 950
    = Raise UnboundLocalError /\
  Pruner.ramping_prune (FL := rational_lib) self two_layers 950
    = (two_layers, Some UnboundLocalError).
Proof.
  apply (@schedule_error_at_every_step rational_lib
           (Pruner.init (with_ramp_type "cosine" plain_args) two_layers)
           0 UnboundLocalError).
  reflexivity.
Defined.

(** The override at [step == end_step] never takes effect: whenever
    [ramping_prune] prunes, that is inside the window on a multiple of
    [prune_freq], it prunes with the value [compute_sparsity] gives for the
    step, globally or locally as configured. *)
Theorem ramping_prune_on_grid {FL : FloatLib} (self : Pruner.t) (m : model)
        (step : Z) (v : Q) :
  (Pruner.start_step self <= step < Pruner.end_step self)%Z ->
  Args.prune_freq (Pruner.args self) <> 0%Z ->
  (step mod Args.prune_freq (Pruner.args self) = 0)%Z ->
  Pruner.compute_sparsity self step = Ok v ->
  Pruner.ramping_prune self m step
  = if Args.global_prune (Pruner.args self)
    then Pruner.global_prune m v
    else Pruner.local_prune self m v.
Proof.
  intros [H0 H1] Hfreq Hmod Hv.
  unfold Pruner.ramping_prune. rewrite Hv.
  replace (step =? Pruner.end_step self)%Z with false
    by (symmetry; apply Z.eqb_neq; lia).
  replace (Pruner.start_step self <=? step)%Z with true
    by (symmetry; apply Z.leb_le; lia).
  replace (step <? Pruner.end_step self)%Z with true
    by (symmetry; apply Z.ltb_lt; lia).
  apply Z.eqb_neq in Hfreq. rewrite Hfreq, Hmod. reflexivity.
Qed.

Lemma ramping_prune_on_grid_witness :
  let self := Pruner.init plain_args two_layers in
  Pruner.ramping_prune (FL := rational_lib) self two_layers 50
  = Pruner.local_prune (FL := rational_lib) self two_layers
      (0 + ((1 # 2) - 0) / inject_Z (90 - 10) * inject_Z (50 - 10)).
Proof.
  apply (@ramping_prune_on_grid rational_lib
           (Pruner.init plain_args two_layers) two_layers 50).
  - change (10 <= 50 < 90)%Z. lia.
  - discriminate.
  - reflexivity.
  - reflexivity.
Defined.

(** The linear ramp: with [start_step < end_step] and
    [initial_sparsity <= final_sparsity] the schedule returns at every step,
    it returns [initial_sparsity] itself at [start_step], and it never
    decreases from one step to a later one. *)
Theorem linear_ramp {FL : FloatLib} (self : Pruner.t) :
  Args.ramp_type (Pruner.args self) = "linear"%string ->
  (Pruner.start_step self < Pruner.end_step self)%Z ->
  Args.initial_sparsity (Pruner.args self)
    <= Args.final_sparsity (Pruner.args self) ->
  (exists v, Pruner.compute_sparsity self (Pruner.start_step self) = Ok v /\
             v == Args.initial_sparsity (Pruner.args self)) /\
  (forall step step',
     (step <= step')%Z ->
     exists v v', Pruner.compute_sparsity self step = Ok v /\
                  Pruner.compute_sparsity self step' = Ok v' /\
                  v <= v').
Proof.
  intros Hty Hlt Hle.
  set (s := Pruner.start_step self) in *.
  set (e := Pruner.end_step self) in *.
  set (i := Args.initial_sparsity (Pruner.args self)) in *.
  set (fin := Args.final_sparsity (Pruner.args self)) in *.
  assert (Hd : 0 < inject_Z (e - s)) by (rewrite <- (Zlt_Qlt 0); lia).
  assert (E : forall step,
             Pruner.compute_sparsity self step
             = Ok (i + (fin - i) / inject_Z (e - s) * inject_Z (step - s))).
  { intro step. unfold Pruner.compute_sparsity, compute_sparsity.
    rewrite Hty. fold s e i fin. simpl String.eqb. cbv iota.
    replace (e - s =? 0)%Z with false by (symmetry; apply Z.eqb_neq; lia).
    reflexivity. }
  split.
  - eexists. split; [apply E|].
    rewrite Z.sub_diag. change (inject_Z 0) with 0. field. Lqa.lra.
  - intros step step' Hstep. do 2 eexists.
    split; [apply E|]. split; [apply E|].
    assert (Hrate : 0 <= (fin - i) / inject_Z (e - s)).
    { apply Qle_shift_div_l; [exact Hd|]. Lqa.lra. }
    assert (Hx : inject_Z (step - s) <= inject_Z (step' - s)).
    { rewrite <- Zle_Qle. lia. }
    assert (Hm : (fin - i) / inject_Z (e - s) * inject_Z (step - s)
                 <= (fin - i) / inject_Z (e - s) * inject_Z (step' - s)).
    { rewrite !(Qmult_comm ((fin - i) / inject_Z (e - s))).
      apply Qmult_le_compat_r; assumption. }
    Lqa.lra.
Qed.

Lemma linear_ramp_witness :
  let self := Pruner.init plain_args two_layers in
  (exists v, Pruner.compute_sparsity (FL := rational_lib) self 10 = Ok v /\
             v == 0) /\
  (forall step step',
     (step <= step')%Z ->
     exists v v',
       Pruner.compute_sparsity (FL := rational_lib) self step = Ok v /\
       Pruner.compute_sparsity (FL := rational_lib) self step' = Ok v' /\
       v <= v').
Proof.
  apply (@linear_ramp rational_lib (Pruner.init plain_args two_layers)).
  - reflexivity.
  - reflexivity.
  - discriminate.
Defined.

(** The half-cycle ramp is periodic: shifting the step by whole cycles does
    not change what [compute_sparsity] returns, over any scalars. *)
Theorem half_cycle_periodic (F : Type) (SF : Scalar F)
        (initial_sparsity final_sparsity : F)
        (ramp_cycle_step start_step end_step step k : Z) :
  compute_sparsity "half_cycle" initial_sparsity final_sparsity
                   ramp_cycle_step start_step end_step
                   (step + k * ramp_cycle_step)
  = compute_sparsity "half_cycle" initial_sparsity final_sparsity
                     ramp_cycle_step start_step end_step step.
Proof.
  unfold compute_sparsity. simpl String.eqb. cbv iota.
  rewrite Z_mod_plus_full. reflexivity.
Qed.

Section CyclePoints.

Local Open Scope R_scope.

(** On the reals the half-cycle ramp restarts from 0 at every multiple of
    the cycle length. *)
Theorem half_cycle_resets (initial_sparsity final_sparsity : R)
        (ramp_cycle_step start_step end_step k : Z) :
  ramp_cycle_step <> 0%Z ->
  compute_sparsity "half_cycle" initial_sparsity final_sparsity
                   ramp_cycle_step start_step end_step
                   (k * ramp_cycle_step)
  = Ok 0.
Proof.
  intro Hc. unfold compute_sparsity. simpl String.eqb. cbv iota.
  apply Z.eqb_neq in Hc as Ec. rewrite Ec. simpl.
  rewrite Z_mod_mult. f_equal.
  replace (PI / 2 * 0 / IZR ramp_cycle_step) with 0
    by (field; apply not_0_IZR, Hc).
  rewrite sin_0. ring.
Qed.

Lemma half_cycle_resets_witness :
  compute_sparsity "half_cycle" 0 (1 / 2) 10%Z 0%Z 100%Z (7 * 10)%Z = Ok 0.
Proof.
  apply (half_cycle_resets 0 (1 / 2) 10 0 100 7). discriminate.
Defined.

End CyclePoints.

(** * The pruner's window and a single-shot run *)

(** [__init__] turns ordered fractions of a non-negative number of steps
    into an ordered window inside the run, and snapshots the masks. *)
Theorem init_window (a : Args.t) (m : model) :
  0 <= Args.start_step a -> Args.start_step a <= Args.end_step a ->
  Args.end_step a <= 1 -> (0 <= Args.steps a)%Z ->
  (0 <= Pruner.start_step (Pruner.init a m)
   <= Pruner.end_step (Pruner.init a m))%Z /\
  (Pruner.end_step (Pruner.init a m) <= Args.steps a)%Z /\
  Pruner.initial_masks (Pruner.init a m) = masks_of m.
Proof.
  intros H0 H1 H2 Hs. simpl.
  assert (Hn : 0 <= inject_Z (Args.steps a)) by (rewrite <- (Zle_Qle 0); lia).
  assert (A : 0 <= Args.start_step a * inject_Z (Args.steps a))
    by (apply Qmult_le_0_compat; assumption).
  assert (B : Args.start_step a * inject_Z (Args.steps a)
              <= Args.end_step a * inject_Z (Args.steps a))
    by (apply Qmult_le_compat_r; assumption).
  assert (C : Args.end_step a * inject_Z (Args.steps a)
              <= inject_Z (Args.steps a)).
  { setoid_replace (inject_Z (Args.steps a))
      with (1 * inject_Z (Args.steps a)) at 2 by ring.
    apply Qmult_le_compat_r; assumption. }
  rewrite !py_int_nonneg by Lqa.lra.
  repeat split.
  - rewrite <- (Qfloor_Z 0). apply Qfloor_resp_le, A.
  - apply Qfloor_resp_le, B.
  - rewrite <- (Qfloor_Z (Args.steps a)) at 2. apply Qfloor_resp_le, C.
Qed.

Lemma init_window_witness :
  (0 <= Pruner.start_step (Pruner.init plain_args two_layers)
   <= Pruner.end_step (Pruner.init plain_args two_layers))%Z /\
  (Pruner.end_step (Pruner.init plain_args two_layers) <= 100)%Z /\
  Pruner.initial_masks (Pruner.init plain_args two_layers)
  = masks_of two_layers.
Proof.
  apply (init_window plain_args two_layers); simpl; try discriminate.
Defined.

Section Run.

Context {FL : FloatLib}.
Variable self : Pruner.t.
Hypothesis Hmode : Args.ramping (Pruner.args self) = false.

Lemma step_off_start m s :
  s <> Pruner.start_step self -> Pruner.step self m s = (m, None).
Proof.
  intro H. unfold Pruner.step, Pruner.single_shot_prune. rewrite Hmode.
  apply Z.eqb_neq in H. rewrite H. reflexivity.
Qed.

Lemma run_steps_noop steps : forall m,
  (forall s, In s steps -> s <> Pruner.start_step self) ->
  run_steps self m steps = (m, None).
Proof.
  induction steps as [|s rest IH]; intros m H; [reflexivity|].
  simpl. rewrite step_off_start by (apply H; left; reflexivity).
  apply IH. intros s' Hs'. apply H. right. exact Hs'.
Qed.

Lemma run_steps_app a : forall b m,
  run_steps self m (a ++ b)
  = match run_steps self m a with
    | (m', None) => run_steps self m' b
    | (m', Some e) => (m', Some e)
    end.
Proof.
  induction a as [|s a IH]; intros b m; [reflexivity|].
  simpl. destruct (Pruner.step self m s) as [m' [e|]]; [reflexivity|].
  apply IH.
Qed.

End Run.

(** In single-shot mode the pruner fires exactly once over a run: calling
    [step] at the steps [0, 1, ..., N - 1] in turn is the one call of
    [single_shot_prune] at [start_step] when that step is in the run, and
    does nothing at all otherwise. *)
Theorem single_shot_fires_once {FL : FloatLib} (self : Pruner.t) (m : model)
        (N : nat) :
  Args.ramping (Pruner.args self) = false ->
  run_steps self m (map Z.of_nat (seq 0 N))
  = if ((0 <=? Pruner.start_step self)
        && (Pruner.start_step self <? Z.of_nat N))%Z
    then Pruner.single_shot_prune self m (Pruner.start_step self)
    else (m, None).
Proof.
  intro Hmode.
  destruct ((0 <=? Pruner.start_step self)
            && (Pruner.start_step self <? Z.of_nat N))%Z eqn:E.
  - apply andb_prop in E. destruct E as [E0 E1].
    apply Z.leb_le in E0. apply Z.ltb_lt in E1.
    set (k := Z.to_nat (Pruner.start_step self)).
    assert (Hk : Z.of_nat k = Pruner.start_step self) by (unfold k; lia).
    replace N with (k + S (N - k - 1))%nat by lia.
    rewrite seq_app, map_app. simpl seq. simpl map.
    rewrite (run_steps_app self).
    rewrite (run_steps_noop self Hmode).
    + simpl. rewrite Hk. unfold Pruner.step at 1. rewrite Hmode.
      destruct (Pruner.single_shot_prune self m (Pruner.start_step self))
        as [m' [e|]]; [reflexivity|].
      apply (run_steps_noop self Hmode).
      intros s Hs. apply in_map_iff in Hs. destruct Hs as (i & <- & Hi).
      apply in_seq in Hi. lia.
    + intros s Hs. apply in_map_iff in Hs. destruct Hs as (i & <- & Hi).
      apply in_seq in Hi. lia.
  - apply (run_steps_noop self Hmode).
    intros s Hs. apply in_map_iff in Hs. destruct Hs as (i & <- & Hi).
    apply in_seq in Hi. intro Heq.
    apply andb_false_iff in E. destruct E as [E|E].
    + apply Z.leb_gt in E. lia.
    + apply Z.ltb_ge in E. lia.
Qed.

Lemma single_shot_fires_once_witness :
  let self := Pruner.init (with_ramping false plain_args) two_layers in
  run_steps (FL := rational_lib) self two_layers (map Z.of_nat (seq 0 100))
  = Pruner.single_shot_prune (FL := rational_lib) self two_layers 10.
Proof.
  apply (@single_shot_fires_once rational_lib
           (Pruner.init (with_ramping false plain_args) two_layers)
           two_layers 100).
  reflexivity.
Defined.

(** * The evaluation pass *)

Section TestPass.

Variables (Net X : Type).
Variable loss_of : Net -> X -> list nat -> Q.
Variable predicted_of : Net -> X -> list nat.

Lemma eq_count_le predicted targets :
  (Trainer.eq_count predicted targets <= length targets)%nat.
Proof.
  unfold Trainer.eq_count.
  etransitivity; [apply filter_length_le|].
  rewrite length_combine. apply Nat.le_min_r.
Qed.

(** The loop keeps [correct <= total], and binds [loss] to the loss of the
    last batch as soon as there is one. *)
Lemma fold_counters n : forall loader (c : Trainer.counters),
  (Trainer.correct c <= Trainer.total c)%nat ->
  let c' := fold_left (Trainer.batch_step Net X loss_of predicted_of n) loader c in
  (Trainer.correct c' <= Trainer.total c')%nat /\
  (Trainer.total c <= Trainer.total c')%nat /\
  Trainer.loss c'
  = match rev loader with
    | [] => Trainer.loss c
    | (inputs, targets) :: _ => Some (loss_of n inputs targets)
    end.
Proof.
  induction loader as [|[inputs targets] loader IH]; intros c Hc.
  - simpl. repeat split; [exact Hc|apply Nat.le_refl].
  - cbn [fold_left].
    set (c1 := Trainer.batch_step Net X loss_of predicted_of n c
                                   (inputs, targets)).
    assert (Hc1 : (Trainer.correct c1 <= Trainer.total c1)%nat).
    { unfold c1, Trainer.batch_step.
      cbn [Trainer.correct Trainer.total].
      apply Nat.add_le_mono; [exact Hc|apply eq_count_le]. }
    destruct (IH c1 Hc1) as (A & B & C).
    split; [exact A|]. split.
    + unfold c1, Trainer.batch_step in B.
      cbn [Trainer.correct Trainer.total] in B.
      eapply Nat.le_trans; [apply Nat.le_add_r|exact B].
    + rewrite C. simpl rev.
      destruct (rev loader) as [|[i t] r]; reflexivity.
Qed.

End TestPass.

(** On a loader with at least one target, [test] returns the loss of the
    last batch (not the accumulated [test_loss]) and an accuracy between 0
    and 100, and leaves the network as it was, in training mode whatever
    the mode before. *)
Theorem test_returns (Net X : Type)
        (loss_of : Net -> X -> list nat -> Q)
        (predicted_of : Net -> X -> list nat)
        (testloader : list (X * list nat)) (last : X * list nat)
        (m : Trainer.model_state Net) :
  (0 < length (snd last))%nat ->
  let loader := testloader ++ [last] in
  exists acc,
    Trainer.test Net X loss_of predicted_of loader m
    = (Trainer.Build (Trainer.net m) true,
       Ok (loss_of (Trainer.net m) (fst last) (snd last), acc)) /\
    0 <= acc <= 100.
Proof.
  intros Hlast loader. unfold Trainer.test. cbn [Trainer.net].
  destruct (fold_counters Net X loss_of predicted_of (Trainer.net m) loader
              (Trainer.Counters None 0 0 0) (Nat.le_refl 0))
    as (A & _ & C).
  set (c := fold_left _ loader _) in *.
  assert (Htot : (0 < Trainer.total c)%nat).
  { unfold c, loader. rewrite fold_left_app. destruct last as [i t].
    simpl in *. lia. }
  replace (Trainer.total c =? 0)%nat with false
    by (symmetry; apply Nat.eqb_neq; lia).
  unfold loader in C. rewrite rev_app_distr in C. simpl in C.
  destruct last as [i t]. rewrite C. simpl fst. simpl snd.
  eexists. split; [reflexivity|].
  pose proof (of_nat_pos _ Htot) as Hpos.
  assert (H0 : 0 <= of_nat (Trainer.correct c)).
  { unfold of_nat. rewrite <- (Zle_Qle 0). lia. }
  assert (H1 : of_nat (Trainer.correct c) <= of_nat (Trainer.total c)).
  { unfold of_nat. rewrite <- Zle_Qle. lia. }
  split.
  - apply Qle_shift_div_l; [exact Hpos|]. Lqa.lra.
  - apply Qle_shift_div_r; [exact Hpos|]. Lqa.lra.
Qed.

Lemma test_returns_witness :
  exists acc,
    Trainer.test unit nat (fun _ x _ => inject_Z (Z.of_nat x))
                 (fun _ x => [x; x]) ([(1%nat, [1%nat; 2%nat])]
                                      ++ [(2%nat, [2%nat; 2%nat])])
                 (Trainer.Build tt false)
    = (Trainer.Build tt true, Ok (inject_Z (Z.of_nat 2), acc)) /\
    0 <= acc <= 100.
Proof.
  apply (test_returns unit nat (fun _ x _ => inject_Z (Z.of_nat x))
           (fun _ x => [x; x]) [(1%nat, [1%nat; 2%nat])]
           (2%nat, [2%nat; 2%nat]) (Trainer.Build tt false)).
  simpl. lia.
Defined.

(** On a loader without any target (no batch, or empty batches only)
    [test] raises [ZeroDivisionError] at the accuracy, before it switches
    the model back: the model is left in eval mode. *)
Theorem test_empty_loader (Net X : Type)
        (loss_of : Net -> X -> list nat -> Q)
        (predicted_of : Net -> X -> list nat)
        (testloader : list (X * list nat)) (m : Trainer.model_state Net) :
  Forall (fun batch => snd batch = []) testloader ->
  Trainer.test Net X loss_of predicted_of testloader m
  = (Trainer.Build (Trainer.net m) false, Raise ZeroDivisionError).
Proof.
  intro H. unfold Trainer.test. cbn [Trainer.net].
  assert (E : forall c,
             Trainer.total
               (fold_left (Trainer.batch_step Net X loss_of predicted_of
                                              (Trainer.net m))
                          testloader c)
             = Trainer.total c).
  { induction H as [|[i t] l Ht _ IH]; intro c; [reflexivity|].
    cbn [fold_left]. rewrite IH. simpl in Ht. subst t. simpl. lia. }
  rewrite E. reflexivity.
Qed.

Lemma test_empty_loader_witness :
  Trainer.test unit nat (fun _ x _ => inject_Z (Z.of_nat x))
               (fun _ x => [x]) [] (Trainer.Build tt true)
  = (Trainer.Build tt false, Raise ZeroDivisionError).
Proof.
  apply (test_empty_loader unit nat (fun _ x _ => inject_Z (Z.of_nat x))
           (fun _ x => [x]) [] (Trainer.Build tt true)).
  constructor.
Defined.
